(** * Bangla-Spanish voice translator: the client-side audio pipeline

    A shallow embedding of [utils/audioUtils.ts] (sample-format conversion,
    base64 transport encoding, decimating resampler, PCM decoding) and of the
    session hook [hooks/useTranslator.ts] (playback scheduler, connection
    state machine), followed by the properties the design document states
    about them.

    Numbers.  A JavaScript number is a binary64 value; [number] holds a
    rational, or one of the three special values.  The arithmetic of sample
    rates, source indexes and clock times rounds as the language does: the
    exact result is rounded to the nearest binary64 value, ties to even,
    and overflows to an infinity ([fl64]).  The sign of a zero is not
    represented.  Every finite float32 sample is a dyadic rational, and the
    products [s * 0x8000], [s * 0x7FFF] and the quotient [int16 / 32768.0]
    of the conversion code are exact in binary64, so the sample-format
    conversion is written with exact products. *)

From Stdlib Require Import ZArith QArith Qround Qminmax Qabs Qpower Lia Lqa.
From Stdlib Require Import String Ascii List.
From stdpp Require Import gmap list.
Import ListNotations.

Local Open Scope Z_scope.

(** ** JavaScript numbers and typed arrays *)

Module JS.

Inductive number : Type :=
  | Num (q : Q)
  | PosInf
  | NegInf
  | NaN.

Arguments Num q%_Q.

(** [a < b] of the language: false as soon as one side is NaN. *)
Definition lt (a b : number) : bool :=
  match a, b with
  | NaN, _ | _, NaN => false
  | Num x, Num y => if Qlt_le_dec x y then true else false
  | NegInf, NegInf => false
  | NegInf, _ => true
  | _, PosInf => match a with PosInf => false | _ => true end
  | _, _ => false
  end.

(** [Math.min] and [Math.max]: NaN when an argument is NaN. *)
Definition Math_min (a b : number) : number :=
  match a, b with
  | NaN, _ | _, NaN => NaN
  | _, _ => if lt b a then b else a
  end.

Definition Math_max (a b : number) : number :=
  match a, b with
  | NaN, _ | _, NaN => NaN
  | _, _ => if lt a b then b else a
  end.

Definition sign_of (q : Q) : comparison := (q ?= 0)%Q.

(** The product of a sample and a 16-bit constant (exact, see above), with
    the IEEE rules for the special values. *)
Definition mul (a b : number) : number :=
  match a, b with
  | NaN, _ | _, NaN => NaN
  | Num x, Num y => Num (x * y)
  | Num x, PosInf | PosInf, Num x =>
      match sign_of x with Gt => PosInf | Lt => NegInf | Eq => NaN end
  | Num x, NegInf | NegInf, Num x =>
      match sign_of x with Gt => NegInf | Lt => PosInf | Eq => NaN end
  | PosInf, PosInf | NegInf, NegInf => PosInf
  | PosInf, NegInf | NegInf, PosInf => NegInf
  end.

(** Truncation toward zero of a rational. *)
Definition Qtrunc (q : Q) : Z := Z.quot (Qnum q) (Z.pos (Qden q)).

(** [Math.round]: the nearest integer, ties toward plus infinity. *)
Definition Math_round (q : Q) : Z := Qfloor (q + (1 # 2))%Q.

(** *** binary64 arithmetic

    A finite binary64 value is [m * 2^e] with [|m| < 2^53] and
    [-1074 <= e], of magnitude below [2^1024].  [pow2 e] is [2^e]. *)
Definition pow2 (e : Z) : Q := (2 ^ e)%Q.

(** The binary exponent of a positive rational [q]: the [e] with
    [2^(e-1) <= q < 2^e]. *)
Definition mag (q : Q) : Z :=
  let t := Z.log2 (Qnum q) - Z.log2 (Z.pos (Qden q)) in
  if Qle_bool (pow2 t) q then t + 1 else t.

(** The nearest integer, ties to the even one. *)
Definition rne (q : Q) : Z :=
  let n := Qfloor q in
  match (q - inject_Z n ?= 1 # 2)%Q with
  | Lt => n
  | Gt => n + 1
  | Eq => if Z.even n then n else n + 1
  end.

(** The exponent of the unit in the last place of the binary64 values
    around a positive [q]: 53 significant bits, and no exponent below that
    of the subnormal values. *)
Definition ulp_exponent (q : Q) : Z := Z.max (mag q - 53) (-1074).

(** A positive rational rounded to the nearest multiple of its unit in the
    last place, ties to even. *)
Definition round_pos (q : Q) : Q :=
  (inject_Z (rne (q / pow2 (ulp_exponent q))) * pow2 (ulp_exponent q))%Q.

(** The binary64 value of an exact result: rounded to nearest, ties to
    even, and an infinity when the rounded magnitude reaches [2^1024]. *)
Definition fl64 (q : Q) : number :=
  match sign_of q with
  | Eq => Num 0
  | Gt =>
      let v := round_pos q in
      if Qle_bool (pow2 1024) v then PosInf else Num v
  | Lt =>
      let v := round_pos (- q) in
      if Qle_bool (pow2 1024) v then NegInf else Num (- v)
  end.

(** The rationals that are binary64 values: rounding leaves them as they
    are. *)
Definition binary64 (q : Q) : Prop := ∃ v, fl64 q = Num v ∧ v == q.

(** A value of the number type of the language: a finite one is a binary64
    value. *)
Definition is_number (x : number) : Prop :=
  match x with
  | Num q => binary64 q
  | _ => True
  end.

(** [a / b], [a + b] and [a * b] on binary64 values.  A zero divisor is
    taken for [+0]. *)
Definition div (a b : number) : number :=
  match a, b with
  | NaN, _ | _, NaN => NaN
  | Num x, Num y =>
      match sign_of y with
      | Eq => match sign_of x with Gt => PosInf | Lt => NegInf | Eq => NaN end
      | _ => fl64 (x / y)
      end
  | Num _, _ => Num 0
  | PosInf, Num y => match sign_of y with Lt => NegInf | _ => PosInf end
  | NegInf, Num y => match sign_of y with Lt => PosInf | _ => NegInf end
  | _, _ => NaN
  end.

Definition add (a b : number) : number :=
  match a, b with
  | NaN, _ | _, NaN => NaN
  | Num x, Num y => fl64 (x + y)
  | PosInf, NegInf | NegInf, PosInf => NaN
  | PosInf, _ | _, PosInf => PosInf
  | NegInf, _ | _, NegInf => NegInf
  end.

Definition mul64 (a b : number) : number :=
  match a, b with
  | Num x, Num y => fl64 (x * y)
  | _, _ => mul a b
  end.

(** [Math.round] on a number: NaN and the infinities are returned as they
    are. *)
Definition Math_round_num (x : number) : number :=
  match x with
  | Num q => Num (inject_Z (Math_round q))
  | _ => x
  end.

(** A number that is not negative: a rational that is not, or plus
    infinity. *)
Definition nonneg (x : number) : Prop :=
  match x with
  | Num q => (0 <= q)%Q
  | PosInf => True
  | _ => False
  end.

(** A non-negative integer as a number (exact below [2^53]). *)
Definition number_of_nat (n : nat) : number := Num (inject_Z (Z.of_nat n)).

(** ToInt16 of the language: NaN and the infinities give 0, a finite value is
    truncated and wrapped modulo 2^16 into [-32768, 32767]. *)
Definition wrap16 (z : Z) : Z :=
  let m := z mod 65536 in if 32768 <=? m then m - 65536 else m.

Definition ToInt16 (x : number) : Z :=
  match x with
  | Num q => wrap16 (Qtrunc q)
  | _ => 0
  end.

(** An [ArrayBuffer] is its list of bytes, each in [0, 256). *)
Abbreviation ArrayBuffer := (list Z).

Definition new_ArrayBuffer (n : nat) : ArrayBuffer := replicate n 0.

(** [DataView.setInt16(offset, value, true)]: two bytes, low byte first. *)
Definition setInt16 (view : ArrayBuffer) (offset : nat) (value : number)
  : ArrayBuffer :=
  let u := ToInt16 value mod 65536 in
  <[S offset := u / 256]> (<[offset := u mod 256]> view).

(** The two bytes [setInt16] writes for the 16-bit integer [v]. *)
Definition int16_bytes (v : Z) : list Z :=
  let u := v mod 65536 in [u mod 256; u / 256].

(** Reading a little-endian signed 16-bit integer from two bytes. *)
Definition int16_of_bytes (lo hi : Z) : Z := wrap16 (lo + 256 * hi).

(** [new Int16Array(buffer)]: a RangeError ([None]) when the byte length is
    odd, otherwise the 16-bit elements, read in the little-endian byte order
    of the platforms the application runs on. *)
Fixpoint Int16Array (buffer : ArrayBuffer) : option (list Z) :=
  match buffer with
  | [] => Some []
  | [_] => None
  | lo :: hi :: rest =>
      match Int16Array rest with
      | Some l => Some (int16_of_bytes lo hi :: l)
      | None => None
      end
  end.

(** A [Float32Array] is its list of samples; reading outside it gives
    [undefined] ([None]), and storing [undefined] stores NaN. *)
Abbreviation Float32Array := (list number).

Definition new_Float32Array (n : nat) : Float32Array := replicate n (Num 0).

Definition f32_get (a : Float32Array) (index : Z) : option number :=
  if index <? 0 then None else a !! Z.to_nat index.

Definition f32_set (a : Float32Array) (i : nat) (v : option number)
  : Float32Array :=
  <[i := default NaN v]> a.

(** Reading at an index that is a number: [undefined] unless the number is
    an integer inside the array. *)
Definition f32_get_num (a : Float32Array) (index : number) : option number :=
  match index with
  | Num q => if Qeq_bool (inject_Z (Qfloor q)) q then f32_get a (Qfloor q)
             else None
  | _ => None
  end.

(** The length of [new Float32Array(n)], which is also the number of
    iterations of [for (let i = 0; i < n; i++)], for an integral [n]; NaN
    gives length 0.  (For a negative or an infinite [n] the constructor
    raises a RangeError, which is not represented.) *)
Definition array_length (n : number) : nat :=
  match n with
  | Num q => Z.to_nat (Qfloor q)
  | _ => 0%nat
  end.

(** A string of the language is its list of UTF-16 code units. *)
Abbreviation jsstring := (list Z).

(** [String.fromCharCode(n)] for one integer argument, and the conversion of
    a store into a [Uint8Array] element.  [s.charCodeAt(i)] at an index
    inside the string is the [i]-th element of the list. *)
Definition fromCharCode (n : Z) : Z := n mod 65536.

Definition ToUint8 (n : Z) : Z := n mod 256.

(** *** The platform's [btoa] and [atob]

    Both are browser built-ins.  [btoa] is base64 with padding (RFC 4648,
    section 4) and raises on a code unit above 255; [atob] is the
    forgiving-base64 decoding of the WHATWG Infra standard.  [None] stands
    for the raised [InvalidCharacterError]. *)

Definition alphabet : list Z :=
  [65;66;67;68;69;70;71;72;73;74;75;76;77;78;79;80;81;82;83;84;85;86;87;88;
   89;90;97;98;99;100;101;102;103;104;105;106;107;108;109;110;111;112;113;
   114;115;116;117;118;119;120;121;122;48;49;50;51;52;53;54;55;56;57;43;47].

Definition char_of_sextet (n : Z) : Z := nth (Z.to_nat n) alphabet 65.

Definition sextet_of_char (c : Z) : option Z :=
  if (65 <=? c) && (c <=? 90) then Some (c - 65)
  else if (97 <=? c) && (c <=? 122) then Some (c - 71)
  else if (48 <=? c) && (c <=? 57) then Some (c + 4)
  else if c =? 43 then Some 62
  else if c =? 47 then Some 63
  else None.

(** Three octets give four sextets; one or two trailing octets give two or
    three sextets, the missing bits being zero. *)
Fixpoint sextets_of_octets (bs : list Z) : list Z :=
  match bs with
  | [] => []
  | [a] => [a / 4; (a mod 4) * 16]
  | [a; b] => [a / 4; (a mod 4) * 16 + b / 16; (b mod 16) * 4]
  | a :: b :: c :: rest =>
      a / 4 :: (a mod 4) * 16 + b / 16 :: (b mod 16) * 4 + c / 64 :: c mod 64
        :: sextets_of_octets rest
  end.

(** The [=] signs that complete the last group of four characters. *)
Fixpoint padding (bs : list Z) : list Z :=
  match bs with
  | [] => []
  | [_] => [61; 61]
  | [_; _] => [61]
  | _ :: _ :: _ :: rest => padding rest
  end.

Definition btoa (data : jsstring) : option jsstring :=
  if forallb (fun c => c <=? 255) data
  then Some (map char_of_sextet (sextets_of_octets data) ++ padding data)
  else None.

Definition is_ascii_whitespace (c : Z) : bool :=
  (c =? 9) || (c =? 10) || (c =? 12) || (c =? 13) || (c =? 32).

(** Octets, sextets, and the check that a sextet survives the alphabet. *)
Definition is_octet (b : Z) : Prop := 0 <= b < 256.
Definition is_sextet (s : Z) : Prop := 0 <= s < 64.

Definition sextet_check (s : Z) : bool :=
  let c := char_of_sextet s in
  match sextet_of_char c with
  | Some s' => (s' =? s) && negb (is_ascii_whitespace c) && negb (c =? 61)
  | None => false
  end.

Definition ends_with_equals (data : jsstring) : bool :=
  match last data with
  | Some c => c =? 61
  | None => false
  end.

(** When the length is a multiple of four, one or two trailing [=] are
    removed. *)
Definition strip_padding (data : jsstring) : jsstring :=
  if (length data mod 4 =? 0)%nat then
    if ends_with_equals data then
      let data1 := removelast data in
      if ends_with_equals data1 then removelast data1 else data1
    else data
  else data.

(** Four sextets give three octets; a final group of two or three sextets
    gives one or two octets, the left-over bits being dropped. *)
Fixpoint octets_of_sextets (l : list Z) : list Z :=
  match l with
  | a :: b :: c :: d :: rest =>
      a * 4 + b / 16 :: (b mod 16) * 16 + c / 4 :: (c mod 4) * 64 + d
        :: octets_of_sextets rest
  | [a; b; c] => [a * 4 + b / 16; (b mod 16) * 16 + c / 4]
  | [a; b] => [a * 4 + b / 16]
  | _ => []
  end.

Definition atob (data : jsstring) : option jsstring :=
  let data := filter (fun c => is_ascii_whitespace c = false) data in
  let data := strip_padding data in
  if (length data mod 4 =? 1)%nat then None
  else
    sextets ← mapM sextet_of_char data;
    Some (octets_of_sextets sextets).

(** An [AudioBuffer] with one channel.  [createBuffer] raises
    [NotSupportedError] ([None]) for a length of zero frames; the sample rate
    is taken to be one the rendering context supports. *)
Record AudioBuffer : Type := mkAudioBuffer {
  channelData : Float32Array;
  sampleRate : Q
}.

(** The [duration] attribute: the number of frames divided by the sample
    rate, in binary64. *)
Definition duration (b : AudioBuffer) : number :=
  div (number_of_nat (length (channelData b))) (Num (sampleRate b)).

Definition createBuffer (len : nat) (rate : Q) : option AudioBuffer :=
  match len with
  | O => None
  | _ => Some (mkAudioBuffer (new_Float32Array len) rate)
  end.

(** [target.set(source)] on typed arrays of the same length. *)
Definition f32_set_all (target source : Float32Array) : Float32Array :=
  source ++ drop (length source) target.

End JS.

(** ** utils/audioUtils.ts *)

Module AudioUtils.
Import JS.

(** The value [float32To16BitPCM] stores for the sample [x]: the clamped
    sample scaled by [0x8000] when negative and by [0x7FFF] otherwise. *)
Definition pcm_value (x : number) : number :=
  let s := Math_max (Num (-1)) (Math_min (Num 1) x) in
  if lt s (Num 0) then mul s (Num 32768) else mul s (Num 32767).

(** One iteration of its loop. *)
Definition pcm_step (float32Arr : Float32Array) (view : ArrayBuffer) (i : nat)
  : ArrayBuffer :=
  match float32Arr !! i with
  | Some x => setInt16 view (i * 2) (pcm_value x)
  | None => view
  end.

Definition float32To16BitPCM (float32Arr : Float32Array) : ArrayBuffer :=
  fold_left (pcm_step float32Arr) (seq 0 (length float32Arr))
    (new_ArrayBuffer (length float32Arr * 2)).

(** [arrayBufferToBase64]: the bytes become a binary string, one code unit
    per byte, which [btoa] encodes. *)
Definition arrayBufferToBase64 (buffer : ArrayBuffer) : option jsstring :=
  let bytes := buffer in
  let len := length bytes in
  let binary :=
    fold_left
      (fun (binary : jsstring) (i : nat) =>
         match bytes !! i with
         | Some b => binary ++ [fromCharCode b]
         | None => binary
         end)
      (seq 0 len) [] in
  btoa binary.

(** [base64ToArrayBuffer]: [atob], then one byte per code unit. *)
Definition base64ToArrayBuffer (base64 : jsstring) : option ArrayBuffer :=
  binaryString ← atob base64;
  let len := length binaryString in
  let bytes := replicate len 0 in
  Some
    (fold_left
       (fun (bytes : ArrayBuffer) (i : nat) =>
          match binaryString !! i with
          | Some c => <[i := ToUint8 c]> bytes
          | None => bytes
          end)
       (seq 0 len) bytes).

(** [downsampleBuffer], for sample rates that are positive numbers.  (With
    an output rate that is not positive the source can ask for an array of
    negative length and raise a RangeError, which this function does not
    represent.)  The three numbers it computes, each in binary64: *)
Definition sampleRateRatio (inputSampleRate outputSampleRate : Q) : number :=
  div (Num inputSampleRate) (Num outputSampleRate).

Definition newLength (buffer : Float32Array) (sampleRateRatio : number)
  : number :=
  Math_round_num (div (number_of_nat (length buffer)) sampleRateRatio).

Definition index_of (i : nat) (sampleRateRatio : number) : number :=
  let originalIndex := mul64 (number_of_nat i) sampleRateRatio in
  Math_round_num originalIndex.

(** One iteration of the loop; the source also computes a
    [nextOriginalIndex] that it never uses. *)
Definition downsample_step (buffer : Float32Array) (sampleRateRatio : number)
    (result : Float32Array) (i : nat) : Float32Array :=
  let index := index_of i sampleRateRatio in
  if lt index (number_of_nat (length buffer))
  then f32_set result i (f32_get_num buffer index)
  else result.

Definition downsampleBuffer (buffer : Float32Array)
    (inputSampleRate outputSampleRate : Q) : Float32Array :=
  if Qeq_bool inputSampleRate outputSampleRate then buffer
  else if Qlt_le_dec inputSampleRate outputSampleRate then buffer
  else
    let sampleRateRatio := sampleRateRatio inputSampleRate outputSampleRate in
    let newLength := newLength buffer sampleRateRatio in
    let result := new_Float32Array (array_length newLength) in
    fold_left (downsample_step buffer sampleRateRatio)
      (seq 0 (array_length newLength)) result.

(** What the loop of [downsampleBuffer] leaves at output index [i]. *)
Definition downsample_value (buffer : Float32Array) (r : number) (i : nat)
  : number :=
  let index := index_of i r in
  if lt index (number_of_nat (length buffer))
  then default NaN (f32_get_num buffer index)
  else Num 0.

(** The envelope sent to the remote session: the base64 text and the sample
    rate carried by the MIME tag [audio/pcm;rate=N]. *)
Record Blob : Type := mkBlob {
  data : jsstring;
  mimeType_rate : Q
}.

Definition createPcmBlob (samples : Float32Array) (rate : Q) : option Blob :=
  let pcmBuffer := float32To16BitPCM samples in
  base64 ← arrayBufferToBase64 pcmBuffer;
  Some (mkBlob base64 rate).

(** The loop of [decodeAudioData]: every 16-bit integer divided by 32768. *)
Definition decode_int16 (dataInt16 : list Z) : Float32Array :=
  fold_left
    (fun (float32Data : Float32Array) (i : nat) =>
       match dataInt16 !! i with
       | Some z => <[i := Num (inject_Z z / 32768)]> float32Data
       | None => float32Data
       end)
    (seq 0 (length dataInt16)) (new_Float32Array (length dataInt16)).

(** The default of the [sampleRate] parameter of [decodeAudioData]. *)
Definition default_sampleRate : Q := 24000.

(** [decodeAudioData]; [None] is the rejected promise. *)
Definition decodeAudioData (base64Data : jsstring) (rate : Q)
  : option AudioBuffer :=
  arrayBuffer ← base64ToArrayBuffer base64Data;
  dataInt16 ← Int16Array arrayBuffer;
  let float32Data := decode_int16 dataInt16 in
  audioBuffer ← createBuffer (length float32Data) rate;
  Some (mkAudioBuffer (f32_set_all (channelData audioBuffer) float32Data)
          (sampleRate audioBuffer)).

End AudioUtils.

(** ** The conversions in the words of the design document *)

Module Design.
Import JS.

(** Section 3, AudioFrame: a sample in the range [-1.0, 1.0]. *)
Definition in_unit_range (x : number) : bool :=
  match x with
  | Num q => Qle_bool (-1) q && Qle_bool q 1
  | _ => false
  end.

(** Section 4.1, forward: clamp the sample to [-1, 1]. *)
Definition clamp (x : number) : number :=
  match x with
  | Num q =>
      if Qlt_le_dec q (-1) then Num (-1)
      else if Qlt_le_dec 1 q then Num 1
      else Num q
  | PosInf => Num 1
  | NegInf => Num (-1)
  | NaN => NaN
  end.

(** Then scale by 32767 when the clamped value is non-negative and by 32768
    when it is negative, and truncate to an integer (NaN, which is neither,
    converts to 0). *)
Definition forward (x : number) : Z :=
  match clamp x with
  | Num c =>
      if Qlt_le_dec c 0 then Qtrunc (c * 32768) else Qtrunc (c * 32767)
  | _ => 0
  end.

(** Section 4.1, reverse: divide the 16-bit integer by 32768. *)
Definition reverse (z : Z) : number := Num (inject_Z z / 32768).

(** Section 8, round trip: forward conversion of a frame, then the reverse
    conversion of its 16-bit integers. *)
Definition encode_then_decode (frame : Float32Array) : option Float32Array :=
  AudioUtils.decode_int16 <$> Int16Array (AudioUtils.float32To16BitPCM frame).

(** Every finite sample comes back within [bound] of its original value. *)
Definition roundtrip_within (bound : Q) (frame : Float32Array) : Prop :=
  ∃ out, encode_then_decode frame = Some out
    ∧ ∀ (i : nat) (q : Q), frame !! i = Some (Num q) →
        ∃ q', out !! i = Some (Num q') ∧ (Qabs (q' - q) <= bound)%Q.

(** Section 4.2: the source index of output index [i] for ratio [r], as the
    document writes it, over the rationals. *)
Definition source_index (i : nat) (r : Q) : Z :=
  Math_round (inject_Z (Z.of_nat i) * r).

(** Section 4.2: the output length for input length [L] and ratio [r], as
    the document writes it, over the rationals. *)
Definition output_length (L : nat) (r : Q) : Z :=
  Math_round (inject_Z (Z.of_nat L) / r).

End Design.

(** ** types.ts *)

Module Types.

Inductive ConnectionState : Type :=
  | DISCONNECTED
  | CONNECTING
  | CONNECTED
  | ERROR.

Record TranscriptionItem : Type := mkTranscriptionItem {
  id : string;
  text : string;
  isUser : bool;
  timestamp : Z;
  isComplete : bool
}.

End Types.

(** ** hooks/useTranslator.ts *)

Module UseTranslator.
Import JS AudioUtils Types.

(** The hook is modelled by the state it holds (React state and refs) and by
    the platform it acts on.  Each callback is one atomic step, as the
    single-threaded runtime runs it.  The volume meter ([updateVolume]) only
    reads an analyser and sets the [volume] state; it is left out, as is the
    wiring of audio nodes to analysers and destinations, which changes
    nothing of what is modelled here.

    Objects of the platform and of the SDK (audio contexts, nodes, the media
    stream, the session promise, buffer sources) are handles. *)
Abbreviation handle := nat (only parsing).

(** A thrown value, with its [message] property when it has one. *)
Record exn : Type := mkExn { message : option string }.

(** The calls the hook makes on platform objects that the properties below
    observe.  [SourceStart] records the clock reading [at_time] of the
    handler that made the call, next to the argument of [source.start(when)]
    and the buffer of the source.  [PromiseThen] is the call
    [sessionPromise.then(...)] of [disconnect], which registers a
    continuation; [SessionClose] is the [session.close()] that the
    continuation makes when it runs. *)
Inductive call : Type :=
  | SourceStart (source : handle) (at_time when : Q) (buffer : AudioBuffer)
  | SourceStop (source : handle)
  | PromiseThen (promise : handle)
  | SessionClose (session : handle)
  | TracksStop (stream : handle)
  | NodeDisconnect (node : handle)
  | ContextClose (context : handle).

(** The platform: the calls made so far, oldest first, the buffer sources
    that have been stopped, the next fresh handle, and the session promises
    on which [disconnect] has registered a continuation that has not run
    yet, oldest first. *)
Record world : Type := mkWorld {
  calls : list call;
  stopped : gset handle;
  fresh : handle;
  reactions : list handle
}.

(** The React state and the refs of the hook. *)
Record state : Type := mkState {
  connectionState : ConnectionState;
  transcriptions : list TranscriptionItem;
  error : option string;
  inputContextRef : option handle;
  outputContextRef : option handle;
  inputSourceRef : option handle;
  processorRef : option handle;
  inputAnalyserRef : option handle;
  outputAnalyserRef : option handle;
  streamRef : option handle;
  sessionPromiseRef : option handle;
  nextStartTimeRef : number;
  sourcesRef : gset handle
}.

(** The state of a freshly mounted hook. *)
Definition initial_state : state :=
  {| connectionState := DISCONNECTED;
     transcriptions := [];
     error := None;
     inputContextRef := None;
     outputContextRef := None;
     inputSourceRef := None;
     processorRef := None;
     inputAnalyserRef := None;
     outputAnalyserRef := None;
     streamRef := None;
     sessionPromiseRef := None;
     nextStartTimeRef := Num 0;
     sourcesRef := ∅ |}.

Definition initial_world : world :=
  {| calls := []; stopped := ∅; fresh := 0; reactions := [] |}.

Definition setConnectionState (c : ConnectionState) (s : state) : state :=
  {| connectionState := c;
     transcriptions := transcriptions s;
     error := error s;
     inputContextRef := inputContextRef s;
     outputContextRef := outputContextRef s;
     inputSourceRef := inputSourceRef s;
     processorRef := processorRef s;
     inputAnalyserRef := inputAnalyserRef s;
     outputAnalyserRef := outputAnalyserRef s;
     streamRef := streamRef s;
     sessionPromiseRef := sessionPromiseRef s;
     nextStartTimeRef := nextStartTimeRef s;
     sourcesRef := sourcesRef s |}.

Definition setError (e : option string) (s : state) : state :=
  {| connectionState := connectionState s;
     transcriptions := transcriptions s;
     error := e;
     inputContextRef := inputContextRef s;
     outputContextRef := outputContextRef s;
     inputSourceRef := inputSourceRef s;
     processorRef := processorRef s;
     inputAnalyserRef := inputAnalyserRef s;
     outputAnalyserRef := outputAnalyserRef s;
     streamRef := streamRef s;
     sessionPromiseRef := sessionPromiseRef s;
     nextStartTimeRef := nextStartTimeRef s;
     sourcesRef := sourcesRef s |}.

Definition setTranscriptions (t : list TranscriptionItem) (s : state) : state :=
  {| connectionState := connectionState s;
     transcriptions := t;
     error := error s;
     inputContextRef := inputContextRef s;
     outputContextRef := outputContextRef s;
     inputSourceRef := inputSourceRef s;
     processorRef := processorRef s;
     inputAnalyserRef := inputAnalyserRef s;
     outputAnalyserRef := outputAnalyserRef s;
     streamRef := streamRef s;
     sessionPromiseRef := sessionPromiseRef s;
     nextStartTimeRef := nextStartTimeRef s;
     sourcesRef := sourcesRef s |}.

(** Assignments to the refs. *)
Definition set_inputContextRef (v : option handle) (s : state) : state :=
  {| connectionState := connectionState s;
     transcriptions := transcriptions s;
     error := error s;
     inputContextRef := v;
     outputContextRef := outputContextRef s;
     inputSourceRef := inputSourceRef s;
     processorRef := processorRef s;
     inputAnalyserRef := inputAnalyserRef s;
     outputAnalyserRef := outputAnalyserRef s;
     streamRef := streamRef s;
     sessionPromiseRef := sessionPromiseRef s;
     nextStartTimeRef := nextStartTimeRef s;
     sourcesRef := sourcesRef s |}.

Definition set_outputContextRef (v : option handle) (s : state) : state :=
  {| connectionState := connectionState s;
     transcriptions := transcriptions s;
     error := error s;
     inputContextRef := inputContextRef s;
     outputContextRef := v;
     inputSourceRef := inputSourceRef s;
     processorRef := processorRef s;
     inputAnalyserRef := inputAnalyserRef s;
     outputAnalyserRef := outputAnalyserRef s;
     streamRef := streamRef s;
     sessionPromiseRef := sessionPromiseRef s;
     nextStartTimeRef := nextStartTimeRef s;
     sourcesRef := sourcesRef s |}.

Definition set_inputSourceRef (v : option handle) (s : state) : state :=
  {| connectionState := connectionState s;
     transcriptions := transcriptions s;
     error := error s;
     inputContextRef := inputContextRef s;
     outputContextRef := outputContextRef s;
     inputSourceRef := v;
     processorRef := processorRef s;
     inputAnalyserRef := inputAnalyserRef s;
     outputAnalyserRef := outputAnalyserRef s;
     streamRef := streamRef s;
     sessionPromiseRef := sessionPromiseRef s;
     nextStartTimeRef := nextStartTimeRef s;
     sourcesRef := sourcesRef s |}.

Definition set_processorRef (v : option handle) (s : state) : state :=
  {| connectionState := connectionState s;
     transcriptions := transcriptions s;
     error := error s;
     inputContextRef := inputContextRef s;
     outputContextRef := outputContextRef s;
     inputSourceRef := inputSourceRef s;
     processorRef := v;
     inputAnalyserRef := inputAnalyserRef s;
     outputAnalyserRef := outputAnalyserRef s;
     streamRef := streamRef s;
     sessionPromiseRef := sessionPromiseRef s;
     nextStartTimeRef := nextStartTimeRef s;
     sourcesRef := sourcesRef s |}.

Definition set_inputAnalyserRef (v : option handle) (s : state) : state :=
  {| connectionState := connectionState s;
     transcriptions := transcriptions s;
     error := error s;
     inputContextRef := inputContextRef s;
     outputContextRef := outputContextRef s;
     inputSourceRef := inputSourceRef s;
     processorRef := processorRef s;
     inputAnalyserRef := v;
     outputAnalyserRef := outputAnalyserRef s;
     streamRef := streamRef s;
     sessionPromiseRef := sessionPromiseRef s;
     nextStartTimeRef := nextStartTimeRef s;
     sourcesRef := sourcesRef s |}.

Definition set_outputAnalyserRef (v : option handle) (s : state) : state :=
  {| connectionState := connectionState s;
     transcriptions := transcriptions s;
     error := error s;
     inputContextRef := inputContextRef s;
     outputContextRef := outputContextRef s;
     inputSourceRef := inputSourceRef s;
     processorRef := processorRef s;
     inputAnalyserRef := inputAnalyserRef s;
     outputAnalyserRef := v;
     streamRef := streamRef s;
     sessionPromiseRef := sessionPromiseRef s;
     nextStartTimeRef := nextStartTimeRef s;
     sourcesRef := sourcesRef s |}.

Definition set_streamRef (v : option handle) (s : state) : state :=
  {| connectionState := connectionState s;
     transcriptions := transcriptions s;
     error := error s;
     inputContextRef := inputContextRef s;
     outputContextRef := outputContextRef s;
     inputSourceRef := inputSourceRef s;
     processorRef := processorRef s;
     inputAnalyserRef := inputAnalyserRef s;
     outputAnalyserRef := outputAnalyserRef s;
     streamRef := v;
     sessionPromiseRef := sessionPromiseRef s;
     nextStartTimeRef := nextStartTimeRef s;
     sourcesRef := sourcesRef s |}.

Definition set_sessionPromiseRef (v : option handle) (s : state) : state :=
  {| connectionState := connectionState s;
     transcriptions := transcriptions s;
     error := error s;
     inputContextRef := inputContextRef s;
     outputContextRef := outputContextRef s;
     inputSourceRef := inputSourceRef s;
     processorRef := processorRef s;
     inputAnalyserRef := inputAnalyserRef s;
     outputAnalyserRef := outputAnalyserRef s;
     streamRef := streamRef s;
     sessionPromiseRef := v;
     nextStartTimeRef := nextStartTimeRef s;
     sourcesRef := sourcesRef s |}.

Definition set_nextStartTimeRef (v : number) (s : state) : state :=
  {| connectionState := connectionState s;
     transcriptions := transcriptions s;
     error := error s;
     inputContextRef := inputContextRef s;
     outputContextRef := outputContextRef s;
     inputSourceRef := inputSourceRef s;
     processorRef := processorRef s;
     inputAnalyserRef := inputAnalyserRef s;
     outputAnalyserRef := outputAnalyserRef s;
     streamRef := streamRef s;
     sessionPromiseRef := sessionPromiseRef s;
     nextStartTimeRef := v;
     sourcesRef := sourcesRef s |}.

Definition set_sourcesRef (v : gset handle) (s : state) : state :=
  {| connectionState := connectionState s;
     transcriptions := transcriptions s;
     error := error s;
     inputContextRef := inputContextRef s;
     outputContextRef := outputContextRef s;
     inputSourceRef := inputSourceRef s;
     processorRef := processorRef s;
     inputAnalyserRef := inputAnalyserRef s;
     outputAnalyserRef := outputAnalyserRef s;
     streamRef := streamRef s;
     sessionPromiseRef := sessionPromiseRef s;
     nextStartTimeRef := nextStartTimeRef s;
     sourcesRef := v |}.

Definition log (c : call) (w : world) : world :=
  {| calls := calls w ++ [c]; stopped := stopped w; fresh := fresh w;
     reactions := reactions w |}.

(** The outcome of a call that can throw. *)
Inductive result (A : Type) : Type :=
  | Ok (a : A)
  | Throw (e : exn).
Arguments Ok {A} a.
Arguments Throw {A} e.

(** [source.stop()]: an [InvalidStateError] on a source that has already
    been stopped, otherwise the source is stopped. *)
Definition InvalidStateError : exn := mkExn (Some "InvalidStateError"%string).

Definition source_stop (source : handle) (w : world) : result world :=
  if decide (source ∈ stopped w) then Throw InvalidStateError
  else Ok {| calls := calls w ++ [SourceStop source];
             stopped := {[source]} ∪ stopped w;
             fresh := fresh w;
             reactions := reactions w |}.

(** [sourcesRef.current.forEach(source => { try { source.stop(); }
    catch(e) {} })]; the order in which the set is visited is not
    represented. *)
Definition stop_each (sources : gset handle) (w : world) : world :=
  foldr
    (fun source w =>
       match source_stop source w with
       | Ok w' => w'
       | Throw _ => w
       end)
    w (elements sources).

(** A message of the remote session, after the optional chains of
    [onmessage]: the inline audio of the first part of the model turn, the
    text of the two transcriptions and the interruption flag. *)
Record LiveServerMessage : Type := mkMessage {
  inlineData_data : option (list Z);
  inputTranscription : option string;
  outputTranscription : option string;
  interrupted : bool
}.

(** What one run of [onmessage] reads from its environment: the clock of the
    output context, and for each transcription it may add the identifier
    built from [Date.now()] and [Math.random()] and the time stamp. *)
Record readings : Type := mkReadings {
  currentTime : Q;
  input_stamp : string * Z;
  output_stamp : string * Z
}.

Definition addTranscription (stamp : string * Z) (text : string)
    (isUser isComplete : bool) (s : state) : state :=
  let prev := transcriptions s in
  match last prev with
  | Some l =>
      if Bool.eqb (Types.isUser l) isUser && negb (Types.isComplete l)
      then
        setTranscriptions
          (removelast prev
             ++ [mkTranscriptionItem (Types.id l)
                   (String.append (Types.text l) text) (Types.isUser l)
                   (Types.timestamp l) isComplete]) s
      else
        setTranscriptions
          (prev ++ [mkTranscriptionItem (fst stamp) text isUser (snd stamp)
                      isComplete]) s
  | None =>
      setTranscriptions
        (prev ++ [mkTranscriptionItem (fst stamp) text isUser (snd stamp)
                    isComplete]) s
  end.

(** Truthiness of a string. *)
Definition truthy (str : list Z) : bool :=
  match str with
  | [] => false
  | _ => true
  end.

(** [source.start(when)]: a TypeError for a time that is not finite and a
    RangeError for a negative one ([None]); otherwise the source is
    scheduled at [when]. *)
Definition start_time (when : number) : option Q :=
  match when with
  | Num q => if Qlt_le_dec q 0 then None else Some q
  | _ => None
  end.

(** [ctx.createBufferSource()]: a new object. *)
Definition createBufferSource (w : world) : handle * world :=
  (fresh w,
   {| calls := calls w; stopped := stopped w; fresh := S (fresh w);
      reactions := reactions w |}).

(** The [try] block of [onmessage] for an audio payload, with its [catch]
    (which only logs): the cursor is raised to the clock before the payload
    is decoded, so a payload that fails to decode leaves the raised cursor
    behind.  The new buffer source is then started at the cursor, the cursor
    advanced by the duration of the buffer (a binary64 sum) and the source
    added to the live set; when [start] throws, the cursor and the live set
    stay as they are. *)
Definition play_audio (base64Audio : list Z) (now : Q) (ws : world * state)
  : world * state :=
  let (w, s) := ws in
  let s1 :=
    set_nextStartTimeRef (Math_max (nextStartTimeRef s) (Num now)) s in
  match decodeAudioData base64Audio 24000 with
  | Some audioBuffer =>
      let (source, w0) := createBufferSource w in
      match start_time (nextStartTimeRef s1) with
      | Some when =>
          let w1 := log (SourceStart source now when audioBuffer) w0 in
          let s2 :=
            set_nextStartTimeRef
              (add (nextStartTimeRef s1) (duration audioBuffer)) s1 in
          (w1, set_sourcesRef ({[source]} ∪ sourcesRef s2) s2)
      | None => (w0, s1)
      end
  | None => (w, s1)
  end.

(** The branch of [onmessage] for the interruption flag. *)
Definition interrupt (ws : world * state) : world * state :=
  let (w, s) := ws in
  let w1 := stop_each (sourcesRef s) w in
  (w1, set_nextStartTimeRef (Num 0) (set_sourcesRef ∅ s)).

(** [onmessage]: the audio output of the message, then its transcriptions,
    then the interruption flag. *)
Definition handle_audio (r : readings) (message : LiveServerMessage)
    (ws : world * state) : world * state :=
  match inlineData_data message, outputContextRef (snd ws) with
  | Some base64Audio, Some _ =>
      if truthy base64Audio then play_audio base64Audio (currentTime r) ws
      else ws
  | _, _ => ws
  end.

Definition handle_transcriptions (r : readings) (message : LiveServerMessage)
    (ws : world * state) : world * state :=
  let ws1 :=
    match inputTranscription message with
    | Some t => (fst ws, addTranscription (input_stamp r) t true true (snd ws))
    | None => ws
    end in
  match outputTranscription message with
  | Some t =>
      (fst ws1, addTranscription (output_stamp r) t false true (snd ws1))
  | None => ws1
  end.

Definition onmessage (r : readings) (message : LiveServerMessage)
    (ws : world * state) : world * state :=
  let ws1 := handle_audio r message ws in
  let ws2 := handle_transcriptions r message ws1 in
  if interrupted message then interrupt ws2 else ws2.

(** The capture callback [onaudioprocess]: the block of samples is resampled
    from the rate of the input context to 16000 Hz and packed; the result
    is what is handed to [sendRealtimeInput]. *)
Definition onaudioprocess (currentInputSampleRate : Q)
    (inputData : list number) : option Blob :=
  let downsampledData :=
    downsampleBuffer inputData currentInputSampleRate 16000 in
  createPcmBlob downsampledData 16000.

(** The listener of the [ended] event of a buffer source. *)
Definition onended (source : handle) (ws : world * state) : world * state :=
  (fst ws, set_sourcesRef (sourcesRef (snd ws) ∖ {[source]}) (snd ws)).

(** [disconnect].  Each resource is released when its ref is set, and the
    ref is cleared.  For the session, [disconnect] only registers a
    continuation on the session promise; the continuation runs later, once
    [disconnect] has returned, if the promise is fulfilled
    ([session_reaction]).  [track.stop()], [node.disconnect()] and
    [context.close()] do not throw; [source.stop()] sits in a [try] block
    with an empty [catch]. *)
Definition release (ref : option handle) (c : handle → call) (w : world)
  : world :=
  match ref with
  | Some h => log (c h) w
  | None => w
  end.

Definition then_close (ref : option handle) (w : world) : world :=
  match ref with
  | Some promise =>
      {| calls := calls w ++ [PromiseThen promise];
         stopped := stopped w;
         fresh := fresh w;
         reactions := reactions w ++ [promise] |}
  | None => w
  end.

Definition disconnect (ws : world * state) : world * state :=
  let (w, s) := ws in
  (* Close session *)
  let w := then_close (sessionPromiseRef s) w in
  let s := set_sessionPromiseRef None s in
  (* Stop tracks *)
  let w := release (streamRef s) TracksStop w in
  let s := set_streamRef None s in
  (* Disconnect nodes *)
  let w := release (processorRef s) NodeDisconnect w in
  let s := set_processorRef None s in
  let w := release (inputSourceRef s) NodeDisconnect w in
  let s := set_inputSourceRef None s in
  (* Close contexts *)
  let w := release (inputContextRef s) ContextClose w in
  let s := set_inputContextRef None s in
  let w := release (outputContextRef s) ContextClose w in
  let s := set_outputContextRef None s in
  (* Stop all playing audio *)
  let w := stop_each (sourcesRef s) w in
  let s := set_sourcesRef ∅ s in
  let s := set_nextStartTimeRef (Num 0) s in
  (w, setConnectionState DISCONNECTED s).

(** The continuation that [disconnect] registered first, run by the job
    queue: [outcome] is how its session promise settled.  A fulfilled
    promise hands over the session, which is closed (an exception of
    [close] is swallowed); a rejected promise skips the continuation. *)
Definition session_reaction (outcome : result handle) (ws : world * state)
  : world * state :=
  let (w, s) := ws in
  match reactions w with
  | [] => ws
  | _ :: rest =>
      let w1 :=
        {| calls := calls w; stopped := stopped w; fresh := fresh w;
           reactions := rest |} in
      match outcome with
      | Ok session => (log (SessionClose session) w1, s)
      | Throw _ => (w1, s)
      end
  end.

(** All resource refs are null, the cursor is 0, the live set is empty. *)
Definition torn_down (s : state) : Prop :=
  sessionPromiseRef s = None ∧ streamRef s = None ∧ processorRef s = None
  ∧ inputSourceRef s = None ∧ inputContextRef s = None
  ∧ outputContextRef s = None
  ∧ nextStartTimeRef s = Num 0 ∧ sourcesRef s = ∅.

(** The other callbacks of the session.  [onopen] creates the media stream
    source and the script processor when the input context and the stream
    are there. *)
Definition onopen (ws : world * state) : world * state :=
  let (w, s) := ws in
  let s := setConnectionState CONNECTED s in
  match inputContextRef s, streamRef s with
  | Some _, Some _ =>
      let source := fresh w in
      let processor := S (fresh w) in
      ({| calls := calls w; stopped := stopped w; fresh := S (S (fresh w));
          reactions := reactions w |},
       set_processorRef (Some processor)
         (set_inputSourceRef (Some source) s))
  | _, _ => (w, s)
  end.

Definition onclose (ws : world * state) : world * state :=
  (fst ws, setConnectionState DISCONNECTED (snd ws)).

Definition onerror (err : string) (ws : world * state) : world * state :=
  let s := setError (Some (String.append "Connection error: " err)) (snd ws) in
  let s := setConnectionState ERROR s in
  disconnect (fst ws, s).

(** [connect].  The platform and SDK calls of its [try] block either return
    or throw; [setup] gives the outcome of each, in the order of the
    block. *)
Record setup : Type := mkSetup {
  new_inputContext : result handle;
  new_outputContext : result handle;
  input_createAnalyser : result handle;
  output_createAnalyser : result handle;
  getUserMedia : result handle;
  new_GoogleGenAI : result unit;
  live_connect : result handle
}.

(** A setup in which every call returns. *)
Definition setup_ok : setup :=
  {| new_inputContext := Ok 0%nat;
     new_outputContext := Ok 1%nat;
     input_createAnalyser := Ok 2%nat;
     output_createAnalyser := Ok 3%nat;
     getUserMedia := Ok 4%nat;
     new_GoogleGenAI := Ok tt;
     live_connect := Ok 5%nat |}.

(** Computations of the [try] block: the refs assigned before a throw keep
    their values. *)
Definition M (A : Type) : Type := state → state * result A.

#[local] Instance M_ret : MRet M := fun A a s => (s, Ok a).

#[local] Instance M_bind : MBind M := fun A B f m s =>
  match m s with
  | (s', Ok a) => f a s'
  | (s', Throw e) => (s', Throw e)
  end.

Definition call_platform {A : Type} (r : result A) : M A := fun s => (s, r).

Definition assign (f : state → state) : M unit := fun s => (f s, Ok tt).

Definition connect_try (p : setup) : M unit :=
  assign (setConnectionState CONNECTING);;
  assign (setError None);;
  ic ← call_platform (new_inputContext p);
  assign (set_inputContextRef (Some ic));;
  oc ← call_platform (new_outputContext p);
  assign (set_outputContextRef (Some oc));;
  ia ← call_platform (input_createAnalyser p);
  assign (set_inputAnalyserRef (Some ia));;
  oa ← call_platform (output_createAnalyser p);
  assign (set_outputAnalyserRef (Some oa));;
  stream ← call_platform (getUserMedia p);
  assign (set_streamRef (Some stream));;
  call_platform (new_GoogleGenAI p);;
  session ← call_platform (live_connect p);
  assign (set_sessionPromiseRef (Some session)).

(** [e.message || "Failed to connect."] *)
Definition message_or_default (e : exn) : string :=
  match message e with
  | Some EmptyString | None => "Failed to connect."
  | Some m => m
  end.

Definition connect (API_KEY : string) (p : setup) (s : state) : state :=
  match API_KEY with
  | EmptyString => setError (Some "API Key is missing."%string) s
  | _ =>
      match connect_try p s with
      | (s', Ok _) => s'
      | (s', Throw e) =>
          setConnectionState ERROR
            (setError (Some (message_or_default e)) s')
      end
  end.

(** The first call of the [try] block that throws, if one does. *)
Definition setup_exception (p : setup) : option exn :=
  match new_inputContext p with Throw e => Some e | Ok _ =>
  match new_outputContext p with Throw e => Some e | Ok _ =>
  match input_createAnalyser p with Throw e => Some e | Ok _ =>
  match output_createAnalyser p with Throw e => Some e | Ok _ =>
  match getUserMedia p with Throw e => Some e | Ok _ =>
  match new_GoogleGenAI p with Throw e => Some e | Ok _ =>
  match live_connect p with Throw e => Some e | Ok _ => None
  end end end end end end end.

(** A setup failure of [connect]: the credential is missing or a call of
    the [try] block throws. *)
Definition setup_fails (API_KEY : string) (p : setup) : bool :=
  match API_KEY with
  | EmptyString => true
  | _ => bool_decide (is_Some (setup_exception p))
  end.

(** A message that enqueues a buffer and carries no interruption. *)
Definition enqueues (message : LiveServerMessage) : bool :=
  negb (interrupted message)
  && match inlineData_data message with
     | Some base64Audio =>
         truthy base64Audio
         && bool_decide (is_Some (decodeAudioData base64Audio 24000))
     | None => false
     end.

(** The entries put on the output timeline: for every [source.start] call,
    oldest first, the clock reading of the handler, the start time and the
    buffer. *)
Record entry : Type := mkEntry {
  arrival : Q;
  start : Q;
  buffer : AudioBuffer
}.

Definition entry_of_call (c : call) : option entry :=
  match c with
  | SourceStart _ at_time when b => Some (mkEntry at_time when b)
  | _ => None
  end.

Definition timeline (w : world) : list entry :=
  omap entry_of_call (calls w).

(** The time a buffer takes to play: its frames at its sample rate, as a
    rational number of seconds. *)
Definition seconds (b : AudioBuffer) : Q :=
  (inject_Z (Z.of_nat (length (channelData b))) / sampleRate b)%Q.

(** The end of an entry on the timeline. *)
Definition finish (e : entry) : Q := (start e + seconds (buffer e))%Q.

(** The buffer a message hands to the scheduler: its payload, when there is
    one that is not empty and decodes. *)
Definition payload (message : LiveServerMessage) : option AudioBuffer :=
  match inlineData_data message with
  | Some base64Audio =>
      if truthy base64Audio then decodeAudioData base64Audio 24000 else None
  | None => None
  end.

(** The time [t] is no later than [x], but for the rounding of the two
    binary64 operations that computed [x]: a relative [2^-51]. *)
Definition by_rounding (t x : Q) : Prop := (t <= (1 + pow2 (-51)) * x)%Q.

(** The clock readings of the handlers of a run that begins at clock time
    [T]: binary64 values that never decrease. *)
Fixpoint clock_ok (T : Q) (events : list (readings * LiveServerMessage))
  : Prop :=
  match events with
  | [] => True
  | rm :: rest =>
      (T <= currentTime (fst rm))%Q ∧ binary64 (currentTime (fst rm))
      ∧ clock_ok (currentTime (fst rm)) rest
  end.

(** A run of [onmessage] over a sequence of messages. *)
Definition run (events : list (readings * LiveServerMessage))
    (ws : world * state) : world * state :=
  fold_left (fun ws rm => onmessage (fst rm) (snd rm) ws) events ws.

End UseTranslator.


(** ** App.tsx *)

Module App.
Import Types UseTranslator.

Definition isConnected (s : state) : bool :=
  match connectionState s with
  | CONNECTED => true
  | _ => false
  end.

Definition isConnecting (s : state) : bool :=
  match connectionState s with
  | CONNECTING => true
  | _ => false
  end.

(** [handleToggle]: stop when connected, start otherwise.  [API_KEY] is the
    constant of the hook's module and [p] the outcomes of the platform calls
    should [connect] run. *)
Definition handleToggle (API_KEY : string) (p : setup) (ws : world * state)
  : world * state :=
  if isConnected (snd ws) then disconnect ws
  else (fst ws, connect API_KEY p (snd ws)).

(** A click on the connection button, which is disabled while connecting. *)
Definition click (API_KEY : string) (p : setup) (ws : world * state)
  : world * state :=
  if isConnecting (snd ws) then ws else handleToggle API_KEY p ws.

End App.

(** ** Runs of the hook

    What can happen to a mounted hook, one callback at a time: the user
    clicks the button, a caller invokes [connect] or [disconnect] directly,
    the session reports that it opened, delivers a message, closes or
    fails, a buffer source ends, the component unmounts (the clean-up of
    the effect calls [disconnect]), a continuation that [disconnect]
    registered on a session promise has its turn. *)

Module Session.
Import JS Types UseTranslator.

Inductive event : Type :=
  | EvClick (p : setup)
  | EvConnect (p : setup)
  | EvDisconnect
  | EvOpen
  | EvMessage (r : readings) (m : LiveServerMessage)
  | EvEnded (source : nat)
  | EvClose
  | EvError (err : string)
  | EvUnmount
  | EvReaction (outcome : result nat).

Definition step (API_KEY : string) (ws : world * state) (e : event)
  : world * state :=
  match e with
  | EvClick p => App.click API_KEY p ws
  | EvConnect p => (fst ws, connect API_KEY p (snd ws))
  | EvDisconnect => disconnect ws
  | EvOpen => onopen ws
  | EvMessage r m => onmessage r m ws
  | EvEnded source => onended source ws
  | EvClose => onclose ws
  | EvError err => onerror err ws
  | EvUnmount => disconnect ws
  | EvReaction outcome => session_reaction outcome ws
  end.

Definition steps (API_KEY : string) (events : list event)
    (ws : world * state) : world * state :=
  fold_left (step API_KEY) events ws.

(** The buffer sources started so far, oldest first. *)
Definition started_source (c : call) : option nat :=
  match c with
  | SourceStart source _ _ _ => Some source
  | _ => None
  end.

Definition started (w : world) : list nat := omap started_source (calls w).

(** The items one message adds to the transcript log: its input
    transcription, then its output transcription, each complete and stamped
    by the handler. *)
Definition transcript_items (r : readings) (m : LiveServerMessage)
  : list TranscriptionItem :=
  match inputTranscription m with
  | Some t =>
      [mkTranscriptionItem (fst (input_stamp r)) t true (snd (input_stamp r))
         true]
  | None => []
  end
  ++ match outputTranscription m with
     | Some t =>
         [mkTranscriptionItem (fst (output_stamp r)) t false
            (snd (output_stamp r)) true]
     | None => []
     end.

Definition event_items (e : event) : list TranscriptionItem :=
  match e with
  | EvMessage r m => transcript_items r m
  | _ => []
  end.

(** The calls [disconnect] makes for the refs that are set, in the order of
    its body: the registration of the continuation on the session promise,
    then the releases. *)
Definition release_calls (s : state) : list call :=
  match sessionPromiseRef s with Some h => [PromiseThen h] | None => [] end
  ++ match streamRef s with Some h => [TracksStop h] | None => [] end
  ++ match processorRef s with Some h => [NodeDisconnect h] | None => [] end
  ++ match inputSourceRef s with Some h => [NodeDisconnect h] | None => [] end
  ++ match inputContextRef s with Some h => [ContextClose h] | None => [] end
  ++ match outputContextRef s with Some h => [ContextClose h] | None => [] end.

(** What holds of the scheduler in every state a run can reach: the cursor is
    not negative; the sources started have pairwise distinct handles, all
    below the next fresh handle; only started sources are stopped; a live
    source has been started and has not been stopped; and sources are live
    only while an output context is referenced. *)
Definition scheduler_ok (ws : world * state) : Prop :=
  nonneg (nextStartTimeRef (snd ws))
  ∧ NoDup (started (fst ws))
  ∧ (∀ source, source ∈ started (fst ws) → (source < fresh (fst ws))%nat)
  ∧ (∀ source, source ∈ stopped (fst ws) → source ∈ started (fst ws))
  ∧ (∀ source, source ∈ sourcesRef (snd ws) →
       source ∈ started (fst ws) ∧ source ∉ stopped (fst ws))
  ∧ (sourcesRef (snd ws) ≠ ∅ → is_Some (outputContextRef (snd ws))).

(** *** Playback within one output context

    The events that touch the scheduler while one output context lives: a
    message arrives, or a buffer source fires its [ended] event at some
    clock time. *)
Inductive playback_event : Type :=
  | Arrives (r : readings) (m : LiveServerMessage)
  | Ends (source : nat) (at_time : Q).

Definition play_step (ws : world * state) (e : playback_event)
  : world * state :=
  match e with
  | Arrives r m => onmessage r m ws
  | Ends source _ => onended source ws
  end.

Definition play (events : list playback_event) (ws : world * state)
  : world * state :=
  fold_left play_step events ws.

(** The source of a [start] call has played to its end by the time [t]. *)
Definition played_by (source : nat) (t : Q) (c : call) : Prop :=
  match c with
  | SourceStart source' _ when b =>
      source' = source → (when + seconds b <= t)%Q
  | _ => True
  end.

(** What the platform guarantees of the events of a run that begins at
    clock time [T]: the clock never runs backwards, the readings the
    handlers take of it are binary64 values, and a source fires [ended]
    only once it has been stopped or has played to its end. *)
Fixpoint well_timed (T : Q) (ws : world * state)
    (events : list playback_event) : Prop :=
  match events with
  | [] => True
  | Arrives r m :: rest =>
      (T <= currentTime r)%Q
      ∧ binary64 (currentTime r)
      ∧ well_timed (currentTime r) (onmessage r m ws) rest
  | Ends source t :: rest =>
      (T <= t)%Q
      ∧ (source ∈ stopped (fst ws)
         ∨ Forall (played_by source t) (calls (fst ws)))
      ∧ well_timed t (onended source ws) rest
  end.

(** In a list of calls, a source started earlier either has been stopped
    or ends, but for the rounding of the cursor, before every source started
    later begins: its end [when1 + seconds b1], taken exactly, is at most
    [(1 + 2^-51) * when2]. *)
Definition no_overlap (stopped_sources : gset nat) (l : list call) : Prop :=
  ∀ (j k : nat) source1 a1 when1 b1 source2 a2 when2 b2,
    (j < k)%nat →
    l !! j = Some (SourceStart source1 a1 when1 b1) →
    l !! k = Some (SourceStart source2 a2 when2 b2) →
    source1 ∈ stopped_sources ∨ by_rounding (when1 + seconds b1) when2.

(** The end [t] of a live source against the cursor. *)
Definition ends_by_cursor (t : Q) (cursor : number) : Prop :=
  match cursor with
  | Num c => by_rounding t c
  | PosInf => True
  | _ => False
  end.

(** The state of one started source, at clock time [T]: stopped, or live and
    ending by the cursor, or no longer live and ended by [T]. *)
Definition settled (T : Q) (ws : world * state) (c : call) : Prop :=
  match c with
  | SourceStart source _ when b =>
      source ∈ stopped (fst ws)
      ∨ (source ∈ sourcesRef (snd ws)
         ∧ ends_by_cursor (when + seconds b) (nextStartTimeRef (snd ws)))
      ∨ ((source ∉ sourcesRef (snd ws)) ∧ (when + seconds b <= T)%Q)
  | _ => True
  end.

(** The invariant of a run of playback events that began with the calls
    [old] made: the cursor holds a number of the language, the calls made
    since are [new], every source started since is settled, and the starts
    made since do not overlap. *)
Definition playing (old : list call) (T : Q) (ws : world * state) : Prop :=
  is_number (nextStartTimeRef (snd ws))
  ∧ ∃ new, calls (fst ws) = old ++ new
      ∧ Forall (settled T ws) new
      ∧ no_overlap (stopped (fst ws)) new.

End Session.

(** * Properties *)

Import JS AudioUtils Types UseTranslator.

(** ** Rounding to binary64 *)

(** *** Powers of two *)

Lemma pow2_pos (e : Z) : (0 < pow2 e)%Q.
Proof. apply Qpower_0_lt. reflexivity. Qed.

Lemma pow2_add (a b : Z) : (pow2 (a + b) == pow2 a * pow2 b)%Q.
Proof. apply Qpower_plus. discriminate. Qed.

Lemma pow2_le (a b : Z) : a <= b → (pow2 a <= pow2 b)%Q.
Proof. intros H. apply Qpower_le_compat_l; [exact H|discriminate]. Qed.

Lemma pow2_lt (a b : Z) : a < b → (pow2 a < pow2 b)%Q.
Proof. intros H. apply Qpower_lt_compat_l; [exact H|reflexivity]. Qed.

Lemma pow2_lt_inv (a b : Z) : (pow2 a < pow2 b)%Q → a < b.
Proof. intros H. apply (Qpower_lt_compat_l_inv 2); [exact H|reflexivity]. Qed.

Lemma pow2_Z (e : Z) : 0 <= e → (pow2 e == inject_Z (2 ^ e))%Q.
Proof. intros H. unfold pow2. rewrite Zpower_Qpower by exact H. reflexivity. Qed.

Lemma pow2_sub (a b : Z) : (pow2 (a - b) == pow2 a / pow2 b)%Q.
Proof.
  pose proof (pow2_pos b) as Hb.
  assert (pow2 a == pow2 (a - b) * pow2 b)%Q as H.
  { rewrite <- pow2_add. replace (a - b + b) with a by ring. reflexivity. }
  rewrite H. field. intros H0. rewrite H0 in Hb. discriminate.
Qed.

Lemma pow2_succ (a : Z) : (pow2 (a + 1) == 2 * pow2 a)%Q.
Proof. rewrite pow2_add. change (pow2 1) with 2%Q. ring. Qed.

(** *** The binary exponent *)

Lemma mag_spec (q : Q) :
  (0 < q)%Q → (pow2 (mag q - 1) <= q)%Q ∧ (q < pow2 (mag q))%Q.
Proof.
  intros Hq. destruct q as [a b]. unfold mag. cbn [Qnum Qden].
  assert (0 < a) as Ha.
  { unfold Qlt in Hq. cbn in Hq. lia. }
  set (la := Z.log2 a). set (lb := Z.log2 (Z.pos b)).
  assert (2 ^ la <= a < 2 ^ (la + 1)) as Hla.
  { replace (la + 1) with (Z.succ la) by lia. apply Z.log2_spec. exact Ha. }
  assert (2 ^ lb <= Z.pos b < 2 ^ (lb + 1)) as Hlb.
  { replace (lb + 1) with (Z.succ lb) by lia. apply Z.log2_spec. lia. }
  assert (0 <= la) as Hla0 by apply Z.log2_nonneg.
  assert (0 <= lb) as Hlb0 by apply Z.log2_nonneg.
  assert (a # b == inject_Z a / inject_Z (Z.pos b))%Q as Hab.
  { rewrite (Qmake_Qdiv a b). reflexivity. }
  assert (0 < inject_Z (Z.pos b))%Q as Hb0.
  { change 0%Q with (inject_Z 0). rewrite <- Zlt_Qlt. lia. }
  (* pow2 (la - lb - 1) < a/b < pow2 (la - lb + 1) *)
  assert (pow2 (la - lb - 1) < a # b)%Q as Hlow.
  { rewrite Hab. apply Qlt_shift_div_l; [exact Hb0|].
    apply Qlt_le_trans with (pow2 (la - lb - 1) * pow2 (lb + 1))%Q.
    - apply Qmult_lt_l; [apply pow2_pos|].
      rewrite pow2_Z by lia. rewrite <- Zlt_Qlt. lia.
    - rewrite <- pow2_add. replace (la - lb - 1 + (lb + 1)) with la by ring.
      rewrite pow2_Z by lia. rewrite <- Zle_Qle. lia. }
  assert (a # b < pow2 (la - lb + 1))%Q as Hhigh.
  { rewrite Hab. apply Qlt_shift_div_r; [exact Hb0|].
    apply Qlt_le_trans with (pow2 (la - lb + 1) * pow2 lb)%Q.
    - rewrite <- pow2_add. replace (la - lb + 1 + lb) with (la + 1) by ring.
      rewrite pow2_Z by lia. rewrite <- Zlt_Qlt. lia.
    - apply Qmult_le_l; [apply pow2_pos|].
      rewrite pow2_Z by lia. rewrite <- Zle_Qle. lia. }
  destruct (Qle_bool (pow2 (la - lb)) (a # b)) eqn:Hc.
  - apply Qle_bool_iff in Hc. replace (la - lb + 1 - 1) with (la - lb) by ring.
    split; assumption.
  - assert (¬ (pow2 (la - lb) <= a # b)%Q) as Hn.
    { intros H. apply Qle_bool_iff in H. congruence. }
    apply Qnot_le_lt in Hn. split; [apply Qlt_le_weak|]; assumption.
Qed.

Lemma mag_unique (q : Q) (e : Z) :
  (pow2 (e - 1) <= q)%Q → (q < pow2 e)%Q → mag q = e.
Proof.
  intros H1 H2.
  assert (0 < q)%Q as Hq.
  { apply Qlt_le_trans with (pow2 (e - 1)); [apply pow2_pos|exact H1]. }
  destruct (mag_spec q Hq) as [H3 H4].
  assert (mag q - 1 < e).
  { apply pow2_lt_inv. eapply Qle_lt_trans; eassumption. }
  assert (e - 1 < mag q).
  { apply pow2_lt_inv. eapply Qle_lt_trans; eassumption. }
  lia.
Qed.

Lemma mag_comp (p q : Q) : (0 < p)%Q → (p == q)%Q → mag p = mag q.
Proof.
  intros Hp Hpq. destruct (mag_spec p Hp) as [H1 H2].
  symmetry. apply mag_unique; rewrite <- Hpq; assumption.
Qed.

Lemma mag_le (p q : Q) : (0 < p)%Q → (p <= q)%Q → mag p <= mag q.
Proof.
  intros Hp Hpq.
  assert (0 < q)%Q as Hq by (eapply Qlt_le_trans; eassumption).
  destruct (mag_spec p Hp) as [H1 _]. destruct (mag_spec q Hq) as [_ H2].
  assert (mag p - 1 < mag q); [|lia].
  apply pow2_lt_inv. eapply Qle_lt_trans; [exact H1|].
  eapply Qle_lt_trans; eassumption.
Qed.

(** *** Rounding to the nearest integer, ties to even *)

Ltac Qcompare_prop H :=
  match type of H with
  | (_ ?= _)%Q = Eq => apply Qeq_alt in H
  | (_ ?= _)%Q = Lt => apply Qlt_alt in H
  | (_ ?= _)%Q = Gt => apply Qgt_alt in H
  end.

Lemma rne_cases (q : Q) :
  (rne q = Qfloor q ∧ (q - inject_Z (Qfloor q) <= 1 # 2)%Q)
  ∨ (rne q = Qfloor q + 1 ∧ (1 # 2 <= q - inject_Z (Qfloor q))%Q).
Proof.
  unfold rne.
  destruct (q - inject_Z (Qfloor q) ?= 1 # 2)%Q eqn:Hc.
  - apply Qeq_alt in Hc. destruct (Z.even (Qfloor q)).
    + left. split; [reflexivity|]. rewrite Hc. apply Qle_refl.
    + right. split; [reflexivity|]. rewrite Hc. apply Qle_refl.
  - apply Qlt_alt in Hc. left. split; [reflexivity|]. apply Qlt_le_weak, Hc.
  - apply Qgt_alt in Hc. right. split; [reflexivity|]. apply Qlt_le_weak, Hc.
Qed.

Lemma Qfloor_bounds (q : Q) :
  (inject_Z (Qfloor q) <= q)%Q ∧ (q < inject_Z (Qfloor q) + 1)%Q.
Proof.
  split; [apply Qfloor_le|].
  pose proof (Qlt_floor q) as H. rewrite inject_Z_plus in H. exact H.
Qed.

Lemma rne_error (q : Q) :
  (q - (1 # 2) <= inject_Z (rne q))%Q ∧ (inject_Z (rne q) <= q + (1 # 2))%Q.
Proof.
  destruct (Qfloor_bounds q) as [H1 H2].
  destruct (rne_cases q) as [[-> H]|[-> H]]; rewrite ?inject_Z_plus;
    change (inject_Z 1) with 1%Q; split; lra.
Qed.

Lemma rne_comp (p q : Q) : (p == q)%Q → rne p = rne q.
Proof.
  intros H. unfold rne. rewrite (Qfloor_comp _ _ H).
  assert (p - inject_Z (Qfloor q) == q - inject_Z (Qfloor q))%Q as H'
    by (rewrite H; reflexivity).
  rewrite (Qcompare_comp _ _ H' (1 # 2) (1 # 2)); reflexivity.
Qed.

Lemma rne_Z (z : Z) : rne (inject_Z z) = z.
Proof.
  unfold rne. rewrite Qfloor_Z.
  assert ((inject_Z z - inject_Z z ?= 1 # 2)%Q = Lt) as ->; [|reflexivity].
  apply Qlt_alt. unfold Qminus. rewrite Qplus_opp_r. reflexivity.
Qed.

Lemma rne_le (p q : Q) : (p <= q)%Q → rne p <= rne q.
Proof.
  intros H. pose proof (Qfloor_resp_le _ _ H) as Hf.
  destruct (Qfloor_bounds p) as [Hp1 Hp2].
  destruct (Qfloor_bounds q) as [Hq1 Hq2].
  destruct (Z.eq_dec (Qfloor p) (Qfloor q)) as [Heq|Hne].
  - unfold rne. rewrite Heq in *.
    destruct (p - inject_Z (Qfloor q) ?= 1 # 2)%Q eqn:Hcp;
      destruct (q - inject_Z (Qfloor q) ?= 1 # 2)%Q eqn:Hcq;
      Qcompare_prop Hcp; Qcompare_prop Hcq;
      destruct (Z.even (Qfloor q)); try lia; exfalso; lra.
  - assert (Qfloor p + 1 <= Qfloor q) by lia.
    destruct (rne_cases p) as [[-> _]|[-> _]];
      destruct (rne_cases q) as [[-> _]|[-> _]]; lia.
Qed.

(** *** Rounding a positive rational to binary64 *)

Lemma ulp_exponent_comp (p q : Q) :
  (0 < p)%Q → (p == q)%Q → ulp_exponent p = ulp_exponent q.
Proof. intros Hp H. unfold ulp_exponent. rewrite (mag_comp p q Hp H). reflexivity. Qed.

Lemma ulp_exponent_le (p q : Q) :
  (0 < p)%Q → (p <= q)%Q → ulp_exponent p <= ulp_exponent q.
Proof.
  intros Hp H. unfold ulp_exponent. pose proof (mag_le p q Hp H). lia.
Qed.

Lemma round_pos_comp (p q : Q) :
  (0 < p)%Q → (p == q)%Q → (round_pos p == round_pos q)%Q.
Proof.
  intros Hp H. unfold round_pos. rewrite (ulp_exponent_comp p q Hp H).
  assert (p / pow2 (ulp_exponent q) == q / pow2 (ulp_exponent q))%Q as H'
    by (rewrite H; reflexivity).
  rewrite (rne_comp _ _ H'). reflexivity.
Qed.

(** The scaled value and its rounding. *)
Lemma Qdiv_pow2_le (p q : Q) (e : Z) :
  (p <= q)%Q → (p / pow2 e <= q / pow2 e)%Q.
Proof.
  intros H. unfold Qdiv. apply Qmult_le_compat_r; [exact H|].
  apply Qlt_le_weak, Qinv_lt_0_compat, pow2_pos.
Qed.

Lemma Qdiv_pow2 (a e : Z) : (pow2 a / pow2 e == pow2 (a - e))%Q.
Proof. rewrite pow2_sub. reflexivity. Qed.

Lemma Qdiv_mul_pow2 (q : Q) (e : Z) : (q / pow2 e * pow2 e == q)%Q.
Proof.
  pose proof (pow2_pos e) as H. field. intros H0. rewrite H0 in H. discriminate.
Qed.

Lemma round_pos_nonneg (q : Q) : (0 < q)%Q → (0 <= round_pos q)%Q.
Proof.
  intros Hq. unfold round_pos. apply Qmult_le_0_compat.
  - change 0%Q with (inject_Z 0). rewrite <- Zle_Qle.
    rewrite <- (rne_Z 0). apply rne_le. change (inject_Z 0) with 0%Q.
    apply Qle_shift_div_l; [apply pow2_pos|]. rewrite Qmult_0_l.
    apply Qlt_le_weak, Hq.
  - apply Qlt_le_weak, pow2_pos.
Qed.

(** Rounding never crosses a power of two that is a multiple of the unit
    in the last place. *)
Lemma round_pos_le_pow2 (q : Q) (a : Z) :
  (0 < q)%Q → (q <= pow2 a)%Q → ulp_exponent q <= a →
  (round_pos q <= pow2 a)%Q.
Proof.
  intros Hq H He. unfold round_pos. set (e := ulp_exponent q) in *.
  assert (rne (q / pow2 e) <= 2 ^ (a - e)) as Hr.
  { rewrite <- (rne_Z (2 ^ (a - e))). apply rne_le.
    rewrite <- pow2_Z by lia. rewrite <- Qdiv_pow2.
    apply Qdiv_pow2_le, H. }
  rewrite Zle_Qle in Hr. rewrite <- pow2_Z in Hr by lia.
  apply Qle_trans with (pow2 (a - e) * pow2 e)%Q.
  - apply Qmult_le_compat_r; [exact Hr|apply Qlt_le_weak, pow2_pos].
  - rewrite <- pow2_add. replace (a - e + e) with a by ring. apply Qle_refl.
Qed.

Lemma round_pos_ge_pow2 (q : Q) (a : Z) :
  (pow2 a <= q)%Q → ulp_exponent q <= a →
  (pow2 a <= round_pos q)%Q.
Proof.
  intros H He. unfold round_pos. set (e := ulp_exponent q) in *.
  assert (2 ^ (a - e) <= rne (q / pow2 e)) as Hr.
  { rewrite <- (rne_Z (2 ^ (a - e))). apply rne_le.
    rewrite <- pow2_Z by lia. rewrite <- Qdiv_pow2.
    apply Qdiv_pow2_le, H. }
  rewrite Zle_Qle in Hr. rewrite <- pow2_Z in Hr by lia.
  apply Qle_trans with (pow2 (a - e) * pow2 e)%Q.
  - rewrite <- pow2_add. replace (a - e + e) with a by ring. apply Qle_refl.
  - apply Qmult_le_compat_r; [exact Hr|apply Qlt_le_weak, pow2_pos].
Qed.

Lemma round_pos_le (p q : Q) :
  (0 < p)%Q → (p <= q)%Q → (round_pos p <= round_pos q)%Q.
Proof.
  intros Hp H.
  assert (0 < q)%Q as Hq by (eapply Qlt_le_trans; eassumption).
  pose proof (ulp_exponent_le p q Hp H) as He.
  destruct (Z.eq_dec (ulp_exponent p) (ulp_exponent q)) as [Heq|Hne].
  - unfold round_pos. rewrite Heq.
    apply Qmult_le_compat_r; [|apply Qlt_le_weak, pow2_pos].
    rewrite <- Zle_Qle. apply rne_le, Qdiv_pow2_le, H.
  - assert (ulp_exponent p < ulp_exponent q) as Hlt by lia.
    assert (ulp_exponent q = mag q - 53) as Hq53.
    { unfold ulp_exponent in *. lia. }
    assert (mag p < mag q) as Hmag.
    { unfold ulp_exponent in *. lia. }
    destruct (mag_spec p Hp) as [_ Hp2]. destruct (mag_spec q Hq) as [Hq1 _].
    apply Qle_trans with (pow2 (mag q - 1)).
    + apply round_pos_le_pow2; [exact Hp| |lia].
      apply Qle_trans with (pow2 (mag p)); [apply Qlt_le_weak, Hp2|].
      apply pow2_le. lia.
    + apply round_pos_ge_pow2; [exact Hq1|lia].
Qed.

(** Values with at most 53 significant bits and an exponent from -1074 are
    not changed. *)
Lemma round_pos_exact (q : Q) (m e0 : Z) :
  (q == inject_Z m * pow2 e0)%Q → 0 < m < 2 ^ 53 → -1074 <= e0 →
  (round_pos q == q)%Q.
Proof.
  intros Hq Hm He0.
  assert (0 < q)%Q as Hpos.
  { rewrite Hq. apply Qmult_lt_0_compat; [|apply pow2_pos].
    change 0%Q with (inject_Z 0). rewrite <- Zlt_Qlt. lia. }
  assert (q < pow2 (53 + e0))%Q as Hup.
  { rewrite Hq, pow2_add. apply Qmult_lt_compat_r; [apply pow2_pos|].
    rewrite pow2_Z by lia. rewrite <- Zlt_Qlt. lia. }
  destruct (mag_spec q Hpos) as [Hm1 _].
  assert (mag q - 1 < 53 + e0) as Hmag.
  { apply pow2_lt_inv. eapply Qle_lt_trans; eassumption. }
  unfold round_pos. set (e := ulp_exponent q).
  assert (e <= e0) as Hee by (unfold e, ulp_exponent; lia).
  assert (q / pow2 e == inject_Z (m * 2 ^ (e0 - e)))%Q as Hs.
  { rewrite inject_Z_mult, <- pow2_Z by lia.
    rewrite Hq, pow2_sub. pose proof (pow2_pos e) as H.
    field. intros H0. rewrite H0 in H. discriminate. }
  rewrite (rne_comp _ _ Hs), rne_Z, <- Hs. apply Qdiv_mul_pow2.
Qed.

(** The rounding error is at most half a unit in the last place. *)
Lemma round_pos_error_ulp (q : Q) :
  (q - pow2 (ulp_exponent q - 1) <= round_pos q)%Q
  ∧ (round_pos q <= q + pow2 (ulp_exponent q - 1))%Q.
Proof.
  unfold round_pos. set (e := ulp_exponent q).
  destruct (rne_error (q / pow2 e)) as [H1 H2].
  pose proof (pow2_pos e) as He.
  assert (pow2 (e - 1) == (1 # 2) * pow2 e)%Q as Hh.
  { rewrite pow2_sub. change (pow2 1) with 2%Q. field. }
  rewrite Hh. rewrite <- (Qdiv_mul_pow2 q e) at 1 4.
  split.
  - setoid_replace (q / pow2 e * pow2 e - (1 # 2) * pow2 e)%Q
      with ((q / pow2 e - (1 # 2)) * pow2 e)%Q using relation Qeq by ring.
    apply Qmult_le_compat_r; [exact H1|apply Qlt_le_weak, He].
  - setoid_replace (q / pow2 e * pow2 e + (1 # 2) * pow2 e)%Q
      with ((q / pow2 e + (1 # 2)) * pow2 e)%Q using relation Qeq by ring.
    apply Qmult_le_compat_r; [exact H2|apply Qlt_le_weak, He].
Qed.

(** In the normal range the relative error is at most 2^-53. *)
Lemma round_pos_error (q : Q) :
  (pow2 (-1022) <= q)%Q →
  (q * (1 - pow2 (-53)) <= round_pos q)%Q
  ∧ (round_pos q <= q * (1 + pow2 (-53)))%Q.
Proof.
  intros Hn.
  assert (0 < q)%Q as Hq.
  { eapply Qlt_le_trans; [apply (pow2_pos (-1022))|exact Hn]. }
  destruct (mag_spec q Hq) as [Hm1 Hm2].
  assert (-1022 < mag q) as Hmag.
  { apply pow2_lt_inv. eapply Qle_lt_trans; eassumption. }
  assert (ulp_exponent q = mag q - 53) as He by (unfold ulp_exponent; lia).
  destruct (round_pos_error_ulp q) as [H1 H2]. rewrite He in H1, H2.
  assert (pow2 (mag q - 53 - 1) <= q * pow2 (-53))%Q as Hu.
  { replace (mag q - 53 - 1) with (mag q - 1 + -53) by ring.
    rewrite pow2_add. apply Qmult_le_compat_r; [exact Hm1|].
    apply Qlt_le_weak, pow2_pos. }
  split.
  - eapply Qle_trans; [|exact H1].
    setoid_replace (q * (1 - pow2 (-53)))%Q with (q - q * pow2 (-53))%Q
      using relation Qeq by ring.
    lra.
  - eapply Qle_trans; [exact H2|].
    setoid_replace (q * (1 + pow2 (-53)))%Q with (q + q * pow2 (-53))%Q
      using relation Qeq by ring.
    lra.
Qed.

(** *** The binary64 value of a rational *)

Lemma sign_of_pos (q : Q) : (0 < q)%Q → sign_of q = Gt.
Proof. intros H. unfold sign_of. apply Qgt_alt. exact H. Qed.

Lemma sign_of_zero (q : Q) : (q == 0)%Q → sign_of q = Eq.
Proof. intros H. unfold sign_of. apply Qeq_alt. exact H. Qed.

Lemma fl64_zero (q : Q) : (q == 0)%Q → fl64 q = Num 0.
Proof. intros H. unfold fl64. rewrite (sign_of_zero q H). reflexivity. Qed.

Lemma fl64_pos (q : Q) :
  (0 < q)%Q →
  (fl64 q = PosInf ∧ (pow2 1024 <= round_pos q)%Q)
  ∨ (fl64 q = Num (round_pos q) ∧ (round_pos q < pow2 1024)%Q).
Proof.
  intros H. unfold fl64. rewrite (sign_of_pos q H).
  destruct (Qle_bool (pow2 1024) (round_pos q)) eqn:Hc.
  - left. split; [reflexivity|]. apply Qle_bool_iff, Hc.
  - right. split; [reflexivity|]. apply Qnot_le_lt. intros Hle.
    apply Qle_bool_iff in Hle. congruence.
Qed.

Lemma fl64_nonneg (q : Q) :
  (0 <= q)%Q → fl64 q = PosInf ∨ ∃ v, fl64 q = Num v ∧ (0 <= v)%Q.
Proof.
  intros H. destruct (Qlt_le_dec 0 q) as [Hq|Hq].
  - destruct (fl64_pos q Hq) as [[-> _]|[-> _]]; [left; reflexivity|].
    right. eexists. split; [reflexivity|]. apply round_pos_nonneg, Hq.
  - right. exists 0%Q. split; [|apply Qle_refl]. apply fl64_zero. lra.
Qed.

Lemma fl64_mono (p q v : Q) :
  (0 <= p)%Q → (p <= q)%Q → fl64 q = Num v →
  ∃ v', fl64 p = Num v' ∧ (0 <= v')%Q ∧ (v' <= v)%Q.
Proof.
  intros Hp H Hv. destruct (Qlt_le_dec 0 p) as [Hp0|Hp0].
  - assert (0 < q)%Q as Hq0 by lra.
    pose proof (round_pos_le p q Hp0 H) as Hle.
    destruct (fl64_pos q Hq0) as [[Hq1 _]|[Hq1 Hq2]]; [congruence|].
    rewrite Hq1 in Hv. injection Hv as <-.
    destruct (fl64_pos p Hp0) as [[_ Hp2]|[Hp1 _]]; [exfalso; lra|].
    exists (round_pos p). split; [exact Hp1|]. split; [|exact Hle].
    apply round_pos_nonneg, Hp0.
  - exists 0%Q. split; [apply fl64_zero; lra|]. split; [apply Qle_refl|].
    destruct (fl64_nonneg q) as [Hi|(v' & Hv' & H0)]; [lra|congruence|].
    congruence.
Qed.

Lemma fl64_exact (q : Q) (m e0 : Z) :
  (q == inject_Z m * pow2 e0)%Q → 0 <= m < 2 ^ 53 → -1074 <= e0 →
  (q < pow2 1024)%Q →
  ∃ v, fl64 q = Num v ∧ (v == q)%Q.
Proof.
  intros Hq Hm He0 Hlt. destruct (Z.eq_dec m 0) as [->|Hm0].
  - exists 0%Q. assert (q == 0)%Q as H0 by (rewrite Hq; ring).
    split; [apply fl64_zero, H0|]. rewrite H0. reflexivity.
  - pose proof (round_pos_exact q m e0 Hq ltac:(lia) He0) as Hr.
    assert (0 < q)%Q as Hpos.
    { rewrite Hq. apply Qmult_lt_0_compat; [|apply pow2_pos].
      change 0%Q with (inject_Z 0). rewrite <- Zlt_Qlt. lia. }
    destruct (fl64_pos q Hpos) as [[_ H]|[H _]].
    + exfalso. rewrite Hr in H. lra.
    + exists (round_pos q). split; assumption.
Qed.

(** Integers below 2^53 and their halves are binary64 values. *)
Lemma fl64_Z (z : Z) :
  0 <= z < 2 ^ 53 → ∃ v, fl64 (inject_Z z) = Num v ∧ (v == inject_Z z)%Q.
Proof.
  intros Hz. apply (fl64_exact _ z 0); [|exact Hz|lia|].
  - change (pow2 0) with 1%Q. ring.
  - apply Qlt_trans with (pow2 53); [|apply pow2_lt; lia].
    rewrite pow2_Z by lia. rewrite <- Zlt_Qlt. lia.
Qed.

Lemma fl64_dyadic (z k : Z) :
  0 <= z < 2 ^ 53 → 0 <= k <= 1074 →
  ∃ v, fl64 (inject_Z z / pow2 k) = Num v ∧ (v == inject_Z z / pow2 k)%Q.
Proof.
  intros Hz Hk. apply (fl64_exact _ z (- k)); [|exact Hz|lia|].
  - replace (- k) with (0 - k) by ring. rewrite pow2_sub.
    change (pow2 0) with 1%Q. pose proof (pow2_pos k) as H.
    field. intros H0. rewrite H0 in H. discriminate.
  - apply Qle_lt_trans with (inject_Z z).
    + apply Qle_shift_div_r; [apply pow2_pos|].
      assert (0 <= inject_Z z)%Q as H0.
      { change 0%Q with (inject_Z 0). rewrite <- Zle_Qle. lia. }
      assert (1 <= pow2 k)%Q as H1.
      { change 1%Q with (pow2 0). apply pow2_le. lia. }
      nra.
    + apply Qlt_trans with (pow2 53); [|apply pow2_lt; lia].
      rewrite pow2_Z by lia. rewrite <- Zlt_Qlt. lia.
Qed.

Lemma fl64_error (q v : Q) :
  (pow2 (-1022) <= q)%Q → fl64 q = Num v →
  (q * (1 - pow2 (-53)) <= v)%Q ∧ (v <= q * (1 + pow2 (-53)))%Q.
Proof.
  intros Hn Hv.
  assert (0 < q)%Q as Hq.
  { eapply Qlt_le_trans; [apply (pow2_pos (-1022))|exact Hn]. }
  destruct (fl64_pos q Hq) as [[H _]|[H _]]; [congruence|].
  rewrite H in Hv. injection Hv as <-. apply round_pos_error, Hn.
Qed.

(** A rational at or above (at or below) a binary64 value rounds to a value
    at or above (at or below) it. *)
Lemma fl64_ge (q d v dv : Q) :
  (0 <= d)%Q → (d <= q)%Q → fl64 d = Num dv → fl64 q = Num v → (dv <= v)%Q.
Proof.
  intros Hd H Hdv Hv. destruct (fl64_mono d q v Hd H Hv) as (v' & Hv' & _ & Hle).
  congruence.
Qed.

Lemma fl64_le (q d dv : Q) :
  (0 <= q)%Q → (q <= d)%Q → fl64 d = Num dv →
  ∃ v, fl64 q = Num v ∧ (0 <= v)%Q ∧ (v <= dv)%Q.
Proof. intros Hq H Hdv. exact (fl64_mono q d dv Hq H Hdv). Qed.


(** A positive rational that overflows is above [2^1023]. *)
Lemma fl64_overflow (q : Q) :
  (0 < q)%Q → fl64 q = PosInf → (pow2 1023 < q)%Q.
Proof.
  intros Hq H. apply Qnot_le_lt. intros Hle.
  destruct (fl64_exact (pow2 1023) 1 1023) as (dv & Hdv & _);
    [ring|lia|lia|apply pow2_lt; lia|].
  destruct (fl64_le q (pow2 1023) dv ltac:(lra) Hle Hdv) as (v & Hv & _).
  congruence.
Qed.

(** *** The results of rounding are binary64 values *)

Lemma round_pos_representable (q : Q) :
  (0 < q)%Q →
  ∃ m e0, (round_pos q == inject_Z m * pow2 e0)%Q
    ∧ 0 <= m < 2 ^ 53 ∧ -1074 <= e0.
Proof.
  intros Hq. unfold round_pos. set (e := ulp_exponent q).
  destruct (mag_spec q Hq) as [_ Hm].
  assert (-1074 <= e) as He by (unfold e, ulp_exponent; lia).
  assert (0 <= rne (q / pow2 e)) as H0.
  { rewrite <- (rne_Z 0). apply rne_le. change (inject_Z 0) with 0%Q.
    apply Qle_shift_div_l; [apply pow2_pos|]. lra. }
  assert (rne (q / pow2 e) <= 2 ^ 53) as H53.
  { rewrite <- (rne_Z (2 ^ 53)). apply rne_le.
    rewrite <- pow2_Z by lia.
    apply Qle_shift_div_r; [apply pow2_pos|]. rewrite <- pow2_add.
    apply Qle_trans with (pow2 (mag q)); [lra|].
    apply pow2_le. unfold e, ulp_exponent. lia. }
  destruct (Z.eq_dec (rne (q / pow2 e)) (2 ^ 53)) as [Heq|Hne].
  - exists 1, (53 + e). split; [|lia].
    rewrite Heq, pow2_add, <- pow2_Z by lia. ring.
  - exists (rne (q / pow2 e)), e. split; [reflexivity|lia].
Qed.

Lemma fl64_binary64 (q v : Q) : (0 <= q)%Q → fl64 q = Num v → binary64 v.
Proof.
  intros Hq Hv. destruct (Qlt_le_dec 0 q) as [Hpos|Hz].
  - destruct (fl64_pos q Hpos) as [[H _]|[H Hlt]]; [congruence|].
    rewrite H in Hv. injection Hv as <-.
    destruct (round_pos_representable q Hpos) as (m & e0 & E & Hm & He0).
    exact (fl64_exact _ m e0 E Hm He0 Hlt).
  - rewrite fl64_zero in Hv by lra. injection Hv as <-.
    exists 0%Q. split; [reflexivity|reflexivity].
Qed.

Lemma binary64_comp (p q : Q) : (0 <= p)%Q → p == q → binary64 p → binary64 q.
Proof.
  intros Hp E (v & Hv & Ev). pose proof (fl64_binary64 p v Hp Hv) as Hb.
  destruct (Qlt_le_dec 0 p) as [Hpos|Hz].
  - destruct (fl64_pos p Hpos) as [[H _]|[H Hlt]]; [congruence|].
    assert (0 < q)%Q as Hqpos by lra.
    pose proof (round_pos_comp p q Hpos E) as Er.
    destruct (fl64_pos q Hqpos) as [[_ H']|[H' _]].
    + exfalso. rewrite <- Er in H'. lra.
    + exists (round_pos q). split; [exact H'|].
      rewrite H in Hv. injection Hv as <-. rewrite <- Er, Ev. exact E.
  - exists 0%Q. split; [apply fl64_zero; lra|]. lra.
Qed.

(** Adding a non-negative rational to a binary64 value and rounding does
    not go below the value. *)
Lemma fl64_add_ge (x d c : Q) :
  (0 <= x)%Q → (0 <= d)%Q → binary64 x → fl64 (x + d) = Num c → (x <= c)%Q.
Proof.
  intros Hx Hd (v & Hv & Ev) Hc.
  pose proof (fl64_ge (x + d) x c v Hx ltac:(lra) Hv Hc). lra.
Qed.

(** ** Loops over typed arrays *)

Section Loops.
Context {A B : Type}.

(** A loop that stores [g] of the [i]-th source element at index [i] of an
    array of the same length computes [map g]. *)
Lemma fold_store_prefix (g : A → B) (d : B) (src : list A) (k : nat) :
  (k ≤ length src)%nat →
  fold_left
    (fun (acc : list B) (i : nat) =>
       match src !! i with
       | Some a => <[i := g a]> acc
       | None => acc
       end)
    (seq 0 k) (replicate (length src) d)
  = map g (take k src) ++ replicate (length src - k) d.
Proof.
  induction k as [|k IH]; intros Hk.
  - simpl. rewrite Nat.sub_0_r. reflexivity.
  - rewrite seq_S, fold_left_app, IH by lia. simpl.
    destruct (lookup_lt_is_Some_2 src k) as [a Ha]; [lia|].
    rewrite Ha, (take_S_r _ _ _ Ha), map_app, <- app_assoc. simpl.
    rewrite insert_app_r_alt; rewrite length_map, length_take; [|lia].
    replace (k - k `min` length src)%nat with 0%nat by lia.
    replace (length src - k)%nat with (S (length src - S k)) by lia.
    reflexivity.
Qed.

Lemma fold_store_map (g : A → B) (d : B) (src : list A) :
  fold_left
    (fun (acc : list B) (i : nat) =>
       match src !! i with
       | Some a => <[i := g a]> acc
       | None => acc
       end)
    (seq 0 (length src)) (replicate (length src) d)
  = map g src.
Proof.
  rewrite fold_store_prefix by lia.
  rewrite firstn_all, Nat.sub_diag. apply app_nil_r.
Qed.

(** A loop that appends [g] of every source element computes [map g]. *)
Lemma fold_append_prefix (g : A → B) (src : list A) (k : nat) :
  (k ≤ length src)%nat →
  fold_left
    (fun (acc : list B) (i : nat) =>
       match src !! i with
       | Some a => acc ++ [g a]
       | None => acc
       end)
    (seq 0 k) []
  = map g (take k src).
Proof.
  induction k as [|k IH]; intros Hk; [reflexivity|].
  rewrite seq_S, fold_left_app, IH by lia. simpl.
  destruct (lookup_lt_is_Some_2 src k) as [a Ha]; [lia|].
  rewrite Ha, (take_S_r _ _ _ Ha), map_app. reflexivity.
Qed.
End Loops.

(** ** The bytes written by the forward conversion *)

Lemma pcm_prefix (arr : Float32Array) (k : nat) :
  (k ≤ length arr)%nat →
  fold_left (pcm_step arr) (seq 0 k) (new_ArrayBuffer (length arr * 2))
  = flat_map (fun x => int16_bytes (ToInt16 (pcm_value x))) (take k arr)
    ++ replicate ((length arr - k) * 2) 0.
Proof.
  unfold new_ArrayBuffer.
  induction k as [|k IH]; intros Hk.
  - simpl. rewrite Nat.sub_0_r. reflexivity.
  - rewrite seq_S, fold_left_app, IH by lia. cbn [fold_left Nat.add].
    destruct (lookup_lt_is_Some_2 arr k) as [x Hx]; [lia|].
    unfold pcm_step. rewrite Hx, (take_S_r _ _ _ Hx), flat_map_app.
    rewrite <- app_assoc. cbn [flat_map]. rewrite app_nil_r.
    set (pre := flat_map _ (take k arr)).
    assert (Hlen : length pre = (k * 2)%nat).
    { subst pre. rewrite (flat_map_constant_length (c := 2%nat)) by done.
      rewrite length_take. lia. }
    unfold setInt16.
    replace ((length arr - k) * 2)%nat with (S (S ((length arr - S k) * 2)))
      by lia.
    simpl replicate.
    rewrite (insert_app_r_alt pre _ (k * 2)) by lia.
    rewrite (insert_app_r_alt pre _ (S (k * 2))) by lia.
    rewrite Hlen, Nat.sub_diag.
    replace (S (k * 2) - k * 2)%nat with 1%nat by lia.
    reflexivity.
Qed.

Lemma float32To16BitPCM_bytes (arr : Float32Array) :
  float32To16BitPCM arr
  = flat_map (fun x => int16_bytes (ToInt16 (pcm_value x))) arr.
Proof.
  unfold float32To16BitPCM. rewrite pcm_prefix by lia.
  rewrite firstn_all, Nat.sub_diag. apply app_nil_r.
Qed.

Lemma wrap16_range (z : Z) : -32768 <= wrap16 z <= 32767.
Proof.
  unfold wrap16. pose proof (Z.mod_pos_bound z 65536 eq_refl).
  destruct (32768 <=? z mod 65536) eqn:E; lia.
Qed.

Lemma wrap16_small (z : Z) : -32768 <= z <= 32767 → wrap16 z = z.
Proof.
  intros Hz. unfold wrap16.
  destruct (32768 <=? z mod 65536) eqn:E;
    [apply Z.leb_le in E | apply Z.leb_gt in E];
    Z.div_mod_to_equations; lia.
Qed.

Lemma int16_of_bytes_int16_bytes (v : Z) :
  -32768 <= v <= 32767 →
  int16_of_bytes (v mod 65536 mod 256) (v mod 65536 / 256) = v.
Proof.
  intros Hv. unfold int16_of_bytes.
  replace (v mod 65536 mod 256 + 256 * (v mod 65536 / 256)) with (v mod 65536)
    by (Z.div_mod_to_equations; lia).
  unfold wrap16. rewrite Z.mod_mod by lia.
  destruct (32768 <=? v mod 65536) eqn:E;
    [apply Z.leb_le in E | apply Z.leb_gt in E];
    Z.div_mod_to_equations; lia.
Qed.

Lemma ToInt16_range (x : number) : -32768 <= ToInt16 x <= 32767.
Proof. destruct x; simpl; try lia. apply wrap16_range. Qed.

Lemma Int16Array_flat_map (f : number → Z) (arr : list number) :
  (∀ x, -32768 <= f x <= 32767) →
  Int16Array (flat_map (fun x => int16_bytes (f x)) arr) = Some (map f arr).
Proof.
  intros Hf. induction arr as [|x arr IH]; [reflexivity|].
  cbn [flat_map int16_bytes app map Int16Array].
  rewrite IH, int16_of_bytes_int16_bytes by apply Hf. reflexivity.
Qed.

(** ** Sample-format conversion *)

Lemma Qtrunc_nonneg (q : Q) : (0 <= q)%Q → Qtrunc q = Qfloor q.
Proof.
  destruct q as [n d]. unfold Qle, Qtrunc, Qfloor. simpl. intros Hn.
  apply Z.quot_div_nonneg; lia.
Qed.

Lemma Qtrunc_nonpos (q : Q) : (q <= 0)%Q → Qtrunc q = Qceiling q.
Proof.
  destruct q as [n d]. unfold Qle, Qtrunc, Qceiling, Qfloor. simpl. intros Hn.
  rewrite <- (Z.opp_involutive n) at 1.
  rewrite Z.quot_opp_l by lia. f_equal.
  apply Z.quot_div_nonneg; lia.
Qed.

(** Truncation moves toward zero by less than one. *)
Lemma Qtrunc_pos_bounds (q : Q) :
  (0 <= q)%Q → (inject_Z (Qtrunc q) <= q < inject_Z (Qtrunc q) + 1)%Q.
Proof.
  intros Hq. rewrite Qtrunc_nonneg by assumption. split.
  - apply Qfloor_le.
  - pose proof (Qlt_floor q) as H. rewrite inject_Z_plus in H. exact H.
Qed.

Lemma Qtrunc_neg_bounds (q : Q) :
  (q <= 0)%Q → (inject_Z (Qtrunc q) - 1 < q <= inject_Z (Qtrunc q))%Q.
Proof.
  intros Hq. rewrite Qtrunc_nonpos by assumption. split.
  - pose proof (Qceiling_lt q) as H.
    unfold Z.sub in H. rewrite inject_Z_plus in H. exact H.
  - apply Qle_ceiling.
Qed.

Lemma inject_Z_le_inv (a b : Z) : (inject_Z a <= inject_Z b)%Q → a <= b.
Proof. rewrite <- Zle_Qle. trivial. Qed.

Lemma inject_Z_lt_inv (a b : Z) : (inject_Z a < inject_Z b)%Q → a < b.
Proof. rewrite <- Zlt_Qlt. trivial. Qed.

Lemma Qtrunc_comp (p q : Q) : p == q → Qtrunc p = Qtrunc q.
Proof.
  intros E. destruct (Qlt_le_dec p 0) as [Hp|Hp].
  - rewrite !Qtrunc_nonpos by lra. unfold Qceiling. now rewrite E.
  - rewrite !Qtrunc_nonneg by lra. now rewrite E.
Qed.

(** An integer bound on the rational bounds its truncation. *)
Lemma Qtrunc_range (q : Q) (lo hi : Z) :
  lo <= 0 <= hi → (inject_Z lo <= q <= inject_Z hi)%Q →
  lo <= Qtrunc q <= hi.
Proof.
  intros Hz [Hlo Hhi]. destruct (Qlt_le_dec q 0) as [Hq|Hq].
  - destruct (Qtrunc_neg_bounds q) as [H1 H2]; [lra|]. split.
    + apply inject_Z_le_inv. lra.
    + assert (Qtrunc q < 1); [|lia]. apply inject_Z_lt_inv.
      change (inject_Z 1) with 1%Q. lra.
  - destruct (Qtrunc_pos_bounds q) as [H1 H2]; [lra|]. split.
    + assert (-1 < Qtrunc q); [|lia]. apply inject_Z_lt_inv.
      change (inject_Z (-1)) with (-1)%Q. lra.
    + apply inject_Z_le_inv. lra.
Qed.

Lemma lt_Num (x y : Q) :
  lt (Num x) (Num y) = if Qlt_le_dec x y then true else false.
Proof. reflexivity. Qed.

(** The value the code stores is the one the design describes. *)
Lemma ToInt16_pcm_value (x : number) :
  ToInt16 (pcm_value x) = Design.forward x.
Proof.
  unfold pcm_value, Design.forward, Design.clamp.
  destruct x as [q| | |]; try reflexivity.
  unfold Math_min, Math_max. rewrite lt_Num.
  repeat
    (match goal with
     | |- context [Qlt_le_dec ?a ?b] => destruct (Qlt_le_dec a b)
     end; rewrite ?lt_Num; cbn [mul ToInt16]);
    try lra;
    (rewrite wrap16_small;
     [apply Qtrunc_comp; lra
     | apply (Qtrunc_range _ (-32768) 32767); [lia|];
       change (inject_Z (-32768)) with (-32768)%Q;
       change (inject_Z 32767) with 32767%Q; lra]).
Qed.

Lemma forward_range (x : number) : -32768 <= Design.forward x <= 32767.
Proof. rewrite <- ToInt16_pcm_value. apply ToInt16_range. Qed.

Lemma Int16Array_float32To16BitPCM (frame : list number) :
  Int16Array (float32To16BitPCM frame) = Some (map Design.forward frame).
Proof.
  rewrite float32To16BitPCM_bytes.
  rewrite (Int16Array_flat_map (fun x => ToInt16 (pcm_value x)))
    by (intros; apply ToInt16_range).
  f_equal. apply map_ext, ToInt16_pcm_value.
Qed.

(** C3.  The forward conversion stores, for every sample of the frame, the
    16-bit integer obtained by clamping the sample to [-1, 1], scaling it by
    32767 when the clamped value is non-negative and by 32768 when it is
    negative, and truncating; the stored integer always fits 16 bits, the
    sample 1.0 encodes to 32767 and the sample -1.0 to -32768. *)
Theorem forward_conversion_clamp_scale_truncate (frame : list number) :
  Int16Array (float32To16BitPCM frame) = Some (map Design.forward frame)
  ∧ (∀ x, -32768 <= Design.forward x <= 32767)
  ∧ Int16Array (float32To16BitPCM [Num 1]) = Some [32767]
  ∧ Int16Array (float32To16BitPCM [Num (-1)]) = Some [-32768].
Proof.
  split; [apply Int16Array_float32To16BitPCM|].
  split; [apply forward_range|split; reflexivity].
Qed.

(** ** Round trip of the sample format *)

Lemma decode_int16_map (l : list Z) : decode_int16 l = map Design.reverse l.
Proof.
  unfold decode_int16, new_Float32Array.
  apply (fold_store_map (fun z => Num (inject_Z z / 32768)) (Num 0) l).
Qed.

Lemma encode_then_decode_map (frame : list number) :
  Design.encode_then_decode frame
  = Some (map (fun x => Design.reverse (Design.forward x)) frame).
Proof.
  unfold Design.encode_then_decode.
  rewrite Int16Array_float32To16BitPCM.
  simpl. rewrite decode_int16_map, map_map. reflexivity.
Qed.

(** The error of one sample: the decoded value is never farther from zero
    than the sample, and the gap is below 2/32768 (below 1/32768 for a
    sample that is not positive). *)
Lemma roundtrip_sample_error (q : Q) :
  (-1 <= q <= 1)%Q →
  let q' := (inject_Z (Design.forward (Num q)) / 32768)%Q in
  (Qabs (q' - q) < 2 # 32768)%Q ∧ ((q <= 0)%Q → (Qabs (q' - q) < 1 # 32768)%Q).
Proof.
  intros [Hlo Hhi]. unfold Design.forward, Design.clamp, Qdiv.
  change (/ 32768)%Q with (1 # 32768)%Q.
  destruct (Qlt_le_dec q (-1)) as [H|_]; [lra|].
  destruct (Qlt_le_dec 1 q) as [H1|H1].
  - destruct (Qlt_le_dec 1 0) as [H0|_]; [lra|].
    cbv zeta. split; [|intros; lra].
    replace (Qtrunc (1 * 32767)) with 32767 by reflexivity.
    apply Qabs_Qlt_condition. change (inject_Z 32767) with 32767%Q. lra.
  - destruct (Qlt_le_dec q 0) as [Hn|Hn]; cbv zeta.
    + destruct (Qtrunc_neg_bounds (q * 32768)) as [B1 B2]; [lra|].
      set (v := inject_Z (Qtrunc (q * 32768))) in *.
      clearbody v. split; [|intros _]; apply Qabs_Qlt_condition; lra.
    + destruct (Qtrunc_pos_bounds (q * 32767)) as [B1 B2]; [lra|].
      set (v := inject_Z (Qtrunc (q * 32767))) in *. clearbody v.
      split.
      * apply Qabs_Qlt_condition; lra.
      * intros Hz. assert (E : q == 0) by lra.
        apply Qabs_Qlt_condition. lra.
Qed.

(** C2 as stated (every value within 1/32768 of the original) fails: the
    sample 65535/65536 encodes to 32766 and decodes to 32766/32768, which is
    3/65536 away from it. *)
Lemma roundtrip_within_one_step_fails :
  ¬ Design.roundtrip_within (1 # 32768) [Num (65535 # 65536)].
Proof.
  intros [out [Hout H]].
  rewrite encode_then_decode_map in Hout. injection Hout as <-.
  destruct (H 0%nat _ eq_refl) as [q' [Hq' Hle]].
  injection Hq' as <-. vm_compute in Hle. apply Hle. reflexivity.
Qed.

(** C2, amended.  On a frame whose samples lie in [-1, 1], the forward
    conversion followed by the reverse conversion gives a frame of the same
    length in which every value is less than 2/32768 away from the original
    sample, and less than 1/32768 away when the original is not positive. *)
Theorem roundtrip_within_two_steps (frame : list number) :
  forallb Design.in_unit_range frame = true →
  ∃ out, Design.encode_then_decode frame = Some out
    ∧ length out = length frame
    ∧ ∀ (i : nat) (q : Q), frame !! i = Some (Num q) →
        ∃ q', out !! i = Some (Num q')
          ∧ (Qabs (q' - q) < 2 # 32768)%Q
          ∧ ((q <= 0)%Q → (Qabs (q' - q) < 1 # 32768)%Q).
Proof.
  intros Hrange. eexists. split; [apply encode_then_decode_map|].
  split; [apply length_map|].
  intros i q Hi. eexists. split.
  - change (map ?f frame) with (f <$> frame).
    rewrite list_lookup_fmap, Hi. reflexivity.
  - apply roundtrip_sample_error.
    rewrite forallb_forall in Hrange.
    specialize (Hrange (Num q)). simpl in Hrange.
    apply list_elem_of_lookup_2, list_elem_of_In in Hi.
    apply Hrange, andb_prop in Hi. destruct Hi as [H1 H2].
    apply Qle_bool_iff in H1, H2. split; assumption.
Qed.

Lemma roundtrip_within_two_steps_witness :
  ∃ out,
    Design.encode_then_decode [Num (65535 # 65536); Num (-3 # 8); Num 1]
    = Some out
    ∧ length out = 3%nat
    ∧ ∀ (i : nat) (q : Q),
        [Num (65535 # 65536); Num (-3 # 8); Num 1] !! i = Some (Num q) →
        ∃ q', out !! i = Some (Num q')
          ∧ (Qabs (q' - q) < 2 # 32768)%Q
          ∧ ((q <= 0)%Q → (Qabs (q' - q) < 1 # 32768)%Q).
Proof.
  apply (roundtrip_within_two_steps
           [Num (65535 # 65536); Num (-3 # 8); Num 1]).
  reflexivity.
Defined.

(** Outside [-1, 1] the sample is clamped, so the round trip is far from the
    original: 2.0 comes back as 32767/32768. *)
Example roundtrip_of_clipped_sample :
  Design.encode_then_decode [Num 2] = Some [Num (32767 / 32768)].
Proof. reflexivity. Qed.

(** ** Base64: sextets and octets *)

(** Induction on a list three elements at a time. *)
Lemma list_ind3 {A : Type} (P : list A → Prop) :
  P [] → (∀ a, P [a]) → (∀ a b, P [a; b]) →
  (∀ a b c l, P l → P (a :: b :: c :: l)) →
  ∀ l, P l.
Proof.
  intros H0 H1 H2 H3 l.
  assert (H : P l ∧ (∀ a, P (a :: l)) ∧ (∀ a b, P (a :: b :: l))).
  { induction l as [|x l (IH0 & IH1 & IH2)]; [auto|].
    split; [apply IH1|]. split; [intros; apply IH2|].
    intros a b. apply H3, IH0. }
  apply H.
Qed.

Lemma sextet_check_all :
  forallb sextet_check (map Z.of_nat (seq 0 64)) = true.
Proof. vm_compute. reflexivity. Qed.

Lemma sextet_check_ok (s : Z) : is_sextet s → sextet_check s = true.
Proof.
  intros Hs. pose proof sextet_check_all as H.
  rewrite forallb_forall in H. apply H.
  replace s with (Z.of_nat (Z.to_nat s)) by (unfold is_sextet in Hs; lia).
  apply in_map, in_seq. unfold is_sextet in Hs. lia.
Qed.

Lemma sextet_of_char_of_sextet (s : Z) :
  is_sextet s → sextet_of_char (char_of_sextet s) = Some s.
Proof.
  intros Hs. apply sextet_check_ok in Hs. unfold sextet_check in Hs.
  destruct (sextet_of_char (char_of_sextet s)) as [s'|]; [|discriminate].
  apply andb_prop in Hs as [Hs _]. apply andb_prop in Hs as [Hs _].
  apply Z.eqb_eq in Hs. congruence.
Qed.

Lemma char_of_sextet_not_whitespace (s : Z) :
  is_sextet s → is_ascii_whitespace (char_of_sextet s) = false.
Proof.
  intros Hs. apply sextet_check_ok in Hs. unfold sextet_check in Hs.
  destruct (sextet_of_char (char_of_sextet s)); [|discriminate].
  apply andb_prop in Hs as [Hs _]. apply andb_prop in Hs as [_ Hs].
  now apply negb_true_iff in Hs.
Qed.

Lemma char_of_sextet_not_equals (s : Z) :
  is_sextet s → (char_of_sextet s =? 61) = false.
Proof.
  intros Hs. apply sextet_check_ok in Hs. unfold sextet_check in Hs.
  destruct (sextet_of_char (char_of_sextet s)); [|discriminate].
  apply andb_prop in Hs as [_ Hs]. now apply negb_true_iff in Hs.
Qed.

Ltac octets :=
  unfold is_octet, is_sextet in *; Z.div_mod_to_equations; lia.

Lemma sextets_of_octets_range (bs : list Z) :
  Forall is_octet bs → Forall is_sextet (sextets_of_octets bs).
Proof.
  induction bs as [|a|a b|a b c l IH] using list_ind3; intros H;
    cbn [sextets_of_octets];
    repeat match goal with
           | H : Forall _ (_ :: _) |- _ => apply Forall_cons in H as [? H]
           end;
    repeat (apply Forall_cons; split; [octets|]); auto.
Qed.

Lemma octets_of_sextets_of_octets (bs : list Z) :
  Forall is_octet bs → octets_of_sextets (sextets_of_octets bs) = bs.
Proof.
  induction bs as [|a|a b|a b c l IH] using list_ind3; intros H;
    cbn [sextets_of_octets octets_of_sextets];
    repeat match goal with
           | H : Forall _ (_ :: _) |- _ => apply Forall_cons in H as [? H]
           end;
    try rewrite IH by assumption;
    repeat (f_equal; try octets).
Qed.

Lemma length_sextets_mod4 (bs : list Z) :
  (length (sextets_of_octets bs) mod 4 ≠ 1)%nat
  ∧ (length (sextets_of_octets bs ++ padding bs) mod 4 = 0)%nat.
Proof.
  induction bs as [|a|a b|a b c l [IH1 IH2]] using list_ind3;
    cbn [sextets_of_octets padding]; try (split; [discriminate|reflexivity]).
  change (a / 4 :: (a mod 4) * 16 + b / 16 :: (b mod 16) * 4 + c / 64
            :: c mod 64 :: sextets_of_octets l)
    with ([a / 4; (a mod 4) * 16 + b / 16; (b mod 16) * 4 + c / 64; c mod 64]
            ++ sextets_of_octets l).
  rewrite <- app_assoc, !(length_app [_; _; _; _]).
  change (length [_; _; _; _]) with (1 * 4)%nat.
  rewrite !(Nat.add_comm (1 * 4)), !Nat.Div0.mod_add. auto.
Qed.

Lemma padding_cases (bs : list Z) :
  padding bs = [] ∨ padding bs = [61] ∨ padding bs = [61; 61].
Proof. induction bs using list_ind3; cbn [padding]; auto. Qed.

(** ** Base64: the transport round trip *)

Lemma filter_keeps_all {A : Type} (P : A → Prop) `{∀ x, Decision (P x)}
    (l : list A) :
  Forall P l → filter P l = l.
Proof.
  induction 1 as [|x l Hx _ IH]; [reflexivity|].
  rewrite filter_cons_True by assumption. now rewrite IH.
Qed.

Lemma ends_with_equals_chars (S : list Z) :
  Forall is_sextet S → ends_with_equals (map char_of_sextet S) = false.
Proof.
  intros HS. unfold ends_with_equals.
  change (map char_of_sextet S) with (char_of_sextet <$> S).
  rewrite fmap_last. destruct (last S) as [s|] eqn:E; [|reflexivity].
  simpl. apply char_of_sextet_not_equals.
  rewrite Forall_forall in HS. apply HS, list_elem_of_In.
  apply last_Some in E as [l' ->]. apply list_elem_of_In. set_solver.
Qed.

(** Removing the padding of an encoded text leaves the alphabet
    characters. *)
Lemma strip_padding_encoded (bs : list Z) :
  Forall is_octet bs →
  strip_padding (map char_of_sextet (sextets_of_octets bs) ++ padding bs)
  = map char_of_sextet (sextets_of_octets bs).
Proof.
  intros Hbs. unfold strip_padding.
  assert (Hlen : (length (map char_of_sextet (sextets_of_octets bs)
                          ++ padding bs) mod 4 = 0)%nat).
  { rewrite length_app, length_map, <- length_app.
    apply length_sextets_mod4. }
  rewrite Hlen. cbn [Nat.eqb].
  pose proof (ends_with_equals_chars _ (sextets_of_octets_range bs Hbs)) as HX.
  set (X := map char_of_sextet (sextets_of_octets bs)) in *.
  destruct (padding_cases bs) as [-> | [-> | ->]].
  - rewrite app_nil_r, HX. reflexivity.
  - unfold ends_with_equals at 1. rewrite last_snoc. cbn [Z.eqb Pos.eqb].
    rewrite removelast_last, HX. reflexivity.
  - change (X ++ [61; 61]) with (X ++ [61] ++ [61]). rewrite app_assoc.
    unfold ends_with_equals at 1. rewrite last_snoc. cbn [Z.eqb Pos.eqb].
    rewrite removelast_last.
    unfold ends_with_equals at 1. rewrite last_snoc. cbn [Z.eqb Pos.eqb].
    apply removelast_last.
Qed.

Lemma encoded_no_whitespace (bs : list Z) :
  Forall is_octet bs →
  Forall (fun c => is_ascii_whitespace c = false)
    (map char_of_sextet (sextets_of_octets bs) ++ padding bs).
Proof.
  intros Hbs. apply Forall_app. split.
  - apply Forall_map.
    apply (Forall_impl _ _ _ (sextets_of_octets_range bs Hbs)).
    apply char_of_sextet_not_whitespace.
  - destruct (padding_cases bs) as [-> | [-> | ->]];
      repeat constructor.
Qed.

(** [atob] undoes the encoding of a list of octets. *)
Lemma atob_encoded (bs : list Z) :
  Forall is_octet bs →
  atob (map char_of_sextet (sextets_of_octets bs) ++ padding bs) = Some bs.
Proof.
  intros Hbs. unfold atob.
  rewrite (filter_keeps_all _ _ (encoded_no_whitespace bs Hbs)).
  rewrite (strip_padding_encoded bs Hbs).
  rewrite length_map.
  destruct (length (sextets_of_octets bs) mod 4 =? 1)%nat eqn:E.
  { apply Nat.eqb_eq in E. now apply length_sextets_mod4 in E. }
  change (map char_of_sextet ?l) with (char_of_sextet <$> l).
  rewrite mapM_fmap_Forall_Some.
  - simpl. now rewrite octets_of_sextets_of_octets.
  - apply (Forall_impl _ _ _ (sextets_of_octets_range bs Hbs)).
    apply sextet_of_char_of_sextet.
Qed.

Lemma btoa_octets (bs : list Z) :
  Forall is_octet bs →
  btoa bs = Some (map char_of_sextet (sextets_of_octets bs) ++ padding bs).
Proof.
  intros Hbs. unfold btoa.
  replace (forallb (fun c => c <=? 255) bs) with true; [reflexivity|].
  symmetry. apply forallb_forall. intros c Hc.
  rewrite Forall_forall in Hbs. apply list_elem_of_In, Hbs in Hc.
  unfold is_octet in Hc. apply Z.leb_le. lia.
Qed.

Lemma map_id_on {A : Type} (f : A → A) (P : A → Prop) (l : list A) :
  (∀ x, P x → f x = x) → Forall P l → map f l = l.
Proof.
  intros Hf. induction 1 as [|x l Hx _ IH]; [reflexivity|].
  simpl. now rewrite Hf, IH.
Qed.

Lemma arrayBufferToBase64_octets (buffer : list Z) :
  Forall is_octet buffer →
  arrayBufferToBase64 buffer
  = Some (map char_of_sextet (sextets_of_octets buffer) ++ padding buffer).
Proof.
  intros Hb. unfold arrayBufferToBase64.
  rewrite (fold_append_prefix fromCharCode buffer (length buffer)) by lia.
  rewrite firstn_all.
  rewrite (map_id_on fromCharCode is_octet); [|intros x Hx|assumption].
  - now apply btoa_octets.
  - unfold fromCharCode. unfold is_octet in Hx. apply Z.mod_small. lia.
Qed.

Lemma base64ToArrayBuffer_atob (base64 bs : list Z) :
  atob base64 = Some bs → Forall is_octet bs →
  base64ToArrayBuffer base64 = Some bs.
Proof.
  intros E Hb. unfold base64ToArrayBuffer. rewrite E. simpl. f_equal.
  rewrite (fold_store_map ToUint8 0 bs).
  apply (map_id_on ToUint8 is_octet); [|assumption].
  intros x Hx. unfold ToUint8. unfold is_octet in Hx. apply Z.mod_small. lia.
Qed.

(** Base64 encoding then decoding gives back any buffer of octets. *)
Lemma base64_roundtrip (buffer : list Z) :
  Forall is_octet buffer →
  ∃ base64, arrayBufferToBase64 buffer = Some base64
    ∧ base64ToArrayBuffer base64 = Some buffer.
Proof.
  intros Hb. eexists. split; [now apply arrayBufferToBase64_octets|].
  apply base64ToArrayBuffer_atob; [now apply atob_encoded | assumption].
Qed.

Lemma float32To16BitPCM_octets (frame : list number) :
  Forall is_octet (float32To16BitPCM frame).
Proof.
  rewrite float32To16BitPCM_bytes.
  induction frame as [|x frame IH]; [constructor|].
  cbn [flat_map int16_bytes app].
  repeat (apply Forall_cons; split; [octets|]). exact IH.
Qed.

(** C7.  For every float frame, base64-encoding the bytes produced by the
    forward conversion succeeds, and base64-decoding the resulting text
    gives back exactly those bytes. *)
Theorem transport_encoding_roundtrip (frame : list number) :
  ∃ base64,
    arrayBufferToBase64 (float32To16BitPCM frame) = Some base64
    ∧ base64ToArrayBuffer base64 = Some (float32To16BitPCM frame).
Proof. apply base64_roundtrip, float32To16BitPCM_octets. Qed.

(** The capture side and the playback side put together: the envelope built
    from a non-empty frame decodes to the frame of its round-trip values. *)
Lemma decodeAudioData_createPcmBlob (frame : list number) (rate r : Q) :
  frame ≠ [] →
  ∃ blob, createPcmBlob frame rate = Some blob
    ∧ mimeType_rate blob = rate
    ∧ decodeAudioData (data blob) r
      = Some (mkAudioBuffer
                (map (fun x => Design.reverse (Design.forward x)) frame) r).
Proof.
  intros Hne. unfold createPcmBlob.
  destruct (base64_roundtrip _ (float32To16BitPCM_octets frame))
    as (base64 & -> & Hback).
  eexists. split; [reflexivity|]. split; [reflexivity|].
  cbn [data mbind option_bind]. unfold decodeAudioData. rewrite Hback.
  cbn [mbind option_bind].
  rewrite Int16Array_float32To16BitPCM. cbn [mbind option_bind].
  rewrite decode_int16_map, map_map, length_map.
  destruct frame as [|x frame]; [congruence|].
  cbn [length createBuffer mbind option_bind channelData sampleRate].
  f_equal. f_equal. unfold f32_set_all, new_Float32Array.
  rewrite drop_ge; [apply app_nil_r|].
  rewrite length_replicate, length_map. cbn [length]. lia.
Qed.

(** ** Resampling *)

Lemma Qfloor_unique (x : Q) (z : Z) :
  (inject_Z z <= x < inject_Z z + 1)%Q → Qfloor x = z.
Proof.
  intros [H1 H2].
  pose proof (Qfloor_le x) as F1. pose proof (Qlt_floor x) as F2.
  rewrite inject_Z_plus in F2. change (inject_Z 1) with 1%Q in F2.
  assert (Qfloor x < z + 1).
  { apply inject_Z_lt_inv. rewrite inject_Z_plus.
    change (inject_Z 1) with 1%Q. lra. }
  assert (z < Qfloor x + 1).
  { apply inject_Z_lt_inv. rewrite inject_Z_plus.
    change (inject_Z 1) with 1%Q. lra. }
  lia.
Qed.

Lemma Math_round_inject_Z (z : Z) : Math_round (inject_Z z) = z.
Proof. apply Qfloor_unique. lra. Qed.

Lemma Math_round_comp (p q : Q) : p == q → Math_round p = Math_round q.
Proof. intros E. unfold Math_round. now rewrite E. Qed.

Lemma Math_round_nonneg (q : Q) : (0 <= q)%Q → 0 <= Math_round q.
Proof.
  intros Hq. unfold Math_round.
  change 0 with (Qfloor (inject_Z 0)). apply Qfloor_resp_le.
  change (inject_Z 0) with 0%Q. lra.
Qed.

Lemma Math_round_bounds (q : Q) :
  (inject_Z (Math_round q) <= q + (1 # 2)
   ∧ q - (1 # 2) < inject_Z (Math_round q))%Q.
Proof.
  unfold Math_round. pose proof (Qfloor_le (q + (1 # 2))) as F1.
  pose proof (Qlt_floor (q + (1 # 2))) as F2.
  rewrite inject_Z_plus in F2. change (inject_Z 1) with 1%Q in F2.
  split; lra.
Qed.

Lemma Math_round_monotone (p q : Q) :
  (p <= q)%Q → Math_round p <= Math_round q.
Proof. intros H. unfold Math_round. apply Qfloor_resp_le. lra. Qed.


Lemma Qmult_le_l_weak (z x y : Q) :
  (0 <= z)%Q → (x <= y)%Q → (z * x <= z * y)%Q.
Proof.
  intros Hz H. rewrite (Qmult_comm z x), (Qmult_comm z y).
  apply Qmult_le_compat_r; assumption.
Qed.

Lemma inject_nat_nonneg (n : nat) : (0 <= inject_Z (Z.of_nat n))%Q.
Proof. change 0%Q with (inject_Z 0). rewrite <- Zle_Qle. lia. Qed.

(** *** The loop of [downsampleBuffer] *)

Lemma f32_get_num_Z (a : list number) (z : Z) :
  f32_get_num a (Num (inject_Z z)) = f32_get a z.
Proof.
  unfold f32_get_num. rewrite Qfloor_Z.
  now rewrite (proj2 (Qeq_bool_iff _ _) (Qeq_refl _)).
Qed.

Lemma lt_Z (a b : Z) :
  lt (Num (inject_Z a)) (Num (inject_Z b)) = (a <? b).
Proof.
  unfold lt. destruct (Qlt_le_dec (inject_Z a) (inject_Z b)) as [H|H];
    symmetry.
  - apply Z.ltb_lt. rewrite Zlt_Qlt. exact H.
  - apply Z.ltb_ge. rewrite Zle_Qle. exact H.
Qed.

(** The value the loop leaves at an output index whose source index is the
    integer [index]. *)
Lemma downsample_value_index (buffer : list number) (r : number) (k : nat)
    (index : Z) :
  index_of k r = Num (inject_Z index) →
  downsample_value buffer r k
  = if index <? Z.of_nat (length buffer)
    then default NaN (f32_get buffer index)
    else Num 0.
Proof.
  intros H. unfold downsample_value. cbv zeta. rewrite H.
  unfold number_of_nat. now rewrite lt_Z, f32_get_num_Z.
Qed.

Lemma downsample_prefix (buffer : list number) (r : number) (N k : nat) :
  (k ≤ N)%nat →
  fold_left (downsample_step buffer r) (seq 0 k) (new_Float32Array N)
  = map (downsample_value buffer r) (seq 0 k) ++ replicate (N - k) (Num 0).
Proof.
  unfold new_Float32Array.
  induction k as [|k IH]; intros Hk.
  - simpl. now rewrite Nat.sub_0_r.
  - rewrite seq_S, fold_left_app, IH, map_app, <- app_assoc by lia.
    cbn [fold_left map Nat.add app].
    replace (N - k)%nat with (S (N - S k)) by lia. cbn [replicate].
    unfold downsample_step, downsample_value, f32_set. cbv zeta.
    destruct (lt (index_of k r) (number_of_nat (length buffer)));
      [|reflexivity].
    rewrite insert_app_r_alt; rewrite length_map, length_seq; [|lia].
    now rewrite Nat.sub_diag.
Qed.

Lemma downsampleBuffer_same (buffer : list number) (i o : Q) :
  (i <= o)%Q → downsampleBuffer buffer i o = buffer.
Proof.
  intros H. unfold downsampleBuffer.
  destruct (Qeq_bool i o) eqn:E; [reflexivity|].
  destruct (Qlt_le_dec i o) as [_|H']; [reflexivity|].
  apply Qeq_bool_neq in E. exfalso. apply E. lra.
Qed.

Lemma downsampleBuffer_decimate (buffer : list number) (i o : Q) :
  (o < i)%Q →
  downsampleBuffer buffer i o
  = map (downsample_value buffer (sampleRateRatio i o))
      (seq 0 (array_length (newLength buffer (sampleRateRatio i o)))).
Proof.
  intros H. unfold downsampleBuffer.
  destruct (Qeq_bool i o) eqn:E.
  { apply Qeq_bool_iff in E. lra. }
  destruct (Qlt_le_dec i o) as [H'|_]; [lra|].
  cbv zeta. rewrite downsample_prefix by lia.
  rewrite Nat.sub_diag. apply app_nil_r.
Qed.

Lemma downsampleBuffer_lookup (buffer : list number) (i o : Q) (k : nat) :
  (o < i)%Q →
  (k < array_length (newLength buffer (sampleRateRatio i o)))%nat →
  downsampleBuffer buffer i o !! k
  = Some (downsample_value buffer (sampleRateRatio i o) k).
Proof.
  intros H Hk. rewrite downsampleBuffer_decimate by exact H.
  change (map ?f ?l) with (f <$> l).
  now rewrite list_lookup_fmap, lookup_seq_lt by exact Hk.
Qed.

Lemma length_downsampleBuffer (buffer : list number) (i o : Q) :
  (o < i)%Q →
  length (downsampleBuffer buffer i o)
  = array_length (newLength buffer (sampleRateRatio i o)).
Proof.
  intros H. rewrite downsampleBuffer_decimate by exact H.
  now rewrite length_map, length_seq.
Qed.

(** *** The numbers [downsampleBuffer] computes *)

Lemma u53 : pow2 (-53) == 1 # 9007199254740992.
Proof. reflexivity. Qed.

Lemma ratio_gt_1 (i o : Q) : (0 < o)%Q → (o < i)%Q → (1 < i / o)%Q.
Proof. intros Ho Hi. apply Qlt_shift_div_l; lra. Qed.

Lemma normal_of_ge (q c : Q) :
  (c <= q)%Q → (pow2 (-1022) <= c)%Q → (pow2 (-1022) <= q)%Q.
Proof. intros H1 H2. lra. Qed.

Lemma pow2_m1022_small : (pow2 (-1022) <= 1 # 48000)%Q.
Proof.
  apply Qle_trans with (pow2 (-16)); [apply pow2_le; lia|].
  vm_compute. discriminate.
Qed.

Lemma div_pos (x y : Q) : (0 < y)%Q → div (Num x) (Num y) = fl64 (x / y).
Proof. intros H. unfold div. now rewrite (sign_of_pos y H). Qed.

Lemma fl64_one : ∃ v, fl64 1 = Num v ∧ v == 1.
Proof. apply (fl64_Z 1). lia. Qed.

(** The ratio of two positive rates, the first the larger: infinite, or at
    least 1 and within [2^-53] of the exact quotient. *)
Lemma sampleRateRatio_cases (i o : Q) :
  (0 < o)%Q → (o < i)%Q →
  sampleRateRatio i o = PosInf
  ∨ ∃ rv, sampleRateRatio i o = Num rv ∧ (1 <= rv)%Q
      ∧ (i / o * (1 - (1 # 9007199254740992)) <= rv)%Q
      ∧ (rv <= i / o * (1 + (1 # 9007199254740992)))%Q.
Proof.
  intros Ho Hi. unfold sampleRateRatio. rewrite div_pos by exact Ho.
  pose proof (ratio_gt_1 i o Ho Hi) as Hr.
  destruct (fl64_pos (i / o)) as [[-> _]|[H _]]; [lra|left; reflexivity|].
  right. exists (round_pos (i / o)). split; [exact H|].
  destruct fl64_one as (v1 & Hv1 & E1).
  pose proof (fl64_ge (i / o) 1 _ v1 ltac:(lra) ltac:(lra) Hv1 H) as Hge.
  assert (pow2 (-1022) <= i / o)%Q as Hn.
  { apply Qle_trans with 1%Q; [|lra]. change 1%Q with (pow2 0).
    apply pow2_le. lia. }
  destruct (fl64_error _ _ Hn H) as [B1 B2]. rewrite u53 in B1, B2.
  repeat split; [lra|exact B1|exact B2].
Qed.

(** The quotient [buffer.length / sampleRateRatio] for a finite ratio. *)
Lemma length_quotient (L : nat) (rv : Q) :
  (1 <= rv)%Q → Z.of_nat L < 2 ^ 53 →
  ∃ qv, div (number_of_nat L) (Num rv) = Num qv
    ∧ (0 <= qv)%Q ∧ (qv <= inject_Z (Z.of_nat L))%Q
    ∧ ((1 # 4 <= inject_Z (Z.of_nat L) / rv)%Q →
       (inject_Z (Z.of_nat L) / rv * (1 - (1 # 9007199254740992)) <= qv)%Q
       ∧ (qv <= inject_Z (Z.of_nat L) / rv * (1 + (1 # 9007199254740992)))%Q)
    ∧ ((inject_Z (Z.of_nat L) / rv <= 1 # 4)%Q → (qv <= 1 # 4)%Q).
Proof.
  intros Hr HL. unfold number_of_nat. rewrite div_pos by lra.
  pose proof (inject_nat_nonneg L) as HL0.
  set (Lq := inject_Z (Z.of_nat L)) in *.
  assert (0 <= Lq / rv)%Q as Hq0 by (apply Qle_shift_div_l; lra).
  assert (Lq / rv <= Lq)%Q as HqL.
  { apply Qle_shift_div_r; [lra|]. nra. }
  destruct (fl64_Z (Z.of_nat L) ltac:(lia)) as (Lv & HLv & ELv).
  fold Lq in HLv, ELv.
  destruct (fl64_le (Lq / rv) Lq Lv Hq0 HqL HLv) as (qv & Hqv & Hqv0 & HqvL).
  exists qv. split; [exact Hqv|]. split; [exact Hqv0|].
  split; [lra|]. split.
  - intros Hn. assert (pow2 (-1022) <= Lq / rv)%Q as Hn'.
    { apply Qle_trans with (1 # 4)%Q; [|exact Hn].
      change (1 # 4)%Q with (pow2 (-2)). apply pow2_le. lia. }
    destruct (fl64_error _ _ Hn' Hqv) as [B1 B2]. rewrite u53 in B1, B2.
    split; assumption.
  - intros Hs. destruct (fl64_dyadic 1 2 ltac:(lia) ltac:(lia))
      as (dv & Hdv & Edv).
    change (inject_Z 1 / pow2 2)%Q with (1 # 4)%Q in Hdv, Edv.
    destruct (fl64_le (Lq / rv) (1 # 4) dv Hq0 Hs Hdv) as (qv' & Hqv' & _ & H').
    rewrite Hqv in Hqv'. injection Hqv' as <-. lra.
Qed.

(** The product [i * sampleRateRatio] for a finite ratio. *)
Lemma index_product (k : nat) (rv : Q) :
  (1 <= rv)%Q → (inject_Z (Z.of_nat k) * rv <= pow2 100)%Q →
  ∃ yv, mul64 (number_of_nat k) (Num rv) = Num yv
    ∧ (0 <= yv)%Q
    ∧ (inject_Z (Z.of_nat k) * rv * (1 - (1 # 9007199254740992)) <= yv)%Q
    ∧ (yv <= inject_Z (Z.of_nat k) * rv * (1 + (1 # 9007199254740992)))%Q.
Proof.
  intros Hr Hb. unfold number_of_nat, mul64.
  pose proof (inject_nat_nonneg k) as Hk0.
  set (K := inject_Z (Z.of_nat k)) in *.
  assert (0 <= K * rv)%Q as HP0 by nra.
  destruct (fl64_exact (pow2 100) 1 100) as (dv & Hdv & Edv);
    [ring|lia|lia|apply pow2_lt; lia|].
  destruct (fl64_le (K * rv) (pow2 100) dv HP0 Hb Hdv) as (yv & Hyv & Hyv0 & _).
  exists yv. split; [exact Hyv|]. split; [exact Hyv0|].
  destruct (Nat.eq_dec k 0%nat) as [Hk|Hk].
  - assert (K * rv == 0)%Q as E by (unfold K; rewrite Hk; simpl; ring).
    rewrite (fl64_zero _ E) in Hyv. injection Hyv as <-. rewrite E. lra.
  - assert (1 <= K)%Q as HK1.
    { unfold K. change 1%Q with (inject_Z 1). rewrite <- Zle_Qle. lia. }
    assert (pow2 (-1022) <= K * rv)%Q as Hn.
    { apply Qle_trans with 1%Q; [|nra]. change 1%Q with (pow2 0).
      apply pow2_le. lia. }
    destruct (fl64_error _ _ Hn Hyv) as [B1 B2]. rewrite u53 in B1, B2.
    split; assumption.
Qed.

Lemma array_length_Z (n : Z) : array_length (Num (inject_Z n)) = Z.to_nat n.
Proof. unfold array_length. now rewrite Qfloor_Z. Qed.

Lemma Math_round_small (q : Q) : (0 <= q)%Q → (q < 1 # 2)%Q → Math_round q = 0.
Proof. intros H1 H2. apply Qfloor_unique. change (inject_Z 0) with 0%Q. lra. Qed.

(** What [downsampleBuffer] computes for the length of its result when it
    decimates a frame of fewer than [2^53] samples. *)
Lemma newLength_cases (buffer : list number) (i o : Q) :
  (0 < o)%Q → (o < i)%Q → Z.of_nat (length buffer) < 2 ^ 53 →
  (sampleRateRatio i o = PosInf
   ∧ newLength buffer (sampleRateRatio i o) = Num (inject_Z 0)
   ∧ (pow2 1023 < i / o)%Q)
  ∨ ∃ rv qv,
      sampleRateRatio i o = Num rv ∧ (1 <= rv)%Q
      ∧ (i / o * (1 - (1 # 9007199254740992)) <= rv)%Q
      ∧ (rv <= i / o * (1 + (1 # 9007199254740992)))%Q
      ∧ newLength buffer (sampleRateRatio i o)
        = Num (inject_Z (Math_round qv))
      ∧ (0 <= qv)%Q ∧ (qv <= inject_Z (Z.of_nat (length buffer)))%Q
      ∧ ((1 # 4 <= inject_Z (Z.of_nat (length buffer)) / rv)%Q →
         (inject_Z (Z.of_nat (length buffer)) / rv
          * (1 - (1 # 9007199254740992)) <= qv)%Q
         ∧ (qv <= inject_Z (Z.of_nat (length buffer)) / rv
                  * (1 + (1 # 9007199254740992)))%Q)
      ∧ ((inject_Z (Z.of_nat (length buffer)) / rv <= 1 # 4)%Q →
         (qv <= 1 # 4)%Q).
Proof.
  intros Ho Hi HL.
  destruct (sampleRateRatio_cases i o Ho Hi) as [Hinf|(rv & Hrv & H1 & B1 & B2)].
  - left. split; [exact Hinf|]. split.
    + unfold newLength. rewrite Hinf. reflexivity.
    + apply fl64_overflow.
      * pose proof (ratio_gt_1 i o Ho Hi). lra.
      * unfold sampleRateRatio in Hinf. rewrite div_pos in Hinf by exact Ho.
        exact Hinf.
  - right. destruct (length_quotient (length buffer) rv H1 HL)
      as (qv & Hqv & Q0 & Q1 & Q2 & Q3).
    exists rv, qv. unfold newLength. rewrite Hrv, Hqv. cbn [Math_round_num].
    repeat split; try assumption; apply Q2; assumption.
Qed.

Lemma length_downsampleBuffer_Z (buffer : list number) (i o : Q) (n : Z) :
  (o < i)%Q → newLength buffer (sampleRateRatio i o) = Num (inject_Z n) →
  length (downsampleBuffer buffer i o) = Z.to_nat n.
Proof.
  intros Hi Hn. rewrite length_downsampleBuffer by exact Hi.
  rewrite Hn. apply array_length_Z.
Qed.






Lemma pow2_100_large : (18014398509481984 <= pow2 100)%Q.
Proof.
  apply Qle_trans with (pow2 54); [vm_compute; discriminate|].
  apply pow2_le. lia.
Qed.

(** The numbers behind output index [k] when [downsampleBuffer] decimates
    a frame of fewer than [2^53] samples: the ratio [rv], the quotient [qv]
    whose rounding is the output length, and the product [yv] whose
    rounding is the source index. *)
Lemma decimation_numbers (buffer : list number) (i o : Q) (k : nat) :
  (0 < o)%Q → (o < i)%Q → Z.of_nat (length buffer) < 2 ^ 53 →
  (k < length (downsampleBuffer buffer i o))%nat →
  ∃ rv qv yv,
    sampleRateRatio i o = Num rv ∧ (1 <= rv)%Q
    ∧ (i / o * (1 - (1 # 9007199254740992)) <= rv)%Q
    ∧ (rv <= i / o * (1 + (1 # 9007199254740992)))%Q
    ∧ newLength buffer (sampleRateRatio i o) = Num (inject_Z (Math_round qv))
    ∧ Z.of_nat k + 1 <= Math_round qv <= Z.of_nat (length buffer)
    ∧ mul64 (number_of_nat k) (Num rv) = Num yv
    ∧ index_of k (sampleRateRatio i o) = Num (inject_Z (Math_round yv))
    ∧ (0 <= yv)%Q
    ∧ (inject_Z (Z.of_nat k) * rv * (1 - (1 # 9007199254740992)) <= yv)%Q
    ∧ (yv <= inject_Z (Z.of_nat k) * rv * (1 + (1 # 9007199254740992)))%Q
    ∧ (inject_Z (Z.of_nat k) * rv
       <= inject_Z (Z.of_nat (length buffer)) * (1 + (1 # 9007199254740992))
          - (1 # 2) * rv)%Q.
Proof.
  intros Ho Hi HL Hk.
  destruct (newLength_cases buffer i o Ho Hi HL)
    as [(_ & Hn & _)
       |(rv & qv & Hrv & H1 & B1 & B2 & Hn & Q0 & Q1 & Q2 & Q3)].
  { rewrite (length_downsampleBuffer_Z buffer i o 0 Hi Hn) in Hk.
    simpl in Hk. lia. }
  rewrite (length_downsampleBuffer_Z buffer i o _ Hi Hn) in Hk.
  assert (Z.of_nat k + 1 <= Math_round qv) as Hkn by lia.
  destruct (Math_round_bounds qv) as [R1 R2].
  pose proof (inject_nat_nonneg k) as HK0.
  pose proof (inject_nat_nonneg (length buffer)) as HL0.
  assert (inject_Z (Z.of_nat k) + 1 <= inject_Z (Math_round qv))%Q as HknQ.
  { rewrite <- (inject_Z_plus _ 1). rewrite <- Zle_Qle. exact Hkn. }
  assert (Math_round qv <= Z.of_nat (length buffer)) as HnL.
  { rewrite <- (Math_round_inject_Z (Z.of_nat (length buffer))).
    apply Math_round_monotone, Q1. }
  set (K := inject_Z (Z.of_nat k)) in *.
  set (Lq := inject_Z (Z.of_nat (length buffer))) in *.
  assert (1 # 4 <= Lq / rv)%Q as Hbig.
  { apply Qnot_lt_le. intros Hc. pose proof (Q3 ltac:(lra)). lra. }
  destruct (Q2 Hbig) as [_ N2].
  assert (Lq / rv * rv == Lq)%Q as EA by (field; lra).
  set (A := (Lq / rv)%Q) in *.
  assert (K * rv <= Lq * (1 + (1 # 9007199254740992)) - (1 # 2) * rv)%Q
    as HP.
  { assert (0 <= (A * (1 + (1 # 9007199254740992)) - (1 # 2) - K) * rv)%Q
      by (apply Qmult_le_0_compat; lra).
    assert ((A * (1 + (1 # 9007199254740992)) - (1 # 2) - K) * rv
            == A * rv * (1 + (1 # 9007199254740992)) - (1 # 2) * rv
               - K * rv)%Q as E by ring.
    rewrite E, EA in H. lra. }
  assert (Lq < 9007199254740992)%Q as HLq.
  { unfold Lq. change 9007199254740992%Q with (inject_Z (2 ^ 53)).
    rewrite <- Zlt_Qlt. exact HL. }
  destruct (index_product k rv H1) as (yv & Hyv & Y0 & Y1 & Y2).
  { fold K. pose proof pow2_100_large. lra. }
  exists rv, qv, yv. fold K in Y1, Y2.
  repeat split; try assumption.
  unfold index_of. cbv zeta. rewrite Hrv, Hyv. reflexivity.
Qed.





(** For a frame of at most [2^24] samples the binary64 product stays more
    than a half below the input length. *)
Lemma guard_numbers (K L rv yv : Q) :
  (0 <= K)%Q → (K + 1 <= L)%Q → (L <= 16777216)%Q → (1 <= rv)%Q →
  (yv <= K * rv * (1 + (1 # 9007199254740992)))%Q →
  (K * rv <= L * (1 + (1 # 9007199254740992)) - (1 # 2) * rv)%Q →
  (yv < L - (1 # 2))%Q.
Proof.
  intros HK HKL HL Hrv Y2 HP.
  destruct (Qlt_le_dec rv (1 + (1 # 67108864))) as [Hnear|Hfar].
  - assert (K * (rv - 1) <= K * (1 # 67108864))%Q as H
      by (apply Qmult_le_l_weak; lra).
    assert (K * (rv - 1) == K * rv - K)%Q as E by ring.
    rewrite E in H. set (P := (K * rv)%Q) in *. lra.
  - set (P := (K * rv)%Q) in *. lra.
Qed.

Lemma index_in_bounds (buffer : list number) (i o : Q) (k : nat) :
  (0 < o)%Q → (o < i)%Q → Z.of_nat (length buffer) <= 2 ^ 24 →
  (k < length (downsampleBuffer buffer i o))%nat →
  ∃ index : Z,
    index_of k (sampleRateRatio i o) = Num (inject_Z index)
    ∧ 0 <= index < Z.of_nat (length buffer).
Proof.
  intros Ho Hi HL Hk.
  destruct (decimation_numbers buffer i o k Ho Hi ltac:(lia) Hk)
    as (rv & qv & yv & Hrv & H1 & B1 & B2 & Hn & Hkn & Hyv & Hidx & Y0 & Y1
        & Y2 & HP).
  exists (Math_round yv). split; [exact Hidx|].
  split; [apply Math_round_nonneg, Y0|].
  destruct (Math_round_bounds yv) as [R1 _].
  apply inject_Z_lt_inv.
  assert (yv < inject_Z (Z.of_nat (length buffer)) - (1 # 2))%Q; [|lra].
  apply (guard_numbers (inject_Z (Z.of_nat k)) _ rv); try assumption.
  - apply inject_nat_nonneg.
  - rewrite <- (inject_Z_plus _ 1). rewrite <- Zle_Qle. lia.
  - change 16777216%Q with (inject_Z (2 ^ 24)). rewrite <- Zle_Qle. exact HL.
Qed.

(** What goes wrong for a frame of [2^27] samples resampled from 268435457 Hz
    to 268435456 Hz, whatever its samples: the output has [2^27] samples,
    and for the last output index the binary64 product
    [(2^27 - 1) * (1 + 2^-28)] is [2^27 - 1/2], which [Math.round] takes
    to [2^27], the input length. *)
Lemma guard_fails_at (buffer : list number) (k : nat) :
  Z.of_nat (length buffer) = 2 ^ 27 → Z.of_nat k = 2 ^ 27 - 1 →
  (k < length (downsampleBuffer buffer 268435457 268435456))%nat
  ∧ Z.of_nat k
    < Design.output_length (length buffer) (268435457 / 268435456)
  ∧ Design.source_index k (268435457 / 268435456) = 2 ^ 27 - 1
  ∧ index_of k (sampleRateRatio 268435457 268435456)
    = Num (inject_Z (2 ^ 27))
  ∧ downsampleBuffer buffer 268435457 268435456 !! k = Some (Num 0).
Proof.
  intros HL Hk.
  assert (newLength buffer (sampleRateRatio 268435457 268435456)
          = Num (inject_Z (2 ^ 27))) as Hn.
  { unfold newLength, number_of_nat. rewrite HL. vm_compute. reflexivity. }
  assert (index_of k (sampleRateRatio 268435457 268435456)
          = Num (inject_Z (2 ^ 27))) as Hidx.
  { unfold index_of, number_of_nat. rewrite Hk. vm_compute. reflexivity. }
  assert (k < length (downsampleBuffer buffer 268435457 268435456))%nat
    as Hlen.
  { rewrite (length_downsampleBuffer_Z buffer 268435457 268435456 _
               ltac:(reflexivity) Hn). lia. }
  split; [exact Hlen|]. split; [|split; [|split; [exact Hidx|]]].
  - unfold Design.output_length. rewrite HL, Hk. vm_compute. reflexivity.
  - unfold Design.source_index. rewrite Hk. vm_compute. reflexivity.
  - rewrite downsampleBuffer_lookup; [|reflexivity|].
    + rewrite (downsample_value_index _ _ _ _ Hidx), HL.
      rewrite Z.ltb_irrefl. reflexivity.
    + rewrite <- length_downsampleBuffer by reflexivity. exact Hlen.
Qed.

(** C10, as stated (the guard always takes the copy branch and no output
    sample is left at its zero default) fails: of a frame of [2^27] samples,
    all equal to 1, resampled from 268435457 Hz to 268435456 Hz, the last
    output sample is 0, its source index being the input length. *)
Lemma downsample_guard_leaves_zero :
  (268435456 < 268435457)%Q
  ∧ (Z.to_nat (2 ^ 27 - 1)
     < length (downsampleBuffer (replicate (Z.to_nat (2 ^ 27)) (Num 1))
                 268435457 268435456))%nat
  ∧ Z.of_nat (Z.to_nat (2 ^ 27 - 1))
    < Design.output_length (length (replicate (Z.to_nat (2 ^ 27)) (Num 1)))
        (268435457 / 268435456)
  ∧ index_of (Z.to_nat (2 ^ 27 - 1)) (sampleRateRatio 268435457 268435456)
    = number_of_nat (length (replicate (Z.to_nat (2 ^ 27)) (Num 1)))
  ∧ downsampleBuffer (replicate (Z.to_nat (2 ^ 27)) (Num 1))
      268435457 268435456 !! Z.to_nat (2 ^ 27 - 1) = Some (Num 0)
  ∧ Num 0 ∉ replicate (Z.to_nat (2 ^ 27)) (Num 1).
Proof.
  assert (Z.of_nat (length (replicate (Z.to_nat (2 ^ 27)) (Num 1))) = 2 ^ 27)
    as HL by (rewrite length_replicate; apply Z2Nat.id; lia).
  assert (Z.of_nat (Z.to_nat (2 ^ 27 - 1)) = 2 ^ 27 - 1) as Hk
    by (apply Z2Nat.id; lia).
  destruct (guard_fails_at _ _ HL Hk) as (H1 & H2 & _ & H4 & H5).
  split; [reflexivity|]. split; [exact H1|]. split; [exact H2|].
  split; [|split; [exact H5|]].
  - rewrite H4. unfold number_of_nat. rewrite HL. reflexivity.
  - intros Hin. apply elem_of_replicate in Hin. destruct Hin as [Hin _].
    discriminate Hin.
Qed.

(** C10, amended.  When [inputRate > outputRate > 0] and the frame has at
    most [2^24] samples, the source index of every output index lies inside
    the input, so the guard of the loop takes the copy branch and the
    output sample is the copied input sample, never the zero the array was
    created with. *)
Theorem downsample_guard_always_copies (buffer : list number) (i o : Q)
    (k : nat) :
  (0 < o)%Q → (o < i)%Q → Z.of_nat (length buffer) <= 2 ^ 24 →
  (k < length (downsampleBuffer buffer i o))%nat →
  ∃ index : Z,
    index_of k (sampleRateRatio i o) = Num (inject_Z index)
    ∧ 0 <= index < Z.of_nat (length buffer)
    ∧ ∃ x, f32_get buffer index = Some x
        ∧ (∀ result, downsample_step buffer (sampleRateRatio i o) result k
                     = f32_set result k (Some x))
        ∧ downsampleBuffer buffer i o !! k = Some x.
Proof.
  intros Ho Hi HL Hk.
  destruct (index_in_bounds buffer i o k Ho Hi HL Hk) as (index & Hidx & HI).
  exists index. split; [exact Hidx|]. split; [exact HI|].
  assert (is_Some (f32_get buffer index)) as [x Hx].
  { unfold f32_get. destruct (Z.ltb_spec index 0); [lia|].
    apply lookup_lt_is_Some_2. lia. }
  exists x. split; [exact Hx|]. split.
  - intros result. unfold downsample_step. cbv zeta. rewrite Hidx.
    unfold number_of_nat. rewrite lt_Z, f32_get_num_Z.
    destruct (Z.ltb_spec index (Z.of_nat (length buffer))); [|lia].
    now rewrite Hx.
  - rewrite downsampleBuffer_lookup; [|exact Hi|].
    + rewrite (downsample_value_index _ _ _ _ Hidx).
      destruct (Z.ltb_spec index (Z.of_nat (length buffer))); [|lia].
      now rewrite Hx.
    + rewrite <- length_downsampleBuffer by exact Hi. exact Hk.
Qed.

Lemma downsample_guard_always_copies_witness :
  ∃ index : Z,
    index_of 1 (sampleRateRatio 48000 16000) = Num (inject_Z index)
    ∧ 0 <= index
      < Z.of_nat (length [Num 0; Num 1; Num 2; Num 3; Num 4; Num 5; Num 6])
    ∧ ∃ x,
        f32_get [Num 0; Num 1; Num 2; Num 3; Num 4; Num 5; Num 6] index
        = Some x
        ∧ (∀ result,
             downsample_step [Num 0; Num 1; Num 2; Num 3; Num 4; Num 5; Num 6]
               (sampleRateRatio 48000 16000) result 1
             = f32_set result 1 (Some x))
        ∧ downsampleBuffer [Num 0; Num 1; Num 2; Num 3; Num 4; Num 5; Num 6]
            48000 16000 !! 1%nat = Some x.
Proof.
  apply (downsample_guard_always_copies
           [Num 0; Num 1; Num 2; Num 3; Num 4; Num 5; Num 6] 48000 16000 1);
    [reflexivity | reflexivity | vm_compute; discriminate
    | vm_compute; lia].
Defined.

(** ** Session lifecycle and interruption *)

Lemma stop_each_list (l : list handle) (w : world) :
  let w' :=
    foldr (fun source w =>
             match source_stop source w with
             | Ok w' => w'
             | Throw _ => w
             end) w l in
  stopped w' = list_to_set l ∪ stopped w
  ∧ timeline w' = timeline w
  ∧ fresh w' = fresh w.
Proof.
  induction l as [|x l IH]; cbn [foldr list_to_set].
  - split; [set_solver|split; reflexivity].
  - cbv zeta in IH. destruct IH as (IH1 & IH2 & IH3).
    set (w1 := foldr _ w l) in *. unfold source_stop.
    destruct (decide (x ∈ stopped w1)) as [Hx|Hx].
    + split; [set_solver|split; assumption].
    + cbn [stopped timeline calls fresh]. split; [set_solver|]. split.
      * rewrite <- IH2. unfold timeline. cbn [calls]. rewrite omap_app.
        cbn. apply app_nil_r.
      * assumption.
Qed.

Lemma stop_each_stopped (X : gset handle) (w : world) :
  stopped (stop_each X w) = X ∪ stopped w.
Proof.
  unfold stop_each.
  destruct (stop_each_list (elements X) w) as [H _]. rewrite H.
  now rewrite list_to_set_elements_L.
Qed.

Lemma stop_each_timeline (X : gset handle) (w : world) :
  timeline (stop_each X w) = timeline w.
Proof. unfold stop_each. apply stop_each_list. Qed.

Lemma stop_each_fresh (X : gset handle) (w : world) :
  fresh (stop_each X w) = fresh w.
Proof. unfold stop_each. apply stop_each_list. Qed.

Lemma stop_each_empty (w : world) : stop_each ∅ w = w.
Proof. unfold stop_each. now rewrite elements_empty. Qed.

Lemma disconnect_torn_down (w : world) (s : state) :
  torn_down s → connectionState s = DISCONNECTED → disconnect (w, s) = (w, s).
Proof.
  destruct s. unfold torn_down. cbn.
  intros (-> & -> & -> & -> & -> & -> & -> & ->) ->.
  unfold disconnect. cbn. now rewrite stop_each_empty.
Qed.

Lemma torn_down_disconnect (ws : world * state) :
  torn_down (snd (disconnect ws))
  ∧ connectionState (snd (disconnect ws)) = DISCONNECTED.
Proof. destruct ws as [w s]. unfold torn_down. cbn. tauto. Qed.

Lemma disconnect_idempotent (ws : world * state) :
  disconnect (disconnect ws) = disconnect ws.
Proof.
  destruct (torn_down_disconnect ws) as [H1 H2].
  destruct (disconnect ws) as [w' s']. now apply disconnect_torn_down.
Qed.

(** C9.  Calling [disconnect] in the Disconnected state with every
    resource ref null, cursor 0 and empty live set changes nothing and makes
    no platform call; with some refs still set it leaves the connection
    state Disconnected, the cursor 0 and the live set empty; and calling
    [disconnect] twice gives the same result as calling it once.
    ([disconnect] raises no exception: the only calls of it that can throw
    sit in [try] blocks that swallow the exception.) *)
Theorem disconnect_while_disconnected (w : world) (s : state) :
  (connectionState s = DISCONNECTED → torn_down s →
   disconnect (w, s) = (w, s))
  ∧ (connectionState s = DISCONNECTED → nextStartTimeRef s = Num 0 →
     sourcesRef s = ∅ →
     connectionState (snd (disconnect (w, s))) = DISCONNECTED
     ∧ nextStartTimeRef (snd (disconnect (w, s))) = Num 0
     ∧ sourcesRef (snd (disconnect (w, s))) = ∅
     ∧ error (snd (disconnect (w, s))) = error s
     ∧ transcriptions (snd (disconnect (w, s))) = transcriptions s)
  ∧ disconnect (disconnect (w, s)) = disconnect (w, s).
Proof.
  split; [|split].
  - intros Hc Ht. now apply disconnect_torn_down.
  - intros _ _ _. cbn. tauto.
  - apply disconnect_idempotent.
Qed.

Lemma disconnect_while_disconnected_witness :
  disconnect (initial_world, initial_state) = (initial_world, initial_state).
Proof.
  destruct (disconnect_while_disconnected initial_world initial_state)
    as [H _].
  apply H; [reflexivity | repeat split; reflexivity].
Defined.

(** *** connect *)

(** C8 as stated (every setup failure ends in Error) fails: with the
    credential missing, [connect] leaves the state machine where it was,
    here in Disconnected. *)
Lemma connect_missing_credential_not_error :
  setup_fails "" setup_ok = true
  ∧ connectionState (connect "" setup_ok initial_state) = DISCONNECTED
  ∧ connectionState (connect "" setup_ok initial_state) ≠ ERROR.
Proof. split; [reflexivity|]. split; [reflexivity|discriminate]. Qed.

Lemma connect_try_throws (p : setup) (s : state) (e : exn) :
  setup_exception p = Some e → ∃ s', connect_try p s = (s', Throw e).
Proof.
  destruct p as [a b c d f g h]. unfold setup_exception, connect_try.
  cbn.
  destruct a; [|intros [= ->]; eexists; reflexivity].
  destruct b; [|intros [= ->]; eexists; reflexivity].
  destruct c; [|intros [= ->]; eexists; reflexivity].
  destruct d; [|intros [= ->]; eexists; reflexivity].
  destruct f; [|intros [= ->]; eexists; reflexivity].
  destruct g; [|intros [= ->]; eexists; reflexivity].
  destruct h; [discriminate|intros [= ->]; eexists; reflexivity].
Qed.

Lemma connect_try_returns (p : setup) (s : state) :
  setup_exception p = None →
  ∃ s', connect_try p s = (s', Ok tt) ∧ connectionState s' = CONNECTING.
Proof.
  destruct p as [a b c d f g h]. unfold setup_exception, connect_try.
  cbn.
  destruct a; [|discriminate]. destruct b; [|discriminate].
  destruct c; [|discriminate]. destruct d; [|discriminate].
  destruct f; [|discriminate]. destruct g; [|discriminate].
  destruct h; [|discriminate].
  intros _. eexists. split; reflexivity.
Qed.

(** C8, amended.  With a credential present, an exception thrown by any
    call of the [try] block of [connect] leaves the state machine in Error
    with the message of the exception (or the default one) recorded; with
    the credential missing, [connect] only records the message
    [API Key is missing.] and leaves the connection state as it was. *)
Theorem connect_setup_exception_ends_in_error
    (API_KEY : string) (p : setup) (s : state) (e : exn) :
  API_KEY ≠ ""%string → setup_exception p = Some e →
  connectionState (connect API_KEY p s) = ERROR
  ∧ error (connect API_KEY p s) = Some (message_or_default e)
  ∧ connectionState (connect "" p s) = connectionState s
  ∧ error (connect "" p s) = Some "API Key is missing."%string.
Proof.
  intros Hkey He. unfold connect.
  destruct API_KEY as [|a k]; [congruence|].
  destruct (connect_try_throws p s e He) as [s' ->].
  repeat split; reflexivity.
Qed.

Lemma connect_setup_exception_ends_in_error_witness :
  connectionState
    (connect "key"
       {| new_inputContext := Ok 0%nat;
          new_outputContext := Ok 1%nat;
          input_createAnalyser := Ok 2%nat;
          output_createAnalyser := Ok 3%nat;
          getUserMedia := Throw (mkExn (Some "Permission denied"%string));
          new_GoogleGenAI := Ok tt;
          live_connect := Ok 5%nat |}
       initial_state) = ERROR.
Proof.
  apply (connect_setup_exception_ends_in_error "key" _ initial_state
           (mkExn (Some "Permission denied"%string))).
  - discriminate.
  - reflexivity.
Defined.

(** *** The interruption branch *)

Lemma Math_max_Num (x y : Q) : Math_max (Num x) (Num y) = Num (Qmax x y).
Proof.
  unfold Math_max, lt.
  destruct (Qlt_le_dec x y) as [H|H].
  - f_equal. symmetry. unfold Qmax, GenericMinMax.gmax.
    destruct (x ?= y)%Q eqn:E; try reflexivity.
    + apply Qeq_alt in E. lra.
    + apply Qgt_alt in E. lra.
  - f_equal. symmetry. unfold Qmax, GenericMinMax.gmax.
    destruct (x ?= y)%Q eqn:E; try reflexivity.
    apply Qlt_alt in E. lra.
Qed.

Lemma start_time_Some (x : number) (when : Q) :
  start_time x = Some when ↔ x = Num when ∧ (0 <= when)%Q.
Proof.
  unfold start_time. destruct x as [q| | |]; try (split; [discriminate|]).
  - destruct (Qlt_le_dec q 0) as [H|H]; split.
    + discriminate.
    + intros [[= ->] H']. lra.
    + intros [= ->]. auto.
    + intros [[= ->] _]. reflexivity.
  - intros [H _]. discriminate H.
  - intros [H _]. discriminate H.
  - intros [H _]. discriminate H.
Qed.

Lemma start_time_nonneg (q : Q) : (0 <= q)%Q → start_time (Num q) = Some q.
Proof. intros H. apply start_time_Some. auto. Qed.

Lemma timeline_app (w : world) (l : list call) :
  omap entry_of_call (calls w ++ l) = timeline w ++ omap entry_of_call l.
Proof. unfold timeline. apply omap_app. Qed.

(** What [play_audio] does with a payload that decodes, when the raised
    cursor is a time at which a source can be started, and when it is
    not. *)
Lemma play_audio_decoded (base64Audio : list Z) (now : Q) (w : world)
    (s : state) (audioBuffer : AudioBuffer) (when : Q) :
  decodeAudioData base64Audio 24000 = Some audioBuffer →
  start_time (Math_max (nextStartTimeRef s) (Num now)) = Some when →
  calls (fst (play_audio base64Audio now (w, s)))
  = calls w ++ [SourceStart (fresh w) now when audioBuffer]
  ∧ stopped (fst (play_audio base64Audio now (w, s))) = stopped w
  ∧ fresh (fst (play_audio base64Audio now (w, s))) = S (fresh w)
  ∧ nextStartTimeRef (snd (play_audio base64Audio now (w, s)))
    = add (Num when) (duration audioBuffer)
  ∧ sourcesRef (snd (play_audio base64Audio now (w, s)))
    = {[fresh w]} ∪ sourcesRef s
  ∧ outputContextRef (snd (play_audio base64Audio now (w, s)))
    = outputContextRef s.
Proof.
  intros E Hstart. unfold play_audio. rewrite E.
  cbn [createBufferSource nextStartTimeRef set_nextStartTimeRef].
  rewrite Hstart. apply start_time_Some in Hstart as [-> _].
  cbn. repeat split; reflexivity.
Qed.

Lemma play_audio_not_started (base64Audio : list Z) (now : Q) (w : world)
    (s : state) :
  decodeAudioData base64Audio 24000 = None
  ∨ start_time (Math_max (nextStartTimeRef s) (Num now)) = None →
  calls (fst (play_audio base64Audio now (w, s))) = calls w
  ∧ stopped (fst (play_audio base64Audio now (w, s))) = stopped w
  ∧ (fresh w ≤ fresh (fst (play_audio base64Audio now (w, s))))%nat
  ∧ nextStartTimeRef (snd (play_audio base64Audio now (w, s)))
    = Math_max (nextStartTimeRef s) (Num now)
  ∧ sourcesRef (snd (play_audio base64Audio now (w, s))) = sourcesRef s
  ∧ outputContextRef (snd (play_audio base64Audio now (w, s)))
    = outputContextRef s.
Proof.
  intros H. unfold play_audio.
  destruct (decodeAudioData base64Audio 24000) as [audioBuffer|].
  - destruct H as [H|H]; [discriminate|].
    cbn [createBufferSource nextStartTimeRef set_nextStartTimeRef].
    rewrite H. cbn. repeat split; try reflexivity; lia.
  - cbn. repeat split; try reflexivity; lia.
Qed.

(** A buffer that [decodeAudioData] returns has the requested rate and at
    least one frame. *)
Lemma decodeAudioData_buffer (base64Data : list Z) (rate : Q)
    (audioBuffer : AudioBuffer) :
  decodeAudioData base64Data rate = Some audioBuffer →
  sampleRate audioBuffer = rate
  ∧ (1 ≤ length (channelData audioBuffer))%nat.
Proof.
  unfold decodeAudioData. intros E.
  destruct (base64ToArrayBuffer base64Data) as [arrayBuffer|];
    [|discriminate].
  cbn in E. destruct (Int16Array arrayBuffer) as [dataInt16|]; [|discriminate].
  cbn in E. unfold createBuffer in E.
  destruct (length (decode_int16 dataInt16)) as [|n] eqn:El; [discriminate|].
  cbn [mbind option_bind] in E. injection E as <-.
  cbn [channelData sampleRate]. split; [reflexivity|].
  unfold f32_set_all, new_Float32Array.
  rewrite length_app, length_drop, length_replicate, El. lia.
Qed.

Lemma addTranscription_refs (stamp : string * Z) (t : string)
    (isUser isComplete : bool) (s : state) :
  let s' := addTranscription stamp t isUser isComplete s in
  nextStartTimeRef s' = nextStartTimeRef s
  ∧ sourcesRef s' = sourcesRef s
  ∧ outputContextRef s' = outputContextRef s
  ∧ connectionState s' = connectionState s.
Proof.
  unfold addTranscription.
  destruct (last (transcriptions s)) as [l|]; [|cbn; tauto].
  destruct (Bool.eqb (Types.isUser l) isUser && negb (Types.isComplete l));
    cbn; tauto.
Qed.

Lemma handle_transcriptions_refs (r : readings) (m : LiveServerMessage)
    (ws : world * state) :
  fst (handle_transcriptions r m ws) = fst ws
  ∧ nextStartTimeRef (snd (handle_transcriptions r m ws)) = nextStartTimeRef (snd ws)
  ∧ sourcesRef (snd (handle_transcriptions r m ws)) = sourcesRef (snd ws)
  ∧ outputContextRef (snd (handle_transcriptions r m ws)) = outputContextRef (snd ws).
Proof.
  unfold handle_transcriptions.
  destruct (inputTranscription m) as [t1|];
    destruct (outputTranscription m) as [t2|]; cbn [fst snd];
    repeat match goal with
           | |- context [addTranscription ?a ?b ?c ?d ?s] =>
               let H := fresh in
               pose proof (addTranscription_refs a b c d s) as H;
               cbv zeta in H; destruct H as (-> & -> & -> & _)
           end; tauto.
Qed.

(** A message that enqueues schedules one entry at the later of the cursor
    and the clock, when a source can be started at that time, and moves the
    cursor on by the duration of its buffer. *)
Lemma onmessage_enqueues (r : readings) (m : LiveServerMessage) (w : world)
    (s : state) (when : Q) :
  enqueues m = true → is_Some (outputContextRef s) →
  start_time (Math_max (nextStartTimeRef s) (Num (currentTime r)))
  = Some when →
  ∃ base64Audio audioBuffer,
    inlineData_data m = Some base64Audio
    ∧ decodeAudioData base64Audio 24000 = Some audioBuffer
    ∧ timeline (fst (onmessage r m (w, s)))
      = timeline w ++ [mkEntry (currentTime r) when audioBuffer]
    ∧ nextStartTimeRef (snd (onmessage r m (w, s)))
      = add (Num when) (duration audioBuffer)
    ∧ sourcesRef (snd (onmessage r m (w, s))) = {[fresh w]} ∪ sourcesRef s
    ∧ outputContextRef (snd (onmessage r m (w, s))) = outputContextRef s.
Proof.
  unfold enqueues. intros Hm [ctx Hctx] Hstart.
  apply andb_prop in Hm as [Hint Hm]. apply negb_true_iff in Hint.
  destruct (inlineData_data m) as [b|] eqn:Eb; [|discriminate].
  apply andb_prop in Hm as [Htruthy Hdec].
  apply bool_decide_eq_true in Hdec as [audioBuffer Hdec].
  exists b, audioBuffer. split; [reflexivity|]. split; [exact Hdec|].
  unfold onmessage, handle_audio. rewrite Eb, Hint. cbn [snd].
  rewrite Hctx, Htruthy. cbv zeta.
  destruct (handle_transcriptions_refs r m (play_audio b (currentTime r) (w, s)))
    as (-> & -> & -> & ->).
  destruct (play_audio_decoded b (currentTime r) w s audioBuffer when Hdec
              Hstart) as (Hc & _ & _ & -> & -> & ->).
  unfold timeline at 1. rewrite Hc, timeline_app.
  repeat split; congruence.
Qed.




(** A remote error records its message and tears the session down; the
    teardown is the last to set the connection state. *)
Lemma onerror_tears_down (err : string) (ws : world * state) :
  torn_down (snd (onerror err ws))
  ∧ connectionState (snd (onerror err ws)) = DISCONNECTED
  ∧ error (snd (onerror err ws))
    = Some (String.append "Connection error: " err).
Proof. destruct ws as [w s]. unfold torn_down. cbn. tauto. Qed.

(** With a credential and no exception, [connect] stops in Connecting. *)
Lemma connect_enters_connecting (API_KEY : string) (p : setup) (s : state) :
  API_KEY ≠ ""%string → setup_exception p = None →
  connectionState (connect API_KEY p s) = CONNECTING.
Proof.
  intros Hkey Hp. unfold connect.
  destruct API_KEY as [|a k]; [congruence|].
  destruct (connect_try_returns p s Hp) as (s' & -> & H). exact H.
Qed.

(** Every captured block is packed into an envelope tagged with the target
    rate. *)
Lemma onaudioprocess_packs (rate : Q) (inputData : list number) :
  ∃ blob, onaudioprocess rate inputData = Some blob
    ∧ mimeType_rate blob = 16000%Q
    ∧ base64ToArrayBuffer (data blob)
      = Some (float32To16BitPCM (downsampleBuffer inputData rate 16000)).
Proof.
  unfold onaudioprocess, createPcmBlob.
  destruct (base64_roundtrip _
              (float32To16BitPCM_octets
                 (downsampleBuffer inputData rate 16000)))
    as (base64 & -> & Hback).
  eexists. split; [reflexivity|]. split; [reflexivity|exact Hback].
Qed.

(** ** Playback scheduling *)

Lemma run_cons (rm : readings * LiveServerMessage)
    (events : list (readings * LiveServerMessage)) (ws : world * state) :
  run (rm :: events) ws = run events (onmessage (fst rm) (snd rm) ws).
Proof. reflexivity. Qed.

Lemma u51 : pow2 (-51) == 1 # 2251799813685248.
Proof. reflexivity. Qed.

Lemma by_rounding_le (t x y : Q) :
  (x <= y)%Q → by_rounding t x → by_rounding t y.
Proof.
  unfold by_rounding. rewrite u51. intros H1 H2. lra.
Qed.

Lemma by_rounding_exact (t x : Q) : (0 <= x)%Q → (t <= x)%Q → by_rounding t x.
Proof. unfold by_rounding. rewrite u51. intros H1 H2. lra. Qed.

(** *** The duration of a decoded buffer and the advance of the cursor *)

Lemma seconds_decoded (b : AudioBuffer) :
  sampleRate b = 24000%Q → (1 ≤ length (channelData b))%nat →
  (1 # 24000 <= seconds b)%Q.
Proof.
  intros Hr HL. unfold seconds. rewrite Hr.
  apply Qle_shift_div_l; [reflexivity|].
  setoid_replace ((1 # 24000) * 24000)%Q with (inject_Z 1) using relation Qeq
    by reflexivity.
  rewrite <- Zle_Qle. lia.
Qed.

Lemma duration_decoded (b : AudioBuffer) :
  sampleRate b = 24000%Q → (1 ≤ length (channelData b))%nat →
  duration b = PosInf
  ∨ ∃ dv, duration b = Num dv ∧ (0 < dv)%Q
      ∧ (seconds b * (1 - (1 # 9007199254740992)) <= dv)%Q
      ∧ (dv <= seconds b * (1 + (1 # 9007199254740992)))%Q.
Proof.
  intros Hr HL. pose proof (seconds_decoded b Hr HL) as Hs.
  unfold duration, number_of_nat. rewrite Hr, div_pos by reflexivity.
  unfold seconds in *. rewrite Hr in Hs |- *.
  set (q := (inject_Z (Z.of_nat (length (channelData b))) / 24000)%Q) in *.
  destruct (fl64_pos q ltac:(lra)) as [[-> _]|[H _]]; [left; reflexivity|].
  right. exists (round_pos q). split; [exact H|].
  assert (pow2 (-1022) <= q)%Q as Hn
    by (pose proof pow2_m1022_small; lra).
  destruct (fl64_error _ _ Hn H) as [B1 B2]. rewrite u53 in B1, B2.
  repeat split; [lra|exact B1|exact B2].
Qed.

(** Starting a decoded buffer at a binary64 time [when >= 0] moves the
    cursor to a binary64 value that is not below [when] and that the end of
    the buffer does not pass but for rounding, or to infinity. *)
Lemma cursor_advance (when : Q) (b : AudioBuffer) :
  (0 <= when)%Q → binary64 when →
  sampleRate b = 24000%Q → (1 ≤ length (channelData b))%nat →
  add (Num when) (duration b) = PosInf
  ∨ ∃ c, add (Num when) (duration b) = Num c
      ∧ (when <= c)%Q ∧ binary64 c
      ∧ by_rounding (when + seconds b) c.
Proof.
  intros Hw Hb Hr HL. pose proof (seconds_decoded b Hr HL) as Hs.
  destruct (duration_decoded b Hr HL) as [->|(dv & -> & Hd & D1 & D2)];
    [left; reflexivity|].
  cbn [add].
  destruct (fl64_nonneg (when + dv) ltac:(lra)) as [->|(c & Hc & Hc0)];
    [left; reflexivity|].
  right. exists c. split; [exact Hc|].
  split; [exact (fl64_add_ge when dv c Hw ltac:(lra) Hb Hc)|].
  split; [exact (fl64_binary64 (when + dv) c ltac:(lra) Hc)|].
  assert (pow2 (-1022) <= when + dv)%Q as Hn
    by (pose proof pow2_m1022_small; lra).
  destruct (fl64_error _ _ Hn Hc) as [B1 _]. rewrite u53 in B1.
  unfold by_rounding. rewrite u51. lra.
Qed.

Lemma binary64_max (x y : Q) : binary64 x → binary64 y → binary64 (Qmax x y).
Proof.
  intros Hx Hy. unfold Qmax, GenericMinMax.gmax.
  destruct (x ?= y)%Q; assumption.
Qed.

Lemma Qmax_again (c x y : Q) : (x <= y)%Q → Qmax (Qmax c x) y == Qmax c y.
Proof.
  intros H.
  destruct (Q.max_spec c x) as [[H1 E1]|[H1 E1]];
    destruct (Q.max_spec (Qmax c x) y) as [[H2 E2]|[H2 E2]];
    destruct (Q.max_spec c y) as [[H3 E3]|[H3 E3]];
    rewrite ?E1 in *; lra.
Qed.

(** *** One message without interruption *)

Lemma payload_enqueues (m : LiveServerMessage) (b : AudioBuffer) :
  interrupted m = false → payload m = Some b → enqueues m = true.
Proof.
  unfold payload, enqueues. intros -> H.
  destruct (inlineData_data m) as [a|]; [|discriminate].
  destruct (truthy a); [|discriminate].
  cbn. apply bool_decide_eq_true. rewrite H. eexists. reflexivity.
Qed.

Lemma onmessage_payload (r : readings) (m : LiveServerMessage) (w : world)
    (s : state) (c0 : Q) (b : AudioBuffer) :
  interrupted m = false → is_Some (outputContextRef s) →
  nextStartTimeRef s = Num c0 → (0 <= c0)%Q → payload m = Some b →
  timeline (fst (onmessage r m (w, s)))
  = timeline w ++ [mkEntry (currentTime r) (Qmax c0 (currentTime r)) b]
  ∧ nextStartTimeRef (snd (onmessage r m (w, s)))
    = add (Num (Qmax c0 (currentTime r))) (duration b)
  ∧ outputContextRef (snd (onmessage r m (w, s))) = outputContextRef s.
Proof.
  intros Hint Hctx Hc Hc0 Hp.
  assert (start_time (Math_max (nextStartTimeRef s) (Num (currentTime r)))
          = Some (Qmax c0 (currentTime r))) as Hstart.
  { rewrite Hc, Math_max_Num. apply start_time_nonneg.
    pose proof (Q.le_max_l c0 (currentTime r)). lra. }
  destruct (onmessage_enqueues r m w s _ (payload_enqueues m b Hint Hp) Hctx
              Hstart) as (a & b' & Ha & Hb & Ht & Hcur & _ & Hctx').
  unfold payload in Hp. rewrite Ha in Hp.
  destruct (truthy a); [|discriminate].
  assert (b' = b) as -> by congruence.
  repeat split; assumption.
Qed.

Lemma onmessage_no_payload (r : readings) (m : LiveServerMessage) (w : world)
    (s : state) :
  interrupted m = false → payload m = None →
  calls (fst (onmessage r m (w, s))) = calls w
  ∧ stopped (fst (onmessage r m (w, s))) = stopped w
  ∧ (nextStartTimeRef (snd (onmessage r m (w, s))) = nextStartTimeRef s
     ∨ nextStartTimeRef (snd (onmessage r m (w, s)))
       = Math_max (nextStartTimeRef s) (Num (currentTime r)))
  ∧ sourcesRef (snd (onmessage r m (w, s))) = sourcesRef s
  ∧ outputContextRef (snd (onmessage r m (w, s))) = outputContextRef s.
Proof.
  intros Hint Hp. unfold onmessage. rewrite Hint.
  destruct (handle_transcriptions_refs r m (handle_audio r m (w, s)))
    as (-> & -> & -> & ->).
  unfold handle_audio, payload in *. cbn [snd].
  destruct (inlineData_data m) as [a|]; [|cbn; tauto].
  destruct (outputContextRef s) eqn:Ectx; [|cbn; tauto].
  destruct (truthy a); [|cbn; tauto].
  destruct (play_audio_not_started a (currentTime r) w s (or_introl Hp))
    as (-> & -> & _ & -> & -> & ->).
  tauto.
Qed.

(** Without an interruption an infinite cursor stays infinite. *)
Lemma onmessage_infinite (r : readings) (m : LiveServerMessage) (w : world)
    (s : state) :
  interrupted m = false → nextStartTimeRef s = PosInf →
  nextStartTimeRef (snd (onmessage r m (w, s))) = PosInf.
Proof.
  intros Hint Hc. unfold onmessage. rewrite Hint.
  destruct (handle_transcriptions_refs r m (handle_audio r m (w, s)))
    as (_ & -> & _ & _).
  unfold handle_audio. cbn [snd].
  destruct (inlineData_data m) as [a|]; [|exact Hc].
  destruct (outputContextRef s); [|exact Hc].
  destruct (truthy a); [|exact Hc].
  destruct (play_audio_not_started a (currentTime r) w s) as (_ & _ & _ & -> & _).
  - right. rewrite Hc. reflexivity.
  - rewrite Hc. reflexivity.
Qed.

Lemma run_infinite (events : list (readings * LiveServerMessage)) (w : world)
    (s : state) :
  forallb (fun rm => negb (interrupted (snd rm))) events = true →
  nextStartTimeRef s = PosInf →
  nextStartTimeRef (snd (run events (w, s))) = PosInf.
Proof.
  revert w s. induction events as [|rm events IH]; intros w s Hev Hc.
  - exact Hc.
  - cbn [forallb] in Hev. apply andb_prop in Hev as [Hm Hev].
    apply negb_true_iff in Hm. rewrite run_cons.
    pose proof (onmessage_infinite (fst rm) (snd rm) w s Hm Hc) as H.
    destruct (onmessage (fst rm) (snd rm) (w, s)) as [w1 s1].
    apply IH; assumption.
Qed.

Lemma omap_cons_match {A B : Type} (f : A → option B) (x : A) (l : list A) :
  omap f (x :: l)
  = match f x with Some y => y :: omap f l | None => omap f l end.
Proof. reflexivity. Qed.

Lemma payload_buffer (m : LiveServerMessage) (b : AudioBuffer) :
  payload m = Some b →
  sampleRate b = 24000%Q ∧ (1 ≤ length (channelData b))%nat.
Proof.
  unfold payload. destruct (inlineData_data m) as [a|]; [|discriminate].
  destruct (truthy a); [|discriminate]. apply decodeAudioData_buffer.
Qed.

(** What a message without payload and without interruption leaves of a
    finite cursor [c0]: [c0] itself, or the later of [c0] and the clock. *)
Lemma onmessage_no_payload_cursor (r : readings) (m : LiveServerMessage)
    (w : world) (s : state) (c0 : Q) :
  interrupted m = false → payload m = None →
  nextStartTimeRef s = Num c0 → binary64 c0 → binary64 (currentTime r) →
  ∃ c1, nextStartTimeRef (snd (onmessage r m (w, s))) = Num c1
    ∧ (c0 <= c1)%Q ∧ binary64 c1
    ∧ (∀ a, (currentTime r <= a)%Q → Qmax c1 a == Qmax c0 a).
Proof.
  intros Hint Hp Hc Hb Hnow.
  destruct (onmessage_no_payload r m w s Hint Hp) as (_ & _ & [H|H] & _).
  - exists c0. rewrite H. split; [exact Hc|]. split; [lra|].
    split; [exact Hb|]. reflexivity.
  - exists (Qmax c0 (currentTime r)). rewrite H, Hc, Math_max_Num.
    split; [reflexivity|]. split; [apply Q.le_max_l|].
    split; [apply binary64_max; assumption|].
    intros a Ha. apply Qmax_again, Ha.
Qed.

(** C1, as stated (when buffers arrive faster than they play, each start
    is the previous start plus the previous duration, and no two entries
    overlap) fails by rounding: two buffers of 3 samples arrive at clock
    reading 1.  The first is scheduled at 1 and plays 3/24000 seconds; the
    cursor becomes the binary64 sum of 1 and the binary64 duration, which is
    below 1 + 3/24000, and the second buffer starts there, before the first
    has ended. *)
Lemma playback_exact_sum_fails :
  ∃ e1 e2,
    timeline
      (fst (run
              [(mkReadings 1 (""%string, 0) (""%string, 0),
                mkMessage (Some [65; 65; 65; 65; 65; 65; 65; 65]) None None
                  false);
               (mkReadings 1 (""%string, 0) (""%string, 0),
                mkMessage (Some [65; 65; 65; 65; 65; 65; 65; 65]) None None
                  false)]
              (initial_world,
               set_outputContextRef (Some 0%nat) initial_state)))
    = [e1; e2]
    ∧ length (channelData (buffer e1)) = 3%nat
    ∧ (arrival e2 <= finish e1)%Q
    ∧ (start e2 < finish e1)%Q
    ∧ ¬ start e2 == (start e1 + seconds (buffer e1))%Q
    ∧ (∀ d, duration (buffer e1) = Num d →
         ¬ start e2 == (start e1 + d)%Q).
Proof.
  eexists. eexists. split; [vm_compute; reflexivity|].
  split; [reflexivity|].
  split; [vm_compute; discriminate|].
  split; [vm_compute; reflexivity|].
  split; [vm_compute; discriminate|].
  intros d Hd. vm_compute in Hd. injection Hd as <-.
  vm_compute. discriminate.
Qed.

(** C1, amended.  Take any sequence of messages without interruption (with
    or without audio, decodable or not) delivered while an output context is
    referenced, the clock readings being binary64 values that never
    decrease, from a cursor that is a binary64 value [c0 >= 0], the cursor
    staying finite.  Then the entries scheduled are, in order, the decoded
    buffers of the messages that carry one; each starts at the later of the
    cursor and the clock reading of its handler, and the cursor moves to the
    binary64 sum of that start and the binary64 duration of the buffer; an
    entry starts at the later of its clock reading and that sum of the
    entry before it, so at that sum when it arrives no later; and every
    entry's sum is no later than the start of every later entry, so that
    the end of the entry itself is no later but for rounding. *)
Theorem playback_scheduler_no_overlap
    (events : list (readings * LiveServerMessage)) (w : world) (s : state)
    (c0 T : Q) :
  forallb (fun rm => negb (interrupted (snd rm))) events = true →
  is_Some (outputContextRef s) →
  nextStartTimeRef s = Num c0 → (0 <= c0)%Q → binary64 c0 →
  clock_ok T events →
  (∃ c, nextStartTimeRef (snd (run events (w, s))) = Num c) →
  ∃ new : list entry,
    timeline (fst (run events (w, s))) = timeline w ++ new
    ∧ map (fun e => (arrival e, buffer e)) new
      = omap (fun rm => pair (currentTime (fst rm)) <$> payload (snd rm))
          events
    ∧ (∀ (k : nat) rm b, events !! k = Some rm → payload (snd rm) = Some b →
         ∃ c e,
           nextStartTimeRef (snd (run (take k events) (w, s))) = Num c
           ∧ timeline (fst (run (take (S k) events) (w, s)))
             = timeline (fst (run (take k events) (w, s))) ++ [e]
           ∧ arrival e = currentTime (fst rm) ∧ buffer e = b
           ∧ start e = Qmax c (currentTime (fst rm))
           ∧ nextStartTimeRef (snd (run (take (S k) events) (w, s)))
             = add (Num (start e)) (duration b))
    ∧ (∀ (k : nat) e, new !! k = Some e →
         (T <= arrival e)%Q ∧ (c0 <= start e)%Q ∧ (arrival e <= start e)%Q)
    ∧ (∀ e, new !! 0%nat = Some e → start e == Qmax c0 (arrival e))
    ∧ (∀ (k : nat) e1 e2, new !! k = Some e1 → new !! S k = Some e2 →
         ∃ c, add (Num (start e1)) (duration (buffer e1)) = Num c
           ∧ start e2 == Qmax c (arrival e2)
           ∧ ((arrival e2 <= c)%Q → start e2 == c))
    ∧ (∀ (j k : nat) e1 e2, (j < k)%nat →
         new !! j = Some e1 → new !! k = Some e2 →
         ∃ c, add (Num (start e1)) (duration (buffer e1)) = Num c
           ∧ (c <= start e2)%Q
           ∧ by_rounding (finish e1) (start e2)).
Proof.
  revert w s c0 T.
  induction events as [|rm events IH]; intros w s c0 T Hev Hctx Hc Hc0 Hb
    Hclock Hfin.
  - exists []. cbn. rewrite app_nil_r.
    repeat split; try reflexivity; intros; discriminate.
  - cbn [forallb] in Hev. apply andb_prop in Hev as [Hm Hev].
    apply negb_true_iff in Hm.
    destruct Hclock as (HT & Hnow & Hclock).
    rewrite run_cons in Hfin |- *.
    destruct (payload (snd rm)) as [b|] eqn:Hp.
    + (* the message enqueues [b] *)
      destruct (onmessage_payload (fst rm) (snd rm) w s c0 b Hm Hctx Hc Hc0
                  Hp) as (Ht & Hcur & Hctx').
      destruct (payload_buffer _ _ Hp) as [Hrate Hframes].
      pose proof (Q.le_max_l c0 (currentTime (fst rm))) as Hmax_l.
      pose proof (Q.le_max_r c0 (currentTime (fst rm))) as Hmax_r.
      pose proof (binary64_max _ _ Hb Hnow) as Hbw.
      set (when := Qmax c0 (currentTime (fst rm))) in *.
      set (e0 := mkEntry (currentTime (fst rm)) when b) in *.
      destruct (onmessage (fst rm) (snd rm) (w, s)) as [w1 s1] eqn:E1.
      cbn [fst snd] in Ht, Hcur, Hctx'.
      assert (Hctx1 : is_Some (outputContextRef s1)) by now rewrite Hctx'.
      destruct (cursor_advance when b ltac:(lra) Hbw Hrate Hframes)
        as [Hinf|(c1 & Hc1 & Hle1 & Hb1 & Hend)].
      { exfalso. rewrite Hinf in Hcur.
        rewrite (run_infinite events w1 s1 Hev Hcur) in Hfin.
        destruct Hfin as [c Hfin]. discriminate. }
      rewrite Hc1 in Hcur.
      destruct (IH w1 s1 c1 (currentTime (fst rm)) Hev Hctx1 Hcur
                  ltac:(lra) Hb1 Hclock Hfin)
        as (new & Htl & Hmap & Hmsg & Hbounds & Hfirst & Hnext & Hsep).
      exists (e0 :: new).
      split; [rewrite Htl, Ht, <- app_assoc; reflexivity|].
      split; [rewrite omap_cons_match, Hp; cbn; now rewrite Hmap|].
      split; [|split; [|split; [|split]]].
      * intros [|k] rm' b' Hrm Hb'; cbn in Hrm.
        -- injection Hrm as <-. assert (b' = b) as -> by congruence.
           exists c0, e0. rewrite take_0, firstn_cons, take_0.
           cbn [run fold_left]. rewrite E1. cbn [fst snd].
           repeat split; [exact Hc|exact Ht|].
           rewrite Hcur. symmetry. exact Hc1.
        -- rewrite !firstn_cons, !run_cons, E1. now apply Hmsg.
      * intros [|k] e He; cbn in He.
        -- injection He as <-. subst e0. cbn [arrival start].
           clearbody when. repeat split; lra.
        -- destruct (Hbounds k e He) as (A1 & A2 & A3).
           clearbody when. repeat split; lra.
      * intros e He. cbn in He. injection He as <-. reflexivity.
      * intros [|k] e1 e2 H1 H2; cbn in H1, H2.
        -- injection H1 as <-. exists c1. split; [exact Hc1|].
           pose proof (Hfirst e2 H2) as Hs2. split; [exact Hs2|].
           intros Harr. rewrite Hs2. now apply Q.max_l.
        -- now apply (Hnext k).
      * intros [|j] [|k] e1 e2 Hjk H1 H2; try lia; cbn in H1, H2.
        -- injection H1 as <-. exists c1. split; [exact Hc1|].
           destruct (Hbounds k e2 H2) as (_ & A2 & _).
           split; [exact A2|]. exact (by_rounding_le _ _ _ A2 Hend).
        -- apply (Hsep j k); [lia|assumption..].
    + (* the message enqueues nothing *)
      destruct (onmessage_no_payload (fst rm) (snd rm) w s Hm Hp)
        as (Hcalls & _ & _ & _ & Hctx').
      destruct (onmessage_no_payload_cursor (fst rm) (snd rm) w s c0 Hm Hp
                  Hc Hb Hnow) as (c1 & Hcur & Hle1 & Hb1 & Hmax).
      destruct (onmessage (fst rm) (snd rm) (w, s)) as [w1 s1] eqn:E1.
      cbn [fst snd] in Hcalls, Hcur, Hctx'.
      assert (Hctx1 : is_Some (outputContextRef s1)) by now rewrite Hctx'.
      assert (Ht : timeline w1 = timeline w)
        by (unfold timeline; now rewrite Hcalls).
      destruct (IH w1 s1 c1 (currentTime (fst rm)) Hev Hctx1 Hcur
                  ltac:(lra) Hb1 Hclock Hfin)
        as (new & Htl & Hmap & Hmsg & Hbounds & Hfirst & Hnext & Hsep).
      exists new.
      split; [now rewrite Htl, Ht|].
      split; [rewrite omap_cons_match, Hp; cbn; exact Hmap|].
      split; [|split; [|split; [|split]]].
      * intros [|k] rm' b' Hrm Hb'; cbn in Hrm.
        -- injection Hrm as <-. congruence.
        -- rewrite !firstn_cons, !run_cons, E1. now apply Hmsg.
      * intros k e He. destruct (Hbounds k e He) as (A1 & A2 & A3).
        repeat split; lra.
      * intros e He. destruct (Hbounds 0%nat e He) as (A1 & _ & _).
        rewrite (Hfirst e He). apply Hmax, A1.
      * exact Hnext.
      * exact Hsep.
Qed.

Lemma playback_scheduler_no_overlap_witness :
  ∃ new : list entry,
    timeline
      (fst (run
              [(mkReadings 1 (""%string, 0) (""%string, 0),
                mkMessage (Some [65; 65; 65; 61]) None None false);
               (mkReadings 1 (""%string, 0) (""%string, 0),
                mkMessage None (Some "hola"%string) None false);
               (mkReadings 2 (""%string, 0) (""%string, 0),
                mkMessage (Some [65; 65; 65; 65; 65; 65; 65; 65]) None None
                  false)]
              (initial_world, set_outputContextRef (Some 0%nat) initial_state)))
    = timeline initial_world ++ new
    ∧ map (fun e => (arrival e, buffer e)) new
      = omap (fun rm => pair (currentTime (fst rm)) <$> payload (snd rm))
          [(mkReadings 1 (""%string, 0) (""%string, 0),
            mkMessage (Some [65; 65; 65; 61]) None None false);
           (mkReadings 1 (""%string, 0) (""%string, 0),
            mkMessage None (Some "hola"%string) None false);
           (mkReadings 2 (""%string, 0) (""%string, 0),
            mkMessage (Some [65; 65; 65; 65; 65; 65; 65; 65]) None None
              false)]
    ∧ ∀ (j k : nat) e1 e2, (j < k)%nat →
        new !! j = Some e1 → new !! k = Some e2 →
        ∃ c, add (Num (start e1)) (duration (buffer e1)) = Num c
          ∧ (c <= start e2)%Q
          ∧ by_rounding (finish e1) (start e2).
Proof.
  destruct
    (playback_scheduler_no_overlap
       [(mkReadings 1 (""%string, 0) (""%string, 0),
         mkMessage (Some [65; 65; 65; 61]) None None false);
        (mkReadings 1 (""%string, 0) (""%string, 0),
         mkMessage None (Some "hola"%string) None false);
        (mkReadings 2 (""%string, 0) (""%string, 0),
         mkMessage (Some [65; 65; 65; 65; 65; 65; 65; 65]) None None false)]
       initial_world (set_outputContextRef (Some 0%nat) initial_state) 0 0)
    as (new & H1 & H2 & _ & _ & _ & _ & H7).
  - vm_compute. reflexivity.
  - eexists. reflexivity.
  - reflexivity.
  - vm_compute. discriminate.
  - exists 0%Q. split; reflexivity.
  - cbn [clock_ok fst currentTime].
    repeat split; try (vm_compute; discriminate);
      eexists; (split; [vm_compute; reflexivity|reflexivity]).
  - eexists. vm_compute. reflexivity.
  - exists new. repeat split; assumption.
Defined.

(** Natural completion of a source only removes its handle from the live
    set: the cursor and the timeline stay as they are. *)
Lemma onended_keeps_schedule (source : nat) (ws : world * state) :
  fst (onended source ws) = fst ws
  ∧ nextStartTimeRef (snd (onended source ws)) = nextStartTimeRef (snd ws)
  ∧ sourcesRef (snd (onended source ws)) = sourcesRef (snd ws) ∖ {[source]}
  ∧ connectionState (snd (onended source ws)) = connectionState (snd ws).
Proof. repeat split; reflexivity. Qed.

(** ** Base64 and decoding, for any buffer *)

(** X1.  For every buffer of bytes, [arrayBufferToBase64] returns a text
    (it never raises), and [base64ToArrayBuffer] maps that text back to the
    same bytes. *)
Theorem base64_roundtrip_any_buffer (buffer : list Z) :
  Forall is_octet buffer →
  ∃ base64, arrayBufferToBase64 buffer = Some base64
    ∧ base64ToArrayBuffer base64 = Some buffer.
Proof. apply base64_roundtrip. Qed.

Lemma base64_roundtrip_any_buffer_witness :
  ∃ base64, arrayBufferToBase64 [0; 255; 16; 7] = Some base64
    ∧ base64ToArrayBuffer base64 = Some [0; 255; 16; 7].
Proof.
  apply (base64_roundtrip_any_buffer [0; 255; 16; 7]).
  repeat constructor; unfold is_octet; lia.
Defined.

Lemma length_encoded (bs : list Z) :
  length (map char_of_sextet (sextets_of_octets bs) ++ padding bs)
  = (4 * ((length bs + 2) / 3))%nat.
Proof.
  induction bs as [|a|a b|a b c l IH] using list_ind3; try reflexivity.
  cbn [sextets_of_octets padding map app length] in *.
  rewrite IH.
  replace (S (S (S (length l))) + 2)%nat with (1 * 3 + (length l + 2))%nat
    by lia.
  rewrite Nat.div_add_l by lia. lia.
Qed.

Lemma char_of_sextet_in_alphabet (s : Z) :
  is_sextet s → is_Some (sextet_of_char (char_of_sextet s)).
Proof. intros Hs. rewrite sextet_of_char_of_sextet by assumption. eauto. Qed.

(** X2.  The text [arrayBufferToBase64] produces for [n] bytes has
    [4 * ceil (n / 3)] characters, each a character of the base64 alphabet
    or the padding sign [=]. *)
Theorem arrayBufferToBase64_shape (buffer : list Z) :
  Forall is_octet buffer →
  ∃ base64, arrayBufferToBase64 buffer = Some base64
    ∧ length base64 = (4 * ((length buffer + 2) / 3))%nat
    ∧ Forall (fun c => is_Some (sextet_of_char c) ∨ c = 61) base64.
Proof.
  intros Hb. eexists. split; [now apply arrayBufferToBase64_octets|].
  split; [apply length_encoded|].
  apply Forall_app. split.
  - apply Forall_map.
    apply (Forall_impl _ _ _ (sextets_of_octets_range buffer Hb)).
    intros s Hs. left. now apply char_of_sextet_in_alphabet.
  - destruct (padding_cases buffer) as [-> | [-> | ->]];
      repeat constructor; now right.
Qed.

Lemma arrayBufferToBase64_shape_witness :
  ∃ base64, arrayBufferToBase64 [1; 2; 3; 4] = Some base64
    ∧ length base64 = 8%nat
    ∧ Forall (fun c => is_Some (sextet_of_char c) ∨ c = 61) base64.
Proof.
  apply (arrayBufferToBase64_shape [1; 2; 3; 4]).
  repeat constructor; unfold is_octet; lia.
Defined.

(** *** Decoding *)

Lemma list_ind2 {A : Type} (P : list A → Prop) :
  P [] → (∀ a, P [a]) → (∀ a b l, P l → P (a :: b :: l)) → ∀ l, P l.
Proof.
  intros H0 H1 H2 l.
  assert (H : P l ∧ ∀ a, P (a :: l)).
  { induction l as [|x l [IH0 IH1]]; [auto|].
    split; [apply IH1|]. intros a. apply H2, IH0. }
  apply H.
Qed.

Lemma Int16Array_Some (bytes l : list Z) :
  Int16Array bytes = Some l →
  length bytes = (2 * length l)%nat
  ∧ Forall (fun z => -32768 <= z <= 32767) l.
Proof.
  revert l. induction bytes as [|a|a b bytes IH] using list_ind2; intros l E.
  - injection E as <-. split; [reflexivity|constructor].
  - discriminate.
  - cbn [Int16Array] in E.
    destruct (Int16Array bytes) as [l'|]; [|discriminate].
    injection E as <-. destruct (IH l' eq_refl) as [Hlen Hall].
    split; [cbn [length]; lia|].
    constructor; [apply wrap16_range|exact Hall].
Qed.

Lemma Int16Array_is_Some (bytes : list Z) :
  is_Some (Int16Array bytes) ↔ Nat.Even (length bytes).
Proof.
  induction bytes as [|a|a b bytes IH] using list_ind2.
  - split; [intros _; exists 0%nat; reflexivity|eauto].
  - split; [intros [l E]; discriminate|].
    intros [k Hk]. cbn [length] in Hk. lia.
  - cbn [Int16Array length].
    destruct (Int16Array bytes) as [l|].
    + split; [|eauto]. intros _.
      destruct (proj1 IH) as [k Hk]; [eauto|].
      exists (S k). lia.
    + split; [intros [l E]; discriminate|].
      intros [k Hk].
      assert (Hev : Nat.Even (length bytes)) by (exists (k - 1)%nat; lia).
      apply IH in Hev. destruct Hev as [l E]. discriminate.
Qed.

Lemma length_decode_int16 (l : list Z) : length (decode_int16 l) = length l.
Proof. rewrite decode_int16_map. apply length_map. Qed.

(** What [decodeAudioData] returns once the base64 text has given its
    bytes. *)
Lemma decodeAudioData_bytes (base64Data bytes : list Z) (rate : Q) :
  base64ToArrayBuffer base64Data = Some bytes →
  decodeAudioData base64Data rate
  = match Int16Array bytes with
    | Some [] | None => None
    | Some dataInt16 =>
        Some (mkAudioBuffer (map Design.reverse dataInt16) rate)
    end.
Proof.
  intros E. unfold decodeAudioData. rewrite E. cbn [mbind option_bind].
  destruct (Int16Array bytes) as [l|]; [|reflexivity].
  cbn [mbind option_bind]. rewrite length_decode_int16, decode_int16_map.
  destruct l as [|z l]; [reflexivity|].
  cbn [length createBuffer mbind option_bind channelData sampleRate].
  f_equal. f_equal. unfold f32_set_all, new_Float32Array.
  rewrite drop_ge; [apply app_nil_r|].
  rewrite length_replicate, length_map. cbn [length]. lia.
Qed.

(** X3.  [decodeAudioData] resolves exactly when the base64 text decodes to
    a non-empty, even number of bytes: invalid base64, an empty payload and
    an odd byte count all reject. *)
Theorem decodeAudioData_resolves_iff (base64Data : list Z) (rate : Q) :
  is_Some (decodeAudioData base64Data rate)
  ↔ ∃ bytes, base64ToArrayBuffer base64Data = Some bytes
      ∧ bytes ≠ [] ∧ Nat.Even (length bytes).
Proof.
  split.
  - intros Hs.
    destruct (base64ToArrayBuffer base64Data) as [bytes|] eqn:E.
    + exists bytes. split; [reflexivity|].
      rewrite (decodeAudioData_bytes _ _ _ E) in Hs.
      destruct (Int16Array bytes) as [l|] eqn:El.
      * split; [|apply Int16Array_is_Some; rewrite El; eauto].
        intros ->. cbn in El. injection El as <-.
        destruct Hs as [x Hx]. discriminate.
      * destruct Hs as [x Hx]. discriminate.
    + unfold decodeAudioData in Hs. rewrite E in Hs.
      destruct Hs as [x Hx]. discriminate.
  - intros (bytes & E & Hne & Hev).
    rewrite (decodeAudioData_bytes _ _ _ E).
    apply Int16Array_is_Some in Hev. destruct Hev as [l El]. rewrite El.
    destruct l as [|z l]; [|eauto].
    apply Int16Array_Some in El as [Hlen _].
    destruct bytes; [congruence|discriminate].
Qed.

(** X4.  A buffer returned by [decodeAudioData] has the requested sample
    rate, one sample for every two decoded bytes, at least one sample, and
    every sample is a finite value in [-1, 1). *)
Theorem decodeAudioData_shape (base64Data : list Z) (rate : Q)
    (audioBuffer : AudioBuffer) :
  decodeAudioData base64Data rate = Some audioBuffer →
  sampleRate audioBuffer = rate
  ∧ channelData audioBuffer ≠ []
  ∧ (∃ bytes, base64ToArrayBuffer base64Data = Some bytes
       ∧ length bytes = (2 * length (channelData audioBuffer))%nat)
  ∧ Forall (fun x => ∃ q, x = Num q ∧ (-1 <= q < 1)%Q)
      (channelData audioBuffer).
Proof.
  intros E.
  destruct (base64ToArrayBuffer base64Data) as [bytes|] eqn:Eb;
    [|unfold decodeAudioData in E; rewrite Eb in E; discriminate].
  rewrite (decodeAudioData_bytes _ _ _ Eb) in E.
  destruct (Int16Array bytes) as [l|] eqn:El; [|discriminate].
  destruct (Int16Array_Some _ _ El) as [Hlen Hall].
  destruct l as [|z l]; [discriminate|]. injection E as <-.
  cbn [sampleRate channelData].
  split; [reflexivity|]. split; [discriminate|]. split.
  - exists bytes. split; [reflexivity|].
    rewrite Hlen. cbn [length map]. now rewrite length_map.
  - change (Forall (fun x => ∃ q, x = Num q ∧ (-1 <= q < 1)%Q)
              (map Design.reverse (z :: l))).
    rewrite List.Forall_map. apply (Forall_impl _ _ _ Hall).
    intros v [Hlo Hhi]. eexists. split; [reflexivity|].
    unfold Qdiv. change (/ 32768)%Q with (1 # 32768)%Q.
    rewrite Zle_Qle in Hlo, Hhi.
    change (inject_Z (-32768)) with (-32768)%Q in Hlo.
    change (inject_Z 32767) with 32767%Q in Hhi.
    split; lra.
Qed.

Lemma decodeAudioData_shape_witness :
  sampleRate (mkAudioBuffer [Num (0 / 32768)] 24000) = 24000%Q.
Proof.
  apply (decodeAudioData_shape [65; 65; 65; 61] 24000
           (mkAudioBuffer [Num (0 / 32768)] 24000)).
  reflexivity.
Defined.

(** ** Order of the forward conversion; capture to playback *)

(** *** Order and saturation of the forward conversion *)

Lemma Qtrunc_sign_nonpos (p : Q) : (p <= 0)%Q → Qtrunc p <= 0.
Proof.
  intros Hp. destruct (Qtrunc_neg_bounds p Hp) as [B1 _].
  assert (Qtrunc p < 1); [|lia]. apply inject_Z_lt_inv.
  change (inject_Z 1) with 1%Q. lra.
Qed.

Lemma Qtrunc_sign_nonneg (p : Q) : (0 <= p)%Q → 0 <= Qtrunc p.
Proof.
  intros Hp. destruct (Qtrunc_pos_bounds p Hp) as [_ B2].
  assert (-1 < Qtrunc p); [|lia]. apply inject_Z_lt_inv.
  change (inject_Z (-1)) with (-1)%Q. lra.
Qed.

Lemma Qtrunc_monotone (p q : Q) : (p <= q)%Q → Qtrunc p <= Qtrunc q.
Proof.
  intros H. destruct (Qlt_le_dec p 0) as [Hp|Hp];
    destruct (Qlt_le_dec q 0) as [Hq|Hq].
  - rewrite !Qtrunc_nonpos by lra. now apply Qceiling_resp_le.
  - transitivity 0; [apply Qtrunc_sign_nonpos|apply Qtrunc_sign_nonneg]; lra.
  - lra.
  - rewrite !Qtrunc_nonneg by lra. now apply Qfloor_resp_le.
Qed.

Lemma forward_monotone (p q : Q) :
  (p <= q)%Q → Design.forward (Num p) <= Design.forward (Num q).
Proof.
  intros H. unfold Design.forward, Design.clamp.
  repeat match goal with
         | |- context [Qlt_le_dec ?a ?b] => destruct (Qlt_le_dec a b)
         end;
    try (exfalso; lra);
    first
      [ apply Qtrunc_monotone; lra
      | transitivity 0;
        [apply Qtrunc_sign_nonpos|apply Qtrunc_sign_nonneg]; lra ].
Qed.

Lemma forward_saturates_high (q : Q) :
  (1 <= q)%Q → Design.forward (Num q) = 32767.
Proof.
  intros H. unfold Design.forward, Design.clamp.
  destruct (Qlt_le_dec q (-1)); [exfalso; lra|].
  destruct (Qlt_le_dec 1 q); [reflexivity|].
  destruct (Qlt_le_dec q 0); [exfalso; lra|].
  transitivity (Qtrunc (1 * 32767)); [apply Qtrunc_comp; lra|reflexivity].
Qed.

Lemma forward_saturates_low (q : Q) :
  (q <= -1)%Q → Design.forward (Num q) = -32768.
Proof.
  intros H. unfold Design.forward, Design.clamp.
  destruct (Qlt_le_dec q (-1)); [reflexivity|].
  destruct (Qlt_le_dec 1 q); [exfalso; lra|].
  destruct (Qlt_le_dec q 0); [|exfalso; lra].
  transitivity (Qtrunc (-1 * 32768)); [apply Qtrunc_comp; lra|reflexivity].
Qed.

(** X5.  The 16-bit integer [float32To16BitPCM] stores for a sample grows
    with the sample (a louder sample never encodes to a smaller integer, and
    the change of scale factor at zero does not break the order), keeps its
    sign, and saturates: every sample at or above 1 encodes to 32767, every
    sample at or below -1 to -32768. *)
Theorem pcm_value_order_preserving (p q : Q) :
  (p <= q)%Q →
  ToInt16 (pcm_value (Num p)) <= ToInt16 (pcm_value (Num q))
  ∧ ((1 <= p)%Q → ToInt16 (pcm_value (Num p)) = 32767)
  ∧ ((q <= -1)%Q → ToInt16 (pcm_value (Num q)) = -32768)
  ∧ ((0 <= p)%Q → 0 <= ToInt16 (pcm_value (Num p)))
  ∧ ((q <= 0)%Q → ToInt16 (pcm_value (Num q)) <= 0).
Proof.
  intros H. rewrite !ToInt16_pcm_value.
  split; [now apply forward_monotone|].
  split; [apply forward_saturates_high|].
  split; [apply forward_saturates_low|].
  split.
  - intros Hp.
    change 0 with (Design.forward (Num 0)). now apply forward_monotone.
  - intros Hq.
    change 0 with (Design.forward (Num 0)). now apply forward_monotone.
Qed.

Lemma pcm_value_order_preserving_witness :
  ToInt16 (pcm_value (Num (-1 # 4))) <= ToInt16 (pcm_value (Num (1 # 4))).
Proof.
  apply (pcm_value_order_preserving (-1 # 4) (1 # 4)).
  vm_compute. discriminate.
Defined.

(** X6.  [float32To16BitPCM] writes exactly two bytes per sample, each in
    [0, 256), whatever the samples are (NaN and the infinities included). *)
Theorem float32To16BitPCM_two_bytes_per_sample (frame : list number) :
  length (float32To16BitPCM frame) = (2 * length frame)%nat
  ∧ Forall is_octet (float32To16BitPCM frame)
  ∧ is_Some (Int16Array (float32To16BitPCM frame)).
Proof.
  split; [|split].
  - rewrite float32To16BitPCM_bytes.
    rewrite (flat_map_constant_length (c := 2%nat)) by done. lia.
  - apply float32To16BitPCM_octets.
  - rewrite Int16Array_float32To16BitPCM. eauto.
Qed.

(** *** The capture side and the playback side together *)

(** X7.  The envelope [createPcmBlob] builds from a non-empty frame carries
    the given rate, and [decodeAudioData] turns its text back into a buffer
    with one sample per input sample: the 16-bit integer of the forward
    conversion divided by 32768.  For the empty frame the envelope holds the
    empty text, which [decodeAudioData] rejects. *)
Theorem createPcmBlob_then_decodeAudioData (frame : list number) (rate r : Q) :
  (frame ≠ [] →
   ∃ blob, createPcmBlob frame rate = Some blob
     ∧ mimeType_rate blob = rate
     ∧ decodeAudioData (data blob) r
       = Some (mkAudioBuffer
                 (map (fun x => Design.reverse (Design.forward x)) frame) r))
  ∧ createPcmBlob [] rate = Some (mkBlob [] rate)
  ∧ decodeAudioData [] r = None.
Proof.
  split; [apply decodeAudioData_createPcmBlob|]. split; reflexivity.
Qed.

Lemma createPcmBlob_then_decodeAudioData_witness :
  ∃ blob, createPcmBlob [Num (1 # 2); NaN] 16000 = Some blob
    ∧ mimeType_rate blob = 16000%Q
    ∧ decodeAudioData (data blob) 24000
      = Some (mkAudioBuffer
                (map (fun x => Design.reverse (Design.forward x))
                   [Num (1 # 2); NaN]) 24000).
Proof.
  destruct (createPcmBlob_then_decodeAudioData [Num (1 # 2); NaN] 16000 24000)
    as [H _].
  apply H. discriminate.
Defined.

(** ** More on resampling *)

Lemma Math_round_step (p q : Q) :
  (p + 1 <= q)%Q → Math_round p + 1 <= Math_round q.
Proof.
  intros H. destruct (Math_round_bounds p) as [P1 P2].
  destruct (Math_round_bounds q) as [Q1 Q2].
  assert (Math_round p < Math_round q); [|lia].
  apply inject_Z_lt_inv. lra.
Qed.

Lemma Math_round_within (q : Q) (z : Z) :
  (inject_Z z - (1 # 2) <= q)%Q → (q < inject_Z z + (1 # 2))%Q →
  Math_round q = z.
Proof. intros H1 H2. apply Qfloor_unique. lra. Qed.

Lemma mul64_Num (x y : Q) : mul64 (Num x) (Num y) = fl64 (x * y).
Proof. reflexivity. Qed.

(** The output of [downsampleBuffer] is never longer than a frame of fewer
    than [2^53] samples. *)
Lemma downsample_never_lengthens (buffer : list number) (i o : Q) :
  (0 < o)%Q → Z.of_nat (length buffer) < 2 ^ 53 →
  (length (downsampleBuffer buffer i o) ≤ length buffer)%nat.
Proof.
  intros Ho HL. destruct (Qlt_le_dec o i) as [Hlt|Hle].
  - destruct (newLength_cases buffer i o Ho Hlt HL)
      as [(_ & Hn & _)|(rv & qv & _ & _ & _ & _ & Hn & Q0 & Q1 & _)].
    + rewrite (length_downsampleBuffer_Z buffer i o 0 Hlt Hn). simpl. lia.
    + rewrite (length_downsampleBuffer_Z buffer i o _ Hlt Hn).
      assert (Math_round qv <= Z.of_nat (length buffer)); [|lia].
      rewrite <- (Math_round_inject_Z (Z.of_nat (length buffer))).
      apply Math_round_monotone, Q1.
  - now rewrite downsampleBuffer_same.
Qed.

(** The bound on the length is the one of typed arrays, and it is needed:
    a list of [2^53 + 3] numbers, which no typed array holds, is not a
    binary64 length, and at a ratio that rounds to 1 the quotient rounds
    up to [2^53 + 4]. *)
Lemma downsample_lengthens_beyond_typed_arrays (buffer : list number) :
  Z.of_nat (length buffer) = 2 ^ 53 + 3 →
  (16000 < 2251799813685248125 # 140737488355328)%Q
  ∧ Z.of_nat
      (length (downsampleBuffer buffer
                 (2251799813685248125 # 140737488355328) 16000))
    = 2 ^ 53 + 4.
Proof.
  intros HL.
  assert (16000 < 2251799813685248125 # 140737488355328)%Q as Hlt
    by reflexivity.
  split; [exact Hlt|].
  assert (newLength buffer
            (sampleRateRatio (2251799813685248125 # 140737488355328) 16000)
          = Num (inject_Z (2 ^ 53 + 4))) as Hn.
  { unfold newLength, number_of_nat. rewrite HL. vm_compute. reflexivity. }
  rewrite (length_downsampleBuffer_Z buffer _ 16000 _ Hlt Hn).
  apply Z2Nat.id. lia.
Qed.

(** With a ratio within [2^-26] of 1 the source index of output index [k]
    is [k] itself. *)
Lemma index_near_one (k : nat) (rv yv : Q) :
  (1 <= rv)%Q → (rv < 1 + (1 # 67108864))%Q → Z.of_nat k <= 2 ^ 24 →
  mul64 (number_of_nat k) (Num rv) = Num yv →
  Math_round yv = Z.of_nat k.
Proof.
  intros H1 H2 Hk Hyv. unfold number_of_nat in Hyv. rewrite mul64_Num in Hyv.
  pose proof (inject_nat_nonneg k) as HK0.
  assert (inject_Z (Z.of_nat k) <= 16777216)%Q as HK.
  { change 16777216%Q with (inject_Z (2 ^ 24)). rewrite <- Zle_Qle. exact Hk. }
  set (K := inject_Z (Z.of_nat k)) in *.
  assert (K * (rv - 1) <= K * (1 # 67108864))%Q as Hs
    by (apply Qmult_le_l_weak; lra).
  assert (0 <= K * (rv - 1))%Q as Hs0 by (apply Qmult_le_0_compat; lra).
  assert (K * (rv - 1) == K * rv - K)%Q as E by ring.
  rewrite E in Hs, Hs0.
  destruct (fl64_Z (Z.of_nat k) ltac:(lia)) as (kv & Hkv & Ekv).
  fold K in Hkv, Ekv.
  pose proof (fl64_ge (K * rv) K yv kv HK0 ltac:(lra) Hkv Hyv) as Hlow.
  destruct (fl64_dyadic (4 * Z.of_nat k + 1) 2 ltac:(lia) ltac:(lia))
    as (dv & Hdv & Edv).
  assert (inject_Z (4 * Z.of_nat k + 1) / pow2 2 == K + (1 # 4))%Q as Ed.
  { rewrite inject_Z_plus, inject_Z_mult. fold K.
    change (pow2 2) with 4%Q. change (inject_Z 4) with 4%Q.
    change (inject_Z 1) with 1%Q. field. }
  assert (K * rv <= inject_Z (4 * Z.of_nat k + 1) / pow2 2)%Q as Hle
    by (rewrite Ed; lra).
  destruct (fl64_le (K * rv) _ dv ltac:(lra) Hle Hdv)
    as (yv' & Hyv' & _ & Hup).
  rewrite Hyv in Hyv'. injection Hyv' as <-.
  apply Math_round_within; fold K; lra.
Qed.

(** The source indexes grow with the output index, for a frame of at most
    [2^24] samples. *)
Lemma index_step (buffer : list number) (i o : Q) (k : nat) :
  (0 < o)%Q → (o < i)%Q → Z.of_nat (length buffer) <= 2 ^ 24 →
  (S k < length (downsampleBuffer buffer i o))%nat →
  ∃ a b : Z,
    index_of k (sampleRateRatio i o) = Num (inject_Z a)
    ∧ index_of (S k) (sampleRateRatio i o) = Num (inject_Z b)
    ∧ a + 1 <= b.
Proof.
  intros Ho Hi HL Hk.
  destruct (decimation_numbers buffer i o k Ho Hi ltac:(lia) ltac:(lia))
    as (rv & qv & yv & Hrv & H1 & _ & _ & _ & Hkn & Hyv & Hidx & Y0 & _
        & Y2 & _).
  destruct (decimation_numbers buffer i o (S k) Ho Hi ltac:(lia) Hk)
    as (rv' & qv' & yv' & Hrv' & _ & _ & _ & _ & Hkn' & Hyv' & Hidx' & _
        & Y1' & _ & HP').
  assert (rv' = rv) as -> by congruence.
  exists (Math_round yv), (Math_round yv').
  split; [exact Hidx|]. split; [exact Hidx'|].
  destruct (Qlt_le_dec rv (1 + (1 # 67108864))) as [Hnear|Hfar].
  - rewrite (index_near_one k rv yv H1 Hnear ltac:(lia) Hyv).
    rewrite (index_near_one (S k) rv yv' H1 Hnear ltac:(lia) Hyv'). lia.
  - apply Math_round_step.
    assert (inject_Z (Z.of_nat (length buffer)) <= 16777216)%Q as HLq.
    { change 16777216%Q with (inject_Z (2 ^ 24)). rewrite <- Zle_Qle.
      exact HL. }
    pose proof (inject_nat_nonneg k) as HK0.
    assert (inject_Z (Z.of_nat (S k)) * rv
            == inject_Z (Z.of_nat k) * rv + rv)%Q as E.
    { rewrite Nat2Z.inj_succ. unfold Z.succ. rewrite inject_Z_plus.
      change (inject_Z 1) with 1%Q. ring. }
    rewrite E in Y1', HP'.
    assert (0 <= inject_Z (Z.of_nat k) * rv)%Q as HP0
      by (apply Qmult_le_0_compat; lra).
    set (P := (inject_Z (Z.of_nat k) * rv)%Q) in *.
    set (Lq := inject_Z (Z.of_nat (length buffer))) in *.
    clearbody P Lq. lra.
Qed.

Lemma index_increasing (buffer : list number) (i o : Q) (j k : nat) :
  (0 < o)%Q → (o < i)%Q → Z.of_nat (length buffer) <= 2 ^ 24 →
  (j < k)%nat → (k < length (downsampleBuffer buffer i o))%nat →
  ∃ a b : Z,
    index_of j (sampleRateRatio i o) = Num (inject_Z a)
    ∧ index_of k (sampleRateRatio i o) = Num (inject_Z b)
    ∧ a < b.
Proof.
  intros Ho Hi HL Hjk. induction Hjk as [|k Hjk IH]; intros Hk.
  - destruct (index_step buffer i o j Ho Hi HL Hk) as (a & b & Ha & Hb & H).
    exists a, b. repeat split; try assumption. lia.
  - destruct (IH ltac:(lia)) as (a & b & Ha & Hb & H).
    destruct (index_step buffer i o k Ho Hi HL Hk) as (b' & c & Hb' & Hc & H').
    assert (b' = b) as ->.
    { rewrite Hb in Hb'. injection Hb' as Hb'. symmetry. exact Hb'. }
    exists a, c. repeat split; try assumption. lia.
Qed.

(** Picking the elements of a list at strictly increasing positions gives a
    sublist of it. *)
Lemma pick_increasing_sublist {A : Type} (d : A) (f : nat → nat) (N : nat) :
  ∀ l : list A,
    (∀ j k, (j < k < N)%nat → (f j < f k)%nat) →
    (∀ k, (k < N)%nat → (f k < length l)%nat) →
    map (fun k => nth (f k) l d) (seq 0 N) `sublist_of` l.
Proof.
  induction N as [|N IH]; intros l Hinc Hlt.
  - apply sublist_nil_l.
  - rewrite seq_S, map_app. cbn [map Nat.add].
    assert (HfN : (f N < length l)%nat) by (apply Hlt; lia).
    destruct (lookup_lt_is_Some_2 l (f N) HfN) as [x Hx].
    assert (H : map (fun k => nth (f k) l d) (seq 0 N) ++ [nth (f N) l d]
                `sublist_of` take (f N) l ++ drop (f N) l);
      [|now rewrite take_drop in H].
    apply sublist_app.
    + rewrite (map_ext_in _ (fun k => nth (f k) (take (f N) l) d)).
      * apply IH.
        -- intros j k Hjk. apply Hinc. lia.
        -- intros k Hk. rewrite length_take.
           assert (f k < f N)%nat by (apply Hinc; lia). lia.
      * intros k Hk. apply in_seq in Hk.
        assert (Hk' : (f k < f N)%nat) by (apply Hinc; lia).
        rewrite !nth_lookup, lookup_take_lt by assumption. reflexivity.
    + rewrite (drop_S _ _ _ Hx), nth_lookup, Hx. cbn.
      apply sublist_skip, sublist_nil_l.
Qed.

(** X8.  For a positive output rate and a frame of at most [2^24] samples,
    the frame [downsampleBuffer] returns is a subsequence of its input:
    samples are dropped but never reordered, repeated or made up, and the
    result is never longer than the input. *)
Theorem downsampleBuffer_is_subsequence (buffer : list number) (i o : Q) :
  (0 < o)%Q → Z.of_nat (length buffer) <= 2 ^ 24 →
  downsampleBuffer buffer i o `sublist_of` buffer
  ∧ (length (downsampleBuffer buffer i o) ≤ length buffer)%nat.
Proof.
  intros Ho HL. split; [|apply downsample_never_lengthens; [exact Ho|lia]].
  destruct (Qlt_le_dec o i) as [Hlt|Hle];
    [|now rewrite downsampleBuffer_same].
  pose proof (length_downsampleBuffer buffer i o Hlt) as HN.
  rewrite downsampleBuffer_decimate by assumption.
  set (r := sampleRateRatio i o) in *.
  set (N := array_length (newLength buffer r)) in *.
  assert (Hidx : ∀ k, (k < N)%nat →
             ∃ index, index_of k r = Num (inject_Z index)
               ∧ 0 <= index < Z.of_nat (length buffer)).
  { intros k Hk. apply index_in_bounds; try assumption. now rewrite HN. }
  rewrite (map_ext_in _
             (fun k => nth (array_length (index_of k r)) buffer NaN)).
  - apply pick_increasing_sublist.
    + intros j k Hjk.
      destruct (index_increasing buffer i o j k Ho Hlt HL ltac:(lia))
        as (a & b & Ha & Hb & Hab); [rewrite HN; lia|].
      destruct (Hidx j ltac:(lia)) as (a' & Ha' & Ha0).
      fold r in Ha, Hb. rewrite Ha, Hb, !array_length_Z.
      assert (a' = a) as ->.
      { rewrite Ha in Ha'. injection Ha' as Ha'. symmetry. exact Ha'. }
      apply Z2Nat.inj_lt; lia.
    + intros k Hk. destruct (Hidx k Hk) as (a & Ha & Ha0).
      rewrite Ha, array_length_Z. lia.
  - intros k Hk. apply in_seq in Hk.
    destruct (Hidx k ltac:(lia)) as (a & Ha & Ha0).
    rewrite (downsample_value_index buffer r k a Ha), Ha, array_length_Z.
    destruct (Z.ltb_spec a (Z.of_nat (length buffer))); [|lia].
    unfold f32_get. destruct (Z.ltb_spec a 0); [lia|].
    now rewrite nth_lookup.
Qed.

Lemma downsampleBuffer_is_subsequence_witness :
  downsampleBuffer [Num 0; Num 1; Num 2; Num 3; Num 4] 44100 16000
    `sublist_of` [Num 0; Num 1; Num 2; Num 3; Num 4]
  ∧ (length (downsampleBuffer [Num 0; Num 1; Num 2; Num 3; Num 4] 44100 16000)
     ≤ length [Num 0; Num 1; Num 2; Num 3; Num 4])%nat.
Proof.
  apply (downsampleBuffer_is_subsequence
           [Num 0; Num 1; Num 2; Num 3; Num 4] 44100 16000).
  - reflexivity.
  - vm_compute. discriminate.
Defined.

(** The quotient of a frame length below [2^52] by an integer rounds, in
    binary64, to the same integer as the exact quotient: the quotient is
    at least [1 / (2 n)] away from the next half-integer, more than the
    rounding error [2^-53 * L / n]. *)
Lemma quotient_round_exact (L n : nat) (v qv : Q) :
  Z.of_nat L < 2 ^ 52 → (1 ≤ n)%nat → v == inject_Z (Z.of_nat n) →
  fl64 (inject_Z (Z.of_nat L) / v) = Num qv →
  Math_round qv = Math_round (inject_Z (Z.of_nat L) / inject_Z (Z.of_nat n)).
Proof.
  intros HL Hn Hv Hqv.
  pose proof (inject_nat_nonneg L) as HL0.
  assert (1 <= inject_Z (Z.of_nat n))%Q as Hn1.
  { change 1%Q with (inject_Z 1). rewrite <- Zle_Qle. lia. }
  assert (inject_Z (Z.of_nat L) < 4503599627370496)%Q as HLq.
  { change 4503599627370496%Q with (inject_Z (2 ^ 52)). rewrite <- Zlt_Qlt.
    exact HL. }
  set (Lq := inject_Z (Z.of_nat L)) in *.
  set (nq := inject_Z (Z.of_nat n)) in *.
  assert (Lq / v == Lq / nq) as Hq by (rewrite Hv; reflexivity).
  assert (Lq / nq * nq == Lq) as E by (field; lra).
  assert (0 <= Lq / nq)%Q as Hq0 by (apply Qle_shift_div_l; lra).
  assert (Lq / nq <= Lq)%Q as HqL by (apply Qle_shift_div_r; [lra|nra]).
  set (q := (Lq / nq)%Q) in *. set (m := Math_round q).
  destruct (Math_round_bounds q) as [B1 B2]. fold m in B1, B2.
  pose proof (Math_round_nonneg q Hq0) as Hm0. fold m in Hm0.
  assert (m < 2 ^ 52 + 1) as Hm33.
  { apply inject_Z_lt_inv.
    change (inject_Z (2 ^ 52 + 1)) with 4503599627370497%Q. lra. }
  (* the integers 2 L and (2 m + 1) n differ by at least 1 *)
  assert (2 * Z.of_nat L + 1 <= (2 * m + 1) * Z.of_nat n) as HG.
  { assert (2 * Z.of_nat L < (2 * m + 1) * Z.of_nat n); [|lia].
    rewrite Zlt_Qlt, !inject_Z_mult, inject_Z_plus, inject_Z_mult.
    change (inject_Z 2) with 2%Q. change (inject_Z 1) with 1%Q.
    fold Lq nq.
    assert (q * nq < (inject_Z m + (1 # 2)) * nq)%Q as H
      by (apply Qmult_lt_compat_r; lra).
    rewrite E in H.
    assert ((inject_Z m + (1 # 2)) * nq == inject_Z m * nq + (1 # 2) * nq)%Q
      as E2 by ring.
    assert ((2 * inject_Z m + 1) * nq == 2 * (inject_Z m * nq) + nq)%Q
      as E3 by ring.
    rewrite E2 in H. rewrite E3. lra. }
  assert (2 * Lq + 1 <= 2 * (inject_Z m * nq) + nq)%Q as HGq.
  { assert (inject_Z (2 * Z.of_nat L + 1)
            <= inject_Z ((2 * m + 1) * Z.of_nat n))%Q as H
      by (rewrite <- Zle_Qle; exact HG).
    rewrite !inject_Z_mult, !inject_Z_plus, !inject_Z_mult in H.
    change (inject_Z 2) with 2%Q in H. change (inject_Z 1) with 1%Q in H.
    fold Lq nq in H.
    assert ((2 * inject_Z m + 1) * nq == 2 * (inject_Z m * nq) + nq)%Q
      as E3 by ring.
    rewrite E3 in H. exact H. }
  assert (0 <= Lq / v)%Q as Hv0 by (rewrite Hq; exact Hq0).
  apply Math_round_within.
  - (* the rounded quotient is not below m - 1/2 *)
    destruct (Z.eq_dec m 0) as [Hz|Hz].
    + destruct (fl64_mono 0 (Lq / v) qv ltac:(lra) Hv0 Hqv)
        as (z & Hz' & Hz0 & Hzq).
      rewrite Hz. change (inject_Z 0) with 0%Q. lra.
    + destruct (fl64_dyadic (2 * m - 1) 1 ltac:(lia) ltac:(lia))
        as (dv & Hdv & Edv).
      assert (inject_Z (2 * m - 1) / pow2 1 == inject_Z m - (1 # 2))%Q as Ed.
      { unfold Z.sub. rewrite inject_Z_plus, inject_Z_mult.
        change (pow2 1) with 2%Q. change (inject_Z 2) with 2%Q.
        change (inject_Z (- (1))) with (- (1))%Q. field. }
      assert (inject_Z (2 * m - 1) / pow2 1 <= Lq / v)%Q as Hle
        by (rewrite Ed, Hq; lra).
      assert (1 <= inject_Z m)%Q as Hm1
        by (change 1%Q with (inject_Z 1); rewrite <- Zle_Qle; lia).
      assert (0 <= inject_Z (2 * m - 1) / pow2 1)%Q as Hd0
        by (rewrite Ed; lra).
      pose proof (fl64_ge (Lq / v) _ qv dv Hd0 Hle Hdv Hqv).
      lra.
  - (* and it is below m + 1/2 *)
    destruct (Qlt_le_dec q (1 # 4)) as [Hsmall|Hbig].
    + destruct (fl64_dyadic 1 2 ltac:(lia) ltac:(lia)) as (dv & Hdv & Edv).
      change (inject_Z 1 / pow2 2)%Q with (1 # 4)%Q in Hdv, Edv.
      assert (Lq / v <= 1 # 4)%Q as Hle by (rewrite Hq; lra).
      destruct (fl64_le (Lq / v) (1 # 4) dv Hv0 Hle Hdv)
        as (qv' & Hqv' & _ & H').
      rewrite Hqv in Hqv'. injection Hqv' as <-.
      assert (0 <= inject_Z m)%Q
        by (change 0%Q with (inject_Z 0); rewrite <- Zle_Qle; lia).
      lra.
    + assert (pow2 (-1022) <= Lq / v)%Q as Hn'.
      { rewrite Hq. apply Qle_trans with (1 # 4)%Q; [|exact Hbig].
        change (1 # 4)%Q with (pow2 (-2)). apply pow2_le. lia. }
      destruct (fl64_error _ _ Hn' Hqv) as [_ B]. rewrite u53, Hq in B.
      apply (Qmult_lt_r _ _ nq); [lra|].
      assert (qv * nq <= q * (1 + (1 # 9007199254740992)) * nq)%Q as H
        by (apply Qmult_le_compat_r; lra).
      assert (q * (1 + (1 # 9007199254740992)) * nq
              == Lq * (1 + (1 # 9007199254740992)))%Q as E4
        by (rewrite <- E; ring).
      assert ((inject_Z m + (1 # 2)) * nq == inject_Z m * nq + (1 # 2) * nq)%Q
        as E2 by ring.
      rewrite E4 in H. rewrite E2. lra.
Qed.


(** X9.  When the input rate is a whole multiple [n >= 2] of the positive
    output rate and the frame has fewer than [2^52] samples,
    [downsampleBuffer] keeps exactly every [n]-th sample: output index [k]
    holds input index [n * k], and the output has [round (L / n)]
    samples. *)
Theorem downsampleBuffer_integer_factor (buffer : list number) (i o : Q)
    (n : nat) :
  (0 < o)%Q → (2 ≤ n)%nat → i == inject_Z (Z.of_nat n) * o →
  Z.of_nat (length buffer) < 2 ^ 52 →
  Z.of_nat (length (downsampleBuffer buffer i o))
  = Math_round (inject_Z (Z.of_nat (length buffer)) / inject_Z (Z.of_nat n))
  ∧ ∀ k : nat, (k < length (downsampleBuffer buffer i o))%nat →
      downsampleBuffer buffer i o !! k = buffer !! (n * k)%nat
      ∧ (n * k < length buffer)%nat.
Proof.
  intros Ho Hn Hi HL.
  assert (Hnq : (2 <= inject_Z (Z.of_nat n))%Q).
  { change 2%Q with (inject_Z 2). rewrite <- Zle_Qle. lia. }
  assert (Hr : i / o == inject_Z (Z.of_nat n)).
  { rewrite Hi. field. lra. }
  assert (Hlt : (o < i)%Q) by (rewrite Hi; nra).
  pose proof (inject_nat_nonneg (length buffer)) as HL0.
  assert (inject_Z (Z.of_nat (length buffer)) <= 4503599627370495)%Q as HLq.
  { change 4503599627370495%Q with (inject_Z (2 ^ 52 - 1)).
    rewrite <- Zle_Qle. lia. }
  destruct (Z_lt_le_dec (Z.of_nat n) (2 ^ 53)) as [Hsmall|Hbig].
  - (* the ratio is the integer itself *)
    destruct (fl64_exact (i / o) (Z.of_nat n) 0) as (rv & Hrv & Erv).
    { rewrite Hr. change (pow2 0) with 1%Q. ring. }
    { lia. }
    { lia. }
    { rewrite Hr. apply Qlt_trans with (pow2 53); [|apply pow2_lt; lia].
      rewrite pow2_Z by lia. rewrite <- Zlt_Qlt. exact Hsmall. }
    assert (sampleRateRatio i o = Num rv) as Hratio.
    { unfold sampleRateRatio. now rewrite div_pos by exact Ho. }
    assert (rv == inject_Z (Z.of_nat n)) as Erv' by (rewrite Erv; exact Hr).
    destruct (length_quotient (length buffer) rv ltac:(lra) ltac:(lia))
      as (qv & Hqv & Q0 & _).
    assert (newLength buffer (sampleRateRatio i o)
            = Num (inject_Z (Math_round qv))) as Hlen.
    { unfold newLength. rewrite Hratio, Hqv. reflexivity. }
    unfold number_of_nat in Hqv. rewrite div_pos in Hqv by lra.
    pose proof (quotient_round_exact (length buffer) n rv qv HL ltac:(lia)
                  Erv' Hqv) as Hround.
    rewrite (length_downsampleBuffer_Z buffer i o _ Hlt Hlen).
    rewrite Z2Nat.id by (apply Math_round_nonneg, Q0).
    split; [exact Hround|].
    intros k Hk.
    (* n * k lies inside the frame *)
    destruct (Math_round_bounds
                (inject_Z (Z.of_nat (length buffer)) / inject_Z (Z.of_nat n)))
      as [B1 _].
    rewrite <- Hround in B1.
    assert (inject_Z (Z.of_nat k) + 1 <= inject_Z (Math_round qv))%Q as HkQ.
    { rewrite <- (inject_Z_plus _ 1). rewrite <- Zle_Qle. lia. }
    assert (Z.of_nat (n * k) < Z.of_nat (length buffer)) as Hin.
    { rewrite Zlt_Qlt, Nat2Z.inj_mul, inject_Z_mult.
      set (nq := inject_Z (Z.of_nat n)) in *.
      set (Lq := inject_Z (Z.of_nat (length buffer))) in *.
      set (K := inject_Z (Z.of_nat k)) in *.
      assert (Lq / nq * nq == Lq) as E by (field; lra).
      assert (0 <= (Lq / nq - K - (1 # 2)) * nq)%Q as H
        by (apply Qmult_le_0_compat; lra).
      assert ((Lq / nq - K - (1 # 2)) * nq
              == Lq / nq * nq - K * nq - (1 # 2) * nq)%Q as E2 by ring.
      rewrite E2, E in H. rewrite (Qmult_comm nq K). lra. }
    split; [|lia].
    (* the product k * n is exact *)
    destruct (fl64_exact (inject_Z (Z.of_nat k) * rv) (Z.of_nat (n * k)) 0)
      as (yv & Hyv & Eyv).
    { rewrite Erv', Nat2Z.inj_mul, inject_Z_mult.
      change (pow2 0) with 1%Q. ring. }
    { lia. }
    { lia. }
    { rewrite Erv', <- inject_Z_mult, <- Nat2Z.inj_mul, (Nat.mul_comm k n).
      apply Qlt_trans with (pow2 52); [|apply pow2_lt; lia].
      rewrite pow2_Z by lia. rewrite <- Zlt_Qlt. lia. }
    assert (Math_round yv = Z.of_nat (n * k)) as Hidx.
    { rewrite (Math_round_comp yv (inject_Z (Z.of_nat (n * k)))).
      - apply Math_round_inject_Z.
      - rewrite Eyv, Erv', Nat2Z.inj_mul, inject_Z_mult. ring. }
    assert (index_of k (sampleRateRatio i o)
            = Num (inject_Z (Z.of_nat (n * k)))) as Hindex.
    { unfold index_of, number_of_nat. cbv zeta.
      rewrite Hratio, mul64_Num, Hyv. cbn [Math_round_num].
      now rewrite Hidx. }
    rewrite downsampleBuffer_lookup; [|exact Hlt|].
    + rewrite (downsample_value_index _ _ _ _ Hindex).
      destruct (Z.ltb_spec (Z.of_nat (n * k)) (Z.of_nat (length buffer)));
        [|lia].
      unfold f32_get.
      destruct (Z.ltb_spec (Z.of_nat (n * k)) 0); [lia|].
      rewrite Nat2Z.id.
      destruct (lookup_lt_is_Some_2 buffer (n * k)) as [x Hx]; [lia|].
      now rewrite Hx.
    + rewrite Hlen, array_length_Z. lia.
  - (* the ratio is at least 2^53, more than twice the length: nothing is
       kept *)
    assert (9007199254740992 <= inject_Z (Z.of_nat n))%Q as Hn53.
    { change 9007199254740992%Q with (inject_Z (2 ^ 53)).
      rewrite <- Zle_Qle. exact Hbig. }
    assert (Math_round (inject_Z (Z.of_nat (length buffer))
                        / inject_Z (Z.of_nat n)) = 0) as Hzero.
    { apply Math_round_small.
      - apply Qle_shift_div_l; lra.
      - apply Qlt_shift_div_r; lra. }
    assert (length (downsampleBuffer buffer i o) = 0%nat) as Hempty.
    { destruct (newLength_cases buffer i o Ho Hlt ltac:(lia))
        as [(_ & Hlen & _)
           |(rv & qv & _ & H1 & B1 & _ & Hlen & Q0 & _ & Q2 & Q3)].
      - now rewrite (length_downsampleBuffer_Z buffer i o 0 Hlt Hlen).
      - rewrite (length_downsampleBuffer_Z buffer i o _ Hlt Hlen).
        rewrite Hr in B1.
        set (nq := inject_Z (Z.of_nat n)) in *.
        set (Lq := inject_Z (Z.of_nat (length buffer))) in *.
        assert (9007199254740991 <= rv)%Q as Hrv.
        { assert (9007199254740992 * (1 - (1 # 9007199254740992))
                  <= nq * (1 - (1 # 9007199254740992)))%Q as H
            by (apply Qmult_le_compat_r; lra).
          assert (9007199254740992 * (1 - (1 # 9007199254740992))
                  == 9007199254740991)%Q as E by reflexivity.
          rewrite E in H. lra. }
        assert (qv < 1 # 2)%Q as Hq.
        { destruct (Qlt_le_dec (Lq / rv) (1 # 4)) as [Hs|Hs].
          - pose proof (Q3 ltac:(lra)). lra.
          - destruct (Q2 Hs) as [_ B2].
            assert (Lq / rv * rv == Lq) as E by (field; lra).
            apply (Qmult_lt_r _ _ rv); [lra|].
            assert (qv * rv
                    <= Lq / rv * (1 + (1 # 9007199254740992)) * rv)%Q as H
              by (apply Qmult_le_compat_r; lra).
            assert (Lq / rv * (1 + (1 # 9007199254740992)) * rv
                    == Lq * (1 + (1 # 9007199254740992)))%Q as E2
              by (rewrite <- E at 2; ring).
            rewrite E2 in H. lra. }
        rewrite (Math_round_small qv Q0 Hq). reflexivity. }
    rewrite Hempty, Hzero. split; [reflexivity|]. intros k Hk. lia.
Qed.

(** Without a bound on the length the rounding of the quotient shows: of
    a frame of [3 * 2^51 + 1] samples resampled by the factor [2^52 + 1]
    the quotient is just below 1.5 and one sample of it stays in exact
    arithmetic, while the binary64 quotient is 1.5 and [downsampleBuffer]
    returns two samples. *)
Lemma integer_factor_rounds_up (buffer : list number) :
  Z.of_nat (length buffer) = 3 * 2 ^ 51 + 1 →
  length (downsampleBuffer buffer 4503599627370497 1) = 2%nat
  ∧ Math_round (inject_Z (Z.of_nat (length buffer))
                / inject_Z (Z.of_nat (Z.to_nat (2 ^ 52 + 1)))) = 1.
Proof.
  intros HL.
  assert (newLength buffer (sampleRateRatio 4503599627370497 1)
          = Num (inject_Z 2)) as Hn.
  { unfold newLength, number_of_nat. rewrite HL. vm_compute. reflexivity. }
  split.
  - now rewrite (length_downsampleBuffer_Z buffer 4503599627370497 1 _
                   ltac:(reflexivity) Hn).
  - rewrite HL, Z2Nat.id by lia. vm_compute. reflexivity.
Qed.

Lemma downsampleBuffer_integer_factor_witness :
  Z.of_nat
    (length (downsampleBuffer
               [Num 0; Num 1; Num 2; Num 3; Num 4; Num 5; Num 6] 48000 16000))
  = Math_round (inject_Z 7 / inject_Z 3).
Proof.
  apply (downsampleBuffer_integer_factor
           [Num 0; Num 1; Num 2; Num 3; Num 4; Num 5; Num 6]
           48000 16000 3).
  - reflexivity.
  - lia.
  - reflexivity.
  - vm_compute. reflexivity.
Defined.

(** ** Capture callback and transcript log *)

Import Session.

(** *** The capture callback *)

(** X10.  Every block handed to [onaudioprocess] yields an envelope, always
    tagged with the rate 16000, whose text decodes to two bytes per sample
    of the resampled block, which for a block of fewer than [2^53] samples
    (every typed array is, and [downsample_lengthens_beyond_typed_arrays]
    is what a longer list does) are at most two bytes per sample of the
    block; at an input rate of 16000 Hz or less the block is packed without
    resampling, still under the tag 16000. *)
Theorem onaudioprocess_envelope (rate : Q) (inputData : list number) :
  ∃ blob, onaudioprocess rate inputData = Some blob
    ∧ mimeType_rate blob = 16000%Q
    ∧ base64ToArrayBuffer (data blob)
      = Some (float32To16BitPCM (downsampleBuffer inputData rate 16000))
    ∧ (Z.of_nat (length inputData) < 2 ^ 53 →
       (length (float32To16BitPCM (downsampleBuffer inputData rate 16000))
        ≤ 2 * length inputData)%nat)
    ∧ ((rate <= 16000)%Q →
       base64ToArrayBuffer (data blob) = Some (float32To16BitPCM inputData)).
Proof.
  destruct (onaudioprocess_packs rate inputData) as (blob & H1 & H2 & H3).
  exists blob. split; [exact H1|]. split; [exact H2|]. split; [exact H3|].
  split.
  - intros HL. rewrite float32To16BitPCM_bytes.
    rewrite (flat_map_constant_length (c := 2%nat)) by done.
    pose proof (downsample_never_lengthens inputData rate 16000 eq_refl HL).
    lia.
  - intros Hle. rewrite H3. now rewrite downsampleBuffer_same.
Qed.

(** *** The transcript log *)

Lemma addTranscription_complete_log (stamp : string * Z) (t : string)
    (isUser : bool) (s : state) :
  Forall (fun i => Types.isComplete i = true) (transcriptions s) →
  transcriptions (addTranscription stamp t isUser true s)
  = transcriptions s
    ++ [mkTranscriptionItem (fst stamp) t isUser (snd stamp) true].
Proof.
  intros Hall. unfold addTranscription.
  destruct (last (transcriptions s)) as [l|] eqn:E; [|reflexivity].
  assert (Hl : Types.isComplete l = true).
  { rewrite Forall_forall in Hall. apply Hall, list_elem_of_In.
    apply last_Some in E as [l' ->]. apply in_or_app. right. now left. }
  rewrite Hl, andb_false_r. reflexivity.
Qed.

Lemma transcript_items_complete (r : readings) (m : LiveServerMessage) :
  Forall (fun i => Types.isComplete i = true) (transcript_items r m).
Proof.
  unfold transcript_items.
  destruct (inputTranscription m); destruct (outputTranscription m);
    repeat constructor.
Qed.

Lemma handle_transcriptions_log (r : readings) (m : LiveServerMessage)
    (ws : world * state) :
  Forall (fun i => Types.isComplete i = true) (transcriptions (snd ws)) →
  transcriptions (snd (handle_transcriptions r m ws))
  = transcriptions (snd ws) ++ transcript_items r m.
Proof.
  intros Hall. unfold handle_transcriptions, transcript_items.
  destruct (inputTranscription m) as [t1|];
    destruct (outputTranscription m) as [t2|]; cbn [fst snd app].
  - rewrite addTranscription_complete_log.
    + rewrite addTranscription_complete_log by assumption.
      now rewrite <- app_assoc.
    + rewrite addTranscription_complete_log by assumption.
      apply Forall_app. split; [assumption|]. repeat constructor.
  - rewrite addTranscription_complete_log by assumption. reflexivity.
  - rewrite addTranscription_complete_log by assumption. reflexivity.
  - now rewrite app_nil_r.
Qed.

Lemma handle_audio_transcriptions (r : readings) (m : LiveServerMessage)
    (ws : world * state) :
  transcriptions (snd (handle_audio r m ws)) = transcriptions (snd ws).
Proof.
  unfold handle_audio.
  destruct (inlineData_data m) as [b|]; [|reflexivity].
  destruct (outputContextRef (snd ws)); [|reflexivity].
  destruct (truthy b); [|reflexivity].
  destruct ws as [w s]. unfold play_audio.
  destruct (decodeAudioData b 24000); [|reflexivity].
  cbn [createBufferSource nextStartTimeRef set_nextStartTimeRef].
  destruct (start_time _); reflexivity.
Qed.

Lemma onmessage_log (r : readings) (m : LiveServerMessage)
    (ws : world * state) :
  Forall (fun i => Types.isComplete i = true) (transcriptions (snd ws)) →
  transcriptions (snd (onmessage r m ws))
  = transcriptions (snd ws) ++ transcript_items r m.
Proof.
  intros Hall. unfold onmessage. cbv zeta.
  assert (H : transcriptions
                (snd (handle_transcriptions r m (handle_audio r m ws)))
              = transcriptions (snd ws) ++ transcript_items r m).
  { rewrite handle_transcriptions_log;
      rewrite handle_audio_transcriptions; [reflexivity|assumption]. }
  destruct (interrupted m); [|exact H].
  destruct (handle_transcriptions r m (handle_audio r m ws)) as [w2 s2].
  exact H.
Qed.

Lemma connect_transcriptions (API_KEY : string) (p : setup) (s : state) :
  transcriptions (connect API_KEY p s) = transcriptions s.
Proof.
  unfold connect. destruct API_KEY as [|a k]; [reflexivity|].
  destruct p as [a1 a2 a3 a4 a5 a6 a7]. unfold connect_try. cbn.
  destruct a1; [|reflexivity]. destruct a2; [|reflexivity].
  destruct a3; [|reflexivity]. destruct a4; [|reflexivity].
  destruct a5; [|reflexivity]. destruct a6; [|reflexivity].
  destruct a7; reflexivity.
Qed.

Lemma disconnect_transcriptions (ws : world * state) :
  transcriptions (snd (disconnect ws)) = transcriptions (snd ws).
Proof. destruct ws as [w s]. reflexivity. Qed.

Lemma onopen_transcriptions (ws : world * state) :
  transcriptions (snd (onopen ws)) = transcriptions (snd ws).
Proof.
  destruct ws as [w s]. unfold onopen.
  cbn. destruct (inputContextRef s); [|reflexivity].
  destruct (streamRef s); reflexivity.
Qed.

Lemma step_log (API_KEY : string) (e : event) (ws : world * state) :
  Forall (fun i => Types.isComplete i = true) (transcriptions (snd ws)) →
  transcriptions (snd (step API_KEY ws e))
  = transcriptions (snd ws) ++ event_items e.
Proof.
  intros Hall.
  destruct e as [p|p| | |r m|source| |err| |outcome];
    cbn [step event_items];
    rewrite ?app_nil_r.
  - unfold App.click, App.handleToggle.
    destruct (App.isConnecting (snd ws)); [reflexivity|].
    destruct (App.isConnected (snd ws));
      [apply disconnect_transcriptions|apply connect_transcriptions].
  - apply connect_transcriptions.
  - apply disconnect_transcriptions.
  - apply onopen_transcriptions.
  - now apply onmessage_log.
  - reflexivity.
  - reflexivity.
  - unfold onerror. rewrite disconnect_transcriptions. reflexivity.
  - apply disconnect_transcriptions.
  - destruct ws as [w s]. unfold session_reaction.
    destruct (reactions w); [reflexivity|].
    destruct outcome; reflexivity.
Qed.

(** X11.  Starting from a log whose items are all complete (the empty log
    of a mounted hook in particular), the transcript log after any run of
    the hook is the old log followed by the transcriptions of the messages
    received, in order of arrival, the input transcription of a message
    before its output transcription: items are never merged, reordered or
    dropped, and connecting, disconnecting and interruptions leave the log
    alone. *)
Theorem transcript_log_is_append_only (API_KEY : string)
    (events : list event) (ws : world * state) :
  Forall (fun i => Types.isComplete i = true) (transcriptions (snd ws)) →
  transcriptions (snd (steps API_KEY events ws))
  = transcriptions (snd ws) ++ flat_map event_items events.
Proof.
  revert ws. induction events as [|e events IH]; intros ws Hall.
  - cbn. now rewrite app_nil_r.
  - cbn [steps fold_left flat_map].
    change (fold_left (step API_KEY) events (step API_KEY ws e))
      with (steps API_KEY events (step API_KEY ws e)).
    pose proof (step_log API_KEY e ws Hall) as Hs.
    rewrite IH.
    + rewrite Hs. now rewrite <- app_assoc.
    + rewrite Hs. apply Forall_app. split; [assumption|].
      destruct e; cbn [event_items]; try constructor.
      apply transcript_items_complete.
Qed.

Lemma transcript_log_is_append_only_witness :
  transcriptions
    (snd (steps "key"
            [EvMessage (mkReadings 0 ("a"%string, 1) ("b"%string, 2))
               (mkMessage None (Some "hola"%string) (Some "hello"%string)
                  true);
             EvDisconnect]
            (initial_world, initial_state)))
  = [mkTranscriptionItem "a" "hola" true 1 true;
     mkTranscriptionItem "b" "hello" false 2 true].
Proof.
  apply (transcript_log_is_append_only "key"
           [EvMessage (mkReadings 0 ("a"%string, 1) ("b"%string, 2))
              (mkMessage None (Some "hola"%string) (Some "hello"%string)
                 true);
            EvDisconnect]
           (initial_world, initial_state)).
  constructor.
Defined.

(** ** Teardown, connection attempts, remote errors *)

(** *** Messages whose audio cannot be played *)

(** X12.  A message without interruption whose audio is not started (no
    payload, an empty payload, a payload that fails to decode, no output
    context referenced, or a raised cursor at which [start] throws) makes
    no call on the platform, stops nothing and leaves the live set alone.
    The cursor stays where it was, except that a non-empty payload met with
    an output context raises it to the clock before decoding is attempted,
    so a payload that fails to decode still moves the cursor up to the
    clock. *)
Theorem onmessage_unplayable_audio (r : readings) (m : LiveServerMessage)
    (w : world) (s : state) :
  interrupted m = false →
  payload m = None ∨ outputContextRef s = None
  ∨ start_time (Math_max (nextStartTimeRef s) (Num (currentTime r))) = None →
  calls (fst (onmessage r m (w, s))) = calls w
  ∧ stopped (fst (onmessage r m (w, s))) = stopped w
  ∧ reactions (fst (onmessage r m (w, s))) = reactions w
  ∧ sourcesRef (snd (onmessage r m (w, s))) = sourcesRef s
  ∧ nextStartTimeRef (snd (onmessage r m (w, s)))
    = match inlineData_data m, outputContextRef s with
      | Some base64Audio, Some _ =>
          if truthy base64Audio
          then Math_max (nextStartTimeRef s) (Num (currentTime r))
          else nextStartTimeRef s
      | _, _ => nextStartTimeRef s
      end.
Proof.
  intros Hint Hnot.
  unfold onmessage. rewrite Hint. cbv zeta.
  destruct (handle_transcriptions_refs r m (handle_audio r m (w, s)))
    as (-> & -> & -> & _).
  unfold handle_audio, payload in *. cbn [snd].
  destruct (inlineData_data m) as [b|]; [|repeat split; reflexivity].
  destruct (outputContextRef s) as [ctx|]; [|repeat split; reflexivity].
  destruct (truthy b); [|repeat split; reflexivity].
  unfold play_audio.
  destruct (decodeAudioData b 24000) as [audioBuffer|];
    [|repeat split; reflexivity].
  destruct Hnot as [H|[H|H]]; [discriminate|discriminate|].
  cbn [createBufferSource nextStartTimeRef set_nextStartTimeRef].
  rewrite H. repeat split; reflexivity.
Qed.

Lemma onmessage_unplayable_audio_witness :
  calls
    (fst (onmessage (mkReadings 3 (""%string, 0) (""%string, 0))
            (mkMessage (Some [65; 65; 65; 61]) None None false)
            (initial_world, initial_state)))
  = calls initial_world
  ∧ nextStartTimeRef
      (snd (onmessage (mkReadings 3 (""%string, 0) (""%string, 0))
              (mkMessage (Some [65; 65]) None None false)
              (initial_world,
               set_outputContextRef (Some 0%nat) initial_state)))
    = Math_max (Num 0) (Num 3).
Proof.
  split.
  - apply (onmessage_unplayable_audio
             (mkReadings 3 (""%string, 0) (""%string, 0))
             (mkMessage (Some [65; 65; 65; 61]) None None false)
             initial_world initial_state);
      [reflexivity|right; left; reflexivity].
  - apply (onmessage_unplayable_audio
             (mkReadings 3 (""%string, 0) (""%string, 0))
             (mkMessage (Some [65; 65]) None None false)
             initial_world (set_outputContextRef (Some 0%nat) initial_state));
      [reflexivity|left; reflexivity].
Defined.

(** *** What [disconnect] releases *)

Lemma stop_list_calls (l : list nat) (w : world) :
  NoDup l →
  let w' :=
    foldr (fun source w =>
             match source_stop source w with
             | Ok w' => w'
             | Throw _ => w
             end) w l in
  ∃ stops, calls w' = calls w ++ map SourceStop stops
    ∧ NoDup stops
    ∧ ∀ source, source ∈ stops ↔ source ∈ l ∧ source ∉ stopped w.
Proof.
  induction 1 as [|x l Hx Hnd IH]; cbn [foldr].
  - exists []. cbn. rewrite app_nil_r. split; [reflexivity|].
    split; [constructor|]. intros source. split.
    + intros H. inversion H.
    + intros [H _]. inversion H.
  - cbv zeta in IH. destruct IH as (stops & Hc & Hnds & Hin).
    destruct (stop_each_list l w) as (Hst & _ & _). cbv zeta in Hst.
    set (w1 := foldr _ w l) in *. unfold source_stop.
    destruct (decide (x ∈ stopped w1)) as [Hs|Hs].
    + exists stops. split; [exact Hc|]. split; [exact Hnds|].
      intros source. rewrite Hin. rewrite Hst in Hs.
      apply elem_of_union in Hs as [Hs|Hs].
      { apply elem_of_list_to_set in Hs. contradiction. }
      split.
      * intros [H1 H2]. split; [now right|exact H2].
      * intros [H1 H2]. apply elem_of_cons in H1 as [->|H1];
          [contradiction|now split].
    + exists (stops ++ [x]). cbn [calls].
      rewrite Hc, map_app, <- app_assoc. split; [reflexivity|].
      assert (Hxw : x ∉ stopped w).
      { intros H. apply Hs. rewrite Hst. apply elem_of_union. now right. }
      split.
      * apply NoDup_app. split; [exact Hnds|]. split.
        -- intros y Hy Hy'. apply list_elem_of_singleton in Hy' as ->.
           apply Hin in Hy as [Hy _]. contradiction.
        -- apply NoDup_singleton.
      * intros source. rewrite elem_of_app, Hin, list_elem_of_singleton.
        rewrite elem_of_cons. split.
        -- intros [[H1 H2]| ->]; [split; [now right|exact H2]|].
           split; [now left|exact Hxw].
        -- intros [[->|H1] H2]; [now right|left; now split].
Qed.

Lemma release_log (ref : option nat) (c : nat → call) (w : world) :
  calls (release ref c w)
  = calls w ++ match ref with Some h => [c h] | None => [] end
  ∧ stopped (release ref c w) = stopped w
  ∧ fresh (release ref c w) = fresh w
  ∧ reactions (release ref c w) = reactions w.
Proof.
  destruct ref; cbn; [|rewrite app_nil_r]; repeat split; reflexivity.
Qed.

Lemma then_close_log (ref : option nat) (w : world) :
  calls (then_close ref w)
  = calls w ++ match ref with Some h => [PromiseThen h] | None => [] end
  ∧ stopped (then_close ref w) = stopped w
  ∧ fresh (then_close ref w) = fresh w
  ∧ reactions (then_close ref w)
    = reactions w ++ match ref with Some h => [h] | None => [] end.
Proof.
  destruct ref; cbn; rewrite ?app_nil_r; repeat split; reflexivity.
Qed.

Lemma stop_each_reactions (X : gset nat) (w : world) :
  reactions (stop_each X w) = reactions w.
Proof.
  unfold stop_each. induction (elements X) as [|x l IH]; [reflexivity|].
  cbn [foldr]. unfold source_stop.
  destruct (decide (x ∈ stopped _)); [exact IH|]. cbn [reactions]. exact IH.
Qed.

Lemma disconnect_calls (w : world) (s : state) :
  ∃ stops,
    calls (fst (disconnect (w, s)))
    = calls w ++ release_calls s ++ map SourceStop stops
    ∧ NoDup stops
    ∧ (∀ source, source ∈ stops ↔ source ∈ sourcesRef s ∧ source ∉ stopped w)
    ∧ stopped (fst (disconnect (w, s))) = sourcesRef s ∪ stopped w
    ∧ torn_down (snd (disconnect (w, s)))
    ∧ connectionState (snd (disconnect (w, s))) = DISCONNECTED
    ∧ error (snd (disconnect (w, s))) = error s
    ∧ transcriptions (snd (disconnect (w, s))) = transcriptions s
    ∧ reactions (fst (disconnect (w, s)))
      = reactions w
        ++ match sessionPromiseRef s with Some p => [p] | None => [] end.
Proof.
  unfold disconnect. cbn [fst snd].
  set (w1 := then_close (sessionPromiseRef s) w).
  cbn [sessionPromiseRef streamRef processorRef inputSourceRef inputContextRef
         outputContextRef sourcesRef set_sessionPromiseRef set_streamRef
         set_processorRef set_inputSourceRef set_inputContextRef
         set_outputContextRef].
  set (w2 := release (streamRef s) TracksStop w1).
  set (w3 := release (processorRef s) NodeDisconnect w2).
  set (w4 := release (inputSourceRef s) NodeDisconnect w3).
  set (w5 := release (inputContextRef s) ContextClose w4).
  set (w6 := release (outputContextRef s) ContextClose w5).
  assert (H6 : calls w6 = calls w ++ release_calls s
               ∧ stopped w6 = stopped w
               ∧ reactions w6
                 = reactions w
                   ++ match sessionPromiseRef s with
                      | Some p => [p]
                      | None => []
                      end).
  { destruct (then_close_log (sessionPromiseRef s) w) as (C1 & S1 & _ & R1).
    destruct (release_log (streamRef s) TracksStop w1) as (C2 & S2 & _ & R2).
    destruct (release_log (processorRef s) NodeDisconnect w2)
      as (C3 & S3 & _ & R3).
    destruct (release_log (inputSourceRef s) NodeDisconnect w3)
      as (C4 & S4 & _ & R4).
    destruct (release_log (inputContextRef s) ContextClose w4)
      as (C5 & S5 & _ & R5).
    destruct (release_log (outputContextRef s) ContextClose w5)
      as (C6 & S6 & _ & R6).
    fold w1 in C1, S1, R1. fold w2 in C2, S2, R2. fold w3 in C3, S3, R3.
    fold w4 in C4, S4, R4. fold w5 in C5, S5, R5. fold w6 in C6, S6, R6.
    split; [|split; congruence].
    rewrite C6, C5, C4, C3, C2, C1. unfold release_calls.
    now rewrite <- !app_assoc. }
  destruct H6 as (Hc6 & Hs6 & Hr6).
  destruct (stop_list_calls (elements (sourcesRef s)) w6
              (NoDup_elements _)) as (stops & Hc & Hnd & Hin).
  cbv zeta in Hc.
  exists stops. unfold stop_each at 1. rewrite Hc, Hc6, <- app_assoc.
  split; [reflexivity|]. split; [exact Hnd|]. split.
  - intros source. rewrite Hin, Hs6, elem_of_elements. reflexivity.
  - split; [now rewrite stop_each_stopped, Hs6|].
    split; [unfold torn_down; cbn; tauto|].
    split; [reflexivity|]. split; [reflexivity|]. split; [reflexivity|].
    change (reactions (stop_each (sourcesRef s) w6) = reactions w ++
      match sessionPromiseRef s with Some p => [p] | None => [] end).
    etransitivity; [apply stop_each_reactions|exact Hr6].
Qed.

(** X13.  [disconnect] registers a continuation on the session promise when
    its ref is set, and calls [close] on no session itself; it releases the
    stream, the processor, the input source, the input context and the
    output context whose ref is set, each once and in that order, then
    stops exactly the live sources that were not stopped yet, each once; it
    makes no other call (it starts no audio), nulls every resource ref,
    empties the live set, resets the cursor and ends in Disconnected,
    keeping the error message and the transcript.  The session is closed
    only when the continuation has its turn, after [disconnect] has
    returned, and only if the promise was fulfilled; a rejected promise
    leaves the session unclosed. *)
Theorem disconnect_releases_what_is_held (w : world) (s : state) :
  ∃ stops,
    calls (fst (disconnect (w, s)))
    = calls w ++ release_calls s ++ map SourceStop stops
    ∧ NoDup stops
    ∧ (∀ source, source ∈ stops ↔ source ∈ sourcesRef s ∧ source ∉ stopped w)
    ∧ stopped (fst (disconnect (w, s))) = sourcesRef s ∪ stopped w
    ∧ torn_down (snd (disconnect (w, s)))
    ∧ connectionState (snd (disconnect (w, s))) = DISCONNECTED
    ∧ error (snd (disconnect (w, s))) = error s
    ∧ transcriptions (snd (disconnect (w, s))) = transcriptions s
    ∧ (∀ session,
         ¬ In (SessionClose session)
             (release_calls s ++ map SourceStop stops))
    ∧ reactions (fst (disconnect (w, s)))
      = reactions w
        ++ match sessionPromiseRef s with Some p => [p] | None => [] end
    ∧ (∀ promise session e,
         sessionPromiseRef s = Some promise → reactions w = [] →
         calls (fst (session_reaction (Ok session) (disconnect (w, s))))
         = calls (fst (disconnect (w, s))) ++ [SessionClose session]
         ∧ reactions (fst (session_reaction (Ok session) (disconnect (w, s))))
           = []
         ∧ calls (fst (session_reaction (Throw e) (disconnect (w, s))))
           = calls (fst (disconnect (w, s)))
         ∧ snd (session_reaction (Ok session) (disconnect (w, s)))
           = snd (disconnect (w, s))).
Proof.
  destruct (disconnect_calls w s)
    as (stops & Hc & Hnd & Hin & Hst & Htd & Hcs & Herr & Htr & Hre).
  exists stops.
  split; [exact Hc|]. split; [exact Hnd|]. split; [exact Hin|].
  split; [exact Hst|]. split; [exact Htd|]. split; [exact Hcs|].
  split; [exact Herr|]. split; [exact Htr|]. split; [|split; [exact Hre|]].
  - intros session H. apply in_app_or in H as [H|H].
    + unfold release_calls in H.
      repeat (apply in_app_or in H as [H|H]);
        repeat match type of H with
               | In _ match ?x with _ => _ end => destruct x
               end;
        cbn in H; intuition congruence.
    + apply in_map_iff in H as (x & Hx & _). discriminate.
  - intros promise session e Hp Hr. rewrite Hp, Hr in Hre. cbn [app] in Hre.
    destruct (disconnect (w, s)) as [w' s']. cbn [fst snd] in *.
    unfold session_reaction. rewrite Hre. cbn. repeat split; reflexivity.
Qed.

(** *** Contexts across connection attempts *)

Lemma connect_context_refs (API_KEY : string) (p : setup) (s : state)
    (ic oc : nat) :
  API_KEY ≠ ""%string →
  new_inputContext p = Ok ic → new_outputContext p = Ok oc →
  inputContextRef (connect API_KEY p s) = Some ic
  ∧ outputContextRef (connect API_KEY p s) = Some oc.
Proof.
  intros Hkey Hi Ho. unfold connect.
  destruct API_KEY as [|a k]; [congruence|].
  destruct p as [a1 a2 a3 a4 a5 a6 a7]. cbn in Hi, Ho. subst a1 a2.
  unfold connect_try. cbn.
  destruct a3; [|split; reflexivity]. destruct a4; [|split; reflexivity].
  destruct a5; [|split; reflexivity]. destruct a6; [|split; reflexivity].
  destruct a7; split; reflexivity.
Qed.

(** X14.  [connect] overwrites the two context refs with the contexts it
    creates and closes nothing: when a later [disconnect] runs, the only
    contexts it closes are those two, so contexts still referenced from an
    earlier attempt (a failed [connect], or a session the remote side
    closed) are never closed. *)
Theorem connect_replaces_contexts_unclosed (API_KEY : string) (p : setup)
    (w : world) (s : state) (ic oc c : nat) :
  API_KEY ≠ ""%string →
  new_inputContext p = Ok ic → new_outputContext p = Ok oc →
  In (ContextClose c) (calls (fst (disconnect (w, connect API_KEY p s)))) →
  In (ContextClose c) (calls w) ∨ c = ic ∨ c = oc.
Proof.
  intros Hkey Hi Ho Hin.
  destruct (connect_context_refs API_KEY p s ic oc Hkey Hi Ho) as [Ri Ro].
  destruct (disconnect_calls w (connect API_KEY p s))
    as (stops & Hc & _).
  rewrite Hc in Hin. apply in_app_or in Hin as [Hin|Hin]; [now left|].
  right. apply in_app_or in Hin as [Hin|Hin].
  - unfold release_calls in Hin. rewrite Ri, Ro in Hin.
    repeat (apply in_app_or in Hin as [Hin|Hin]);
      repeat match type of Hin with
             | In _ match ?x with _ => _ end => destruct x
             end;
      cbn in Hin; intuition congruence.
  - apply in_map_iff in Hin as (x & Hx & _). discriminate.
Qed.

Lemma connect_replaces_contexts_unclosed_witness :
  In (ContextClose 0)
    (calls (fst (disconnect
                   (initial_world,
                    connect "key" setup_ok
                      (set_inputContextRef (Some 7%nat) initial_state)))))
  ∧ (In (ContextClose 0) (calls initial_world) ∨ 0%nat = 0%nat ∨ 0%nat = 1%nat).
Proof.
  assert (H : In (ContextClose 0)
                (calls (fst (disconnect
                               (initial_world,
                                connect "key" setup_ok
                                  (set_inputContextRef (Some 7%nat)
                                     initial_state)))))).
  { vm_compute. do 2 right. now left. }
  split; [exact H|].
  apply (connect_replaces_contexts_unclosed "key" setup_ok initial_world
           (set_inputContextRef (Some 7%nat) initial_state) 0 1 0);
    [discriminate | reflexivity | reflexivity | exact H].
Defined.

(** *** A remote error *)

(** X15.  When the session reports an error, [onerror] records the message
    prefixed with [Connection error: ], stops every live source, releases
    every held resource and, because [disconnect] is the last to set the
    connection state, leaves the state machine in Disconnected, not in
    Error; no audio is started. *)
Theorem onerror_ends_disconnected (err : string) (w : world) (s : state) :
  connectionState (snd (onerror err (w, s))) = DISCONNECTED
  ∧ connectionState (snd (onerror err (w, s))) ≠ ERROR
  ∧ error (snd (onerror err (w, s)))
    = Some (String.append "Connection error: " err)
  ∧ torn_down (snd (onerror err (w, s)))
  ∧ stopped (fst (onerror err (w, s))) = sourcesRef s ∪ stopped w
  ∧ timeline (fst (onerror err (w, s))) = timeline w.
Proof.
  unfold onerror. cbn [fst snd].
  set (s1 := setConnectionState ERROR
               (setError (Some (String.append "Connection error: " err)) s)).
  destruct (disconnect_calls w s1)
    as (stops & Hc & _ & _ & Hst & Htd & Hcs & Herr & _ & _).
  split; [exact Hcs|]. split; [rewrite Hcs; discriminate|].
  split; [rewrite Herr; reflexivity|]. split; [exact Htd|].
  split; [exact Hst|].
  unfold timeline. rewrite Hc, !omap_app.
  assert (E1 : omap entry_of_call (release_calls s1) = []).
  { unfold release_calls.
    destruct (sessionPromiseRef s1), (streamRef s1), (processorRef s1),
      (inputSourceRef s1), (inputContextRef s1), (outputContextRef s1);
      reflexivity. }
  assert (E2 : omap entry_of_call (map SourceStop stops) = []).
  { clear. induction stops as [|x l IH]; [reflexivity|exact IH]. }
  now rewrite E1, E2, !app_nil_r.
Qed.

(** ** What every run of the hook preserves *)

Lemma started_stops (l : list call) (stops : list nat) :
  omap started_source (l ++ map SourceStop stops) = omap started_source l.
Proof.
  rewrite omap_app.
  assert (E : omap started_source (map SourceStop stops) = []).
  { induction stops as [|x stops IH]; [reflexivity|exact IH]. }
  rewrite E. apply app_nil_r.
Qed.

Lemma stop_each_started (X : gset nat) (w : world) :
  started (stop_each X w) = started w.
Proof.
  unfold stop_each, started.
  destruct (stop_list_calls (elements X) w (NoDup_elements _))
    as (stops & Hc & _). cbv zeta in Hc.
  rewrite Hc. apply started_stops.
Qed.

Lemma started_release_calls (s : state) :
  omap started_source (release_calls s) = [].
Proof.
  unfold release_calls.
  destruct (sessionPromiseRef s), (streamRef s), (processorRef s),
    (inputSourceRef s), (inputContextRef s), (outputContextRef s);
    reflexivity.
Qed.

Lemma disconnect_fresh (w : world) (s : state) :
  fresh (fst (disconnect (w, s))) = fresh w.
Proof.
  unfold disconnect. cbn [fst]. rewrite stop_each_fresh.
  repeat match goal with
         | |- context [release ?r ?c ?x] =>
             let H := fresh in
             destruct (release_log r c x) as (_ & _ & H & _);
             rewrite H; clear H
         end.
  now destruct (then_close_log (sessionPromiseRef s) w) as (_ & _ & H & _).
Qed.

Lemma scheduler_ok_disconnect (ws : world * state) :
  scheduler_ok ws → scheduler_ok (disconnect ws).
Proof.
  destruct ws as [w s]. unfold scheduler_ok. cbn [fst snd].
  intros (H0 & Hnd & Hfr & Hst & Hlive & Hctx).
  destruct (disconnect_calls w s)
    as (stops & Hc & _ & _ & Hstop & Htd & _).
  assert (Hs : started (fst (disconnect (w, s))) = started w).
  { unfold started. rewrite Hc, app_assoc, started_stops, omap_app.
    rewrite started_release_calls. apply app_nil_r. }
  rewrite Hs, Hstop, disconnect_fresh.
  destruct Htd as (_ & _ & _ & _ & _ & _ & Hcur & Hsrc).
  rewrite Hcur, Hsrc.
  split; [apply Qle_refl|]. split; [exact Hnd|]. split; [exact Hfr|]. split.
  - intros source Hin. apply elem_of_union in Hin as [Hin|Hin].
    + now apply Hlive.
    + now apply Hst.
  - split; [intros source Hin; now apply not_elem_of_empty in Hin|].
    intros H. congruence.
Qed.

Lemma connect_scheduler (API_KEY : string) (p : setup) (s : state) :
  nextStartTimeRef (connect API_KEY p s) = nextStartTimeRef s
  ∧ sourcesRef (connect API_KEY p s) = sourcesRef s
  ∧ (is_Some (outputContextRef s) →
     is_Some (outputContextRef (connect API_KEY p s))).
Proof.
  unfold connect. destruct API_KEY as [|a k]; [cbn; tauto|].
  destruct p as [a1 a2 a3 a4 a5 a6 a7]. unfold connect_try. cbn.
  destruct a1; [|cbn; tauto]. destruct a2; [|cbn; tauto].
  destruct a3; [|cbn; eauto]. destruct a4; [|cbn; eauto].
  destruct a5; [|cbn; eauto]. destruct a6; [|cbn; eauto].
  destruct a7; cbn; eauto.
Qed.

Lemma scheduler_ok_connect (API_KEY : string) (p : setup)
    (ws : world * state) :
  scheduler_ok ws → scheduler_ok (fst ws, connect API_KEY p (snd ws)).
Proof.
  unfold scheduler_ok. cbn [fst snd].
  destruct (connect_scheduler API_KEY p (snd ws)) as (-> & -> & Hc).
  intros (H0 & Hnd & Hfr & Hst & Hlive & Hctx).
  repeat (split; [assumption|]). auto.
Qed.

Lemma scheduler_ok_onopen (ws : world * state) :
  scheduler_ok ws → scheduler_ok (onopen ws).
Proof.
  destruct ws as [w s]. unfold scheduler_ok, onopen. cbn [fst snd].
  intros (H0 & Hnd & Hfr & Hst & Hlive & Hctx).
  cbn. destruct (inputContextRef s); [|cbn; tauto].
  destruct (streamRef s); cbn; [|tauto].
  repeat (split; [assumption|]).
  split; [intros source Hin; apply Hfr in Hin; lia|]. tauto.
Qed.

Lemma scheduler_ok_interrupt (ws : world * state) :
  scheduler_ok ws → scheduler_ok (interrupt ws).
Proof.
  destruct ws as [w s]. unfold scheduler_ok, interrupt. cbn [fst snd].
  intros (H0 & Hnd & Hfr & Hst & Hlive & Hctx).
  rewrite stop_each_started, stop_each_stopped, stop_each_fresh. cbn.
  split; [apply Qle_refl|]. split; [exact Hnd|]. split; [exact Hfr|]. split.
  - intros source Hin. apply elem_of_union in Hin as [Hin|Hin].
    + now apply Hlive.
    + now apply Hst.
  - split; [intros source Hin; now apply not_elem_of_empty in Hin|].
    intros H. congruence.
Qed.

Lemma nonneg_Math_max (x : number) (now : Q) :
  nonneg x → nonneg (Math_max x (Num now)).
Proof.
  destruct x as [c| | |]; cbn [nonneg]; try contradiction.
  - intros H. rewrite Math_max_Num. cbn [nonneg].
    pose proof (Q.le_max_l c now). lra.
  - intros _. exact I.
Qed.

Lemma nonneg_advance (when : Q) (b : AudioBuffer) :
  (0 <= when)%Q → sampleRate b = 24000%Q →
  (1 ≤ length (channelData b))%nat →
  nonneg (add (Num when) (duration b)).
Proof.
  intros Hw Hr HL.
  destruct (duration_decoded b Hr HL) as [->|(dv & -> & Hdv & _)];
    [exact I|].
  cbn [add].
  destruct (fl64_nonneg (when + dv)) as [->|(v & -> & Hv)];
    [lra|exact I|exact Hv].
Qed.

Lemma scheduler_ok_play_audio (base64Audio : list Z) (now : Q)
    (ws : world * state) :
  is_Some (outputContextRef (snd ws)) →
  scheduler_ok ws → scheduler_ok (play_audio base64Audio now ws).
Proof.
  destruct ws as [w s]. unfold scheduler_ok. cbn [fst snd].
  intros Hc (H0 & Hnd & Hfr & Hst & Hlive & Hctx).
  pose proof (nonneg_Math_max _ now H0) as Hmax.
  destruct (decodeAudioData base64Audio 24000) as [audioBuffer|] eqn:E;
    [destruct (start_time (Math_max (nextStartTimeRef s) (Num now)))
       as [when|] eqn:Es|].
  - destruct (play_audio_decoded base64Audio now w s audioBuffer when E Es)
      as (Hcalls & -> & -> & -> & -> & Hout).
    destruct (decodeAudioData_buffer _ _ _ E) as [Hr HL].
    apply start_time_Some in Es as [_ Hw].
    assert (Hs : started (fst (play_audio base64Audio now (w, s)))
                 = started w ++ [fresh w]).
    { unfold started. rewrite Hcalls. now rewrite omap_app. }
    rewrite Hs.
    assert (Hfresh : fresh w ∉ started w).
    { intros Hin. apply Hfr in Hin. lia. }
    split; [now apply nonneg_advance|]. split.
    { apply NoDup_app. split; [exact Hnd|]. split; [|apply NoDup_singleton].
      intros y Hy Hy'. apply list_elem_of_singleton in Hy' as ->.
      contradiction. }
    split.
    { intros source Hin. apply elem_of_app in Hin as [Hin|Hin].
      - apply Hfr in Hin. lia.
      - apply list_elem_of_singleton in Hin as ->. lia. }
    split.
    { intros source Hin. apply elem_of_app. left. now apply Hst. }
    split; [|intros _; rewrite Hout; exact Hc].
    intros source Hin. apply elem_of_union in Hin as [Hin|Hin].
    + apply elem_of_singleton in Hin as ->. split.
      * apply elem_of_app. right. now apply list_elem_of_singleton.
      * intros H. apply Hst in H. contradiction.
    + destruct (Hlive source Hin) as [H1 H2]. split; [|exact H2].
      apply elem_of_app. now left.
  - destruct (play_audio_not_started base64Audio now w s (or_intror Es))
      as (Hcalls & -> & Hfresh & -> & -> & ->).
    unfold started. rewrite Hcalls. fold (started w).
    split; [exact Hmax|]. split; [exact Hnd|].
    split; [intros source Hin; apply Hfr in Hin; lia|].
    repeat (split; [assumption|]). intros _. exact Hc.
  - destruct (play_audio_not_started base64Audio now w s (or_introl E))
      as (Hcalls & -> & Hfresh & -> & -> & ->).
    unfold started. rewrite Hcalls. fold (started w).
    split; [exact Hmax|]. split; [exact Hnd|].
    split; [intros source Hin; apply Hfr in Hin; lia|].
    repeat (split; [assumption|]). intros _. exact Hc.
Qed.

Lemma scheduler_ok_transcriptions (r : readings) (m : LiveServerMessage)
    (ws : world * state) :
  scheduler_ok ws → scheduler_ok (handle_transcriptions r m ws).
Proof.
  unfold scheduler_ok.
  destruct (handle_transcriptions_refs r m ws) as (-> & -> & -> & ->).
  trivial.
Qed.

Lemma scheduler_ok_onmessage (r : readings) (m : LiveServerMessage)
    (ws : world * state) :
  scheduler_ok ws → scheduler_ok (onmessage r m ws).
Proof.
  intros H. unfold onmessage. cbv zeta.
  assert (H1 : scheduler_ok (handle_audio r m ws)).
  { unfold handle_audio.
    destruct (inlineData_data m) as [b|]; [|exact H].
    destruct (outputContextRef (snd ws)) as [ctx|] eqn:E; [|exact H].
    destruct (truthy b); [|exact H].
    apply scheduler_ok_play_audio; [rewrite E; eauto|exact H]. }
  apply (scheduler_ok_transcriptions r m) in H1.
  destruct (interrupted m); [now apply scheduler_ok_interrupt|exact H1].
Qed.

Lemma scheduler_ok_onended (source : nat) (ws : world * state) :
  scheduler_ok ws → scheduler_ok (onended source ws).
Proof.
  unfold scheduler_ok, onended. cbn [fst snd].
  intros (H0 & Hnd & Hfr & Hst & Hlive & Hctx). cbn.
  repeat (split; [assumption|]). split.
  - intros x Hx. apply elem_of_difference in Hx as [Hx _]. now apply Hlive.
  - intros Hne. apply Hctx. intros E. apply Hne. rewrite E.
    apply set_eq. intros x. rewrite elem_of_difference.
    split; [tauto|]. intros Hx. now apply not_elem_of_empty in Hx.
Qed.

Lemma scheduler_ok_setters (c : ConnectionState) (e : option string)
    (ws : world * state) :
  scheduler_ok ws →
  scheduler_ok (fst ws, setConnectionState c (setError e (snd ws))).
Proof. unfold scheduler_ok. cbn. trivial. Qed.

Lemma scheduler_ok_reaction (outcome : result nat) (ws : world * state) :
  scheduler_ok ws → scheduler_ok (session_reaction outcome ws).
Proof.
  destruct ws as [w s]. unfold scheduler_ok, session_reaction.
  destruct (reactions w) as [|p l]; [trivial|].
  destruct outcome as [session|e]; cbn [fst snd]; unfold started; cbn.
  - rewrite omap_app. cbn. rewrite app_nil_r. trivial.
  - trivial.
Qed.

Lemma scheduler_ok_step (API_KEY : string) (e : event) (ws : world * state) :
  scheduler_ok ws → scheduler_ok (step API_KEY ws e).
Proof.
  intros H. destruct e as [p|p| | |r m|source| |err| |outcome]; cbn [step].
  - unfold App.click, App.handleToggle.
    destruct (App.isConnecting (snd ws)); [exact H|].
    destruct (App.isConnected (snd ws));
      [now apply scheduler_ok_disconnect|now apply scheduler_ok_connect].
  - now apply scheduler_ok_connect.
  - now apply scheduler_ok_disconnect.
  - now apply scheduler_ok_onopen.
  - now apply scheduler_ok_onmessage.
  - now apply scheduler_ok_onended.
  - unfold onclose. unfold scheduler_ok in *. cbn. exact H.
  - unfold onerror. apply scheduler_ok_disconnect.
    apply (scheduler_ok_setters ERROR
             (Some (String.append "Connection error: " err)) ws H).
  - now apply scheduler_ok_disconnect.
  - now apply scheduler_ok_reaction.
Qed.

Lemma scheduler_ok_initial : scheduler_ok (initial_world, initial_state).
Proof.
  unfold scheduler_ok. cbn. split; [apply Qle_refl|]. split; [constructor|].
  split; [intros x Hx; inversion Hx|].
  split; [intros x Hx; now apply not_elem_of_empty in Hx|].
  split; [intros x Hx; now apply not_elem_of_empty in Hx|].
  intros H. congruence.
Qed.

(** X16.  In every state the hook can reach from its mounted state, by any
    sequence of clicks, calls of [connect] and [disconnect], session
    callbacks, ended sources and the unmount clean-up: the cursor is not
    negative; every buffer source started has a handle of its own; only
    started sources are ever stopped; every live handle belongs to a source
    that was started and has not been stopped (so the [stop] of an
    interruption or of [disconnect] never meets an already stopped source);
    and sources are live only while an output context is referenced. *)
Theorem scheduler_ok_reachable (API_KEY : string) (events : list event) :
  scheduler_ok (steps API_KEY events (initial_world, initial_state)).
Proof.
  unfold steps. generalize (initial_world, initial_state) scheduler_ok_initial.
  induction events as [|e events IH]; intros ws Hws; [exact Hws|].
  cbn [fold_left]. apply IH. now apply scheduler_ok_step.
Qed.

(** ** Playback across interruptions *)

Ltac settled_simpl :=
  unfold settled;
  cbn [fst snd sourcesRef nextStartTimeRef set_nextStartTimeRef
         set_sourcesRef calls stopped];
  rewrite ?stop_each_stopped.

Lemma no_overlap_mono (S S' : gset nat) (l : list call) :
  S ⊆ S' → no_overlap S l → no_overlap S' l.
Proof.
  intros Hsub H j k s1 a1 w1 d1 s2 a2 w2 d2 Hjk H1 H2.
  destruct (H j k s1 a1 w1 d1 s2 a2 w2 d2 Hjk H1 H2) as [Hs|Hle];
    [left; now apply Hsub|now right].
Qed.

Lemma no_overlap_stops (S : gset nat) (l : list call) (stops : list nat) :
  no_overlap S l → no_overlap S (l ++ map SourceStop stops).
Proof.
  intros H j k s1 a1 w1 d1 s2 a2 w2 d2 Hjk H1 H2.
  assert (Hk : (k < length l)%nat).
  { destruct (decide (k < length l)%nat) as [Hk|Hk]; [exact Hk|].
    rewrite lookup_app_r in H2 by lia.
    change (map SourceStop stops) with (SourceStop <$> stops) in H2.
    rewrite list_lookup_fmap in H2.
    destruct (stops !! (k - length l)%nat); discriminate. }
  rewrite lookup_app_l in H1 by lia. rewrite lookup_app_l in H2 by lia.
  exact (H j k s1 a1 w1 d1 s2 a2 w2 d2 Hjk H1 H2).
Qed.

Lemma no_overlap_start (S : gset nat) (l : list call) (source : nat)
    (a when : Q) (b : AudioBuffer) :
  no_overlap S l →
  Forall (fun c =>
            match c with
            | SourceStart source1 _ when1 b1 =>
                source1 ∈ S ∨ by_rounding (when1 + seconds b1) when
            | _ => True
            end) l →
  no_overlap S (l ++ [SourceStart source a when b]).
Proof.
  intros H Hall j k s1 a1 w1 d1 s2 a2 w2 d2 Hjk H1 H2.
  destruct (decide (k < length l)%nat) as [Hk|Hk].
  - rewrite lookup_app_l in H1 by lia. rewrite lookup_app_l in H2 by lia.
    exact (H j k s1 a1 w1 d1 s2 a2 w2 d2 Hjk H1 H2).
  - rewrite lookup_app_r in H2 by lia.
    destruct (k - length l)%nat as [|n] eqn:E; [|discriminate].
    cbn in H2. injection H2 as <- <- <- <-.
    rewrite lookup_app_l in H1 by lia.
    rewrite Forall_forall in Hall.
    apply (Hall (SourceStart s1 a1 w1 d1)).
    apply list_elem_of_lookup. eauto.
Qed.

(** *** The cursor against the ends of the live sources *)

Lemma binary64_zero : binary64 0.
Proof. exists 0%Q. split; reflexivity. Qed.

Lemma is_number_Math_max (x : number) (now : Q) :
  is_number x → binary64 now → is_number (Math_max x (Num now)).
Proof.
  destruct x as [c| | |]; cbn [is_number]; intros Hx Hnow.
  - rewrite Math_max_Num. now apply binary64_max.
  - exact I.
  - exact Hnow.
  - exact I.
Qed.

Lemma Math_max_clock (x : number) (now when : Q) :
  Math_max x (Num now) = Num when → (now <= when)%Q.
Proof.
  destruct x as [c| | |].
  - rewrite Math_max_Num. intros [= <-]. apply Q.le_max_r.
  - discriminate.
  - cbn. intros [= <-]. apply Qle_refl.
  - discriminate.
Qed.

Lemma ends_by_cursor_max (t : Q) (x : number) (now : Q) :
  ends_by_cursor t x → ends_by_cursor t (Math_max x (Num now)).
Proof.
  destruct x as [c| | |]; cbn [ends_by_cursor]; try contradiction.
  - rewrite Math_max_Num. cbn [ends_by_cursor].
    apply by_rounding_le, Q.le_max_l.
  - intros _. exact I.
Qed.

Lemma ends_by_cursor_advance (t when : Q) (b : AudioBuffer) :
  (0 <= when)%Q → binary64 when →
  sampleRate b = 24000%Q → (1 ≤ length (channelData b))%nat →
  by_rounding t when →
  ends_by_cursor t (add (Num when) (duration b)).
Proof.
  intros Hw Hb Hr HL Ht.
  destruct (cursor_advance when b Hw Hb Hr HL)
    as [->|(c & -> & Hle & _ & _)]; [exact I|].
  cbn [ends_by_cursor]. exact (by_rounding_le t when c Hle Ht).
Qed.

Lemma ends_by_cursor_start (when : Q) (b : AudioBuffer) :
  (0 <= when)%Q → binary64 when →
  sampleRate b = 24000%Q → (1 ≤ length (channelData b))%nat →
  ends_by_cursor (when + seconds b) (add (Num when) (duration b)).
Proof.
  intros Hw Hb Hr HL.
  destruct (cursor_advance when b Hw Hb Hr HL)
    as [->|(c & -> & _ & _ & Hc)]; [exact I|exact Hc].
Qed.

Lemma is_number_advance (when : Q) (b : AudioBuffer) :
  (0 <= when)%Q → binary64 when →
  sampleRate b = 24000%Q → (1 ≤ length (channelData b))%nat →
  is_number (add (Num when) (duration b)).
Proof.
  intros Hw Hb Hr HL.
  destruct (cursor_advance when b Hw Hb Hr HL)
    as [->|(c & -> & _ & Hc & _)]; [exact I|exact Hc].
Qed.

Lemma playing_handle_transcriptions (old : list call) (T : Q)
    (r : readings) (m : LiveServerMessage) (ws : world * state) :
  playing old T ws → playing old T (handle_transcriptions r m ws).
Proof.
  unfold playing, settled.
  destruct (handle_transcriptions_refs r m ws) as (-> & -> & -> & _).
  trivial.
Qed.

Lemma playing_interrupt (old : list call) (T : Q) (ws : world * state) :
  playing old T ws → playing old T (interrupt ws).
Proof.
  destruct ws as [w s]. intros (_ & new & Hc & Hset & Hno).
  cbn [fst snd] in *. unfold interrupt.
  destruct (stop_list_calls (elements (sourcesRef s)) w (NoDup_elements _))
    as (stops & Hcs & _). cbv zeta in Hcs.
  split; [exact binary64_zero|].
  exists (new ++ map SourceStop stops). cbn [fst snd].
  split; [unfold stop_each; rewrite Hcs, Hc; symmetry; apply app_assoc|].
  rewrite stop_each_stopped. split.
  - apply Forall_app. split.
    + apply (Forall_impl _ _ _ Hset).
      intros [src a when d| | | | | |]; try easy.
      settled_simpl. intros [H|[[H1 H2]|[H1 H2]]].
      * left. apply elem_of_union. now right.
      * left. apply elem_of_union. now left.
      * right. right. split; [apply not_elem_of_empty|exact H2].
    + apply Forall_forall. intros c Hin.
      apply list_elem_of_In, in_map_iff in Hin as (x & <- & _). exact I.
  - apply no_overlap_stops.
    apply (no_overlap_mono (stopped w)); [|exact Hno].
    apply union_subseteq_r.
Qed.

Lemma playing_not_started (old : list call) (T now : Q)
    (base64Audio : list Z) (w : world) (s : state) :
  (T <= now)%Q → binary64 now →
  decodeAudioData base64Audio 24000 = None
  ∨ start_time (Math_max (nextStartTimeRef s) (Num now)) = None →
  playing old T (w, s) →
  playing old now (play_audio base64Audio now (w, s)).
Proof.
  intros HT Hnow Hnot (Hnum & new & Hc & Hset & Hno). cbn [fst snd] in *.
  destruct (play_audio_not_started base64Audio now w s Hnot)
    as (Hcalls & Hst & _ & Hcur & Hsrc & _).
  split; [rewrite Hcur; now apply is_number_Math_max|].
  exists new. split; [now rewrite Hcalls|]. split; [|now rewrite Hst].
  apply (Forall_impl _ _ _ Hset).
  intros [src a when d| | | | | |]; try easy.
  unfold settled. rewrite Hst, Hcur, Hsrc. cbn [fst snd].
  intros [H|[[H1 H2]|[H1 H2]]].
  - now left.
  - right. left. split; [exact H1|now apply ends_by_cursor_max].
  - right. right. split; [exact H1|lra].
Qed.

Lemma playing_play_audio (old : list call) (T now : Q)
    (base64Audio : list Z) (ws : world * state) :
  (T <= now)%Q → binary64 now → playing old T ws →
  playing old now (play_audio base64Audio now ws).
Proof.
  destruct ws as [w s]. intros HT Hnow Hpl.
  destruct (decodeAudioData base64Audio 24000) as [audioBuffer|] eqn:E;
    [destruct (start_time (Math_max (nextStartTimeRef s) (Num now)))
       as [when|] eqn:Es|];
    [|now apply (playing_not_started old T); [| |right|]
     |now apply (playing_not_started old T); [| |left|]].
  destruct Hpl as (Hnum & new & Hc & Hset & Hno). cbn [fst snd] in *.
  destruct (play_audio_decoded base64Audio now w s audioBuffer when E Es)
    as (Hcalls & Hst & _ & Hcur & Hsrc & _).
  destruct (decodeAudioData_buffer _ _ _ E) as [Hr HL].
  apply start_time_Some in Es as [Emax Hw].
  pose proof (Math_max_clock _ _ _ Emax) as Hclock.
  assert (Hbw : binary64 when).
  { pose proof (is_number_Math_max _ now Hnum Hnow) as H.
    rewrite Emax in H. exact H. }
  assert (Hlive : ∀ t, ends_by_cursor t (nextStartTimeRef s) →
                       by_rounding t when).
  { intros t Ht. apply (ends_by_cursor_max t _ now) in Ht.
    rewrite Emax in Ht. exact Ht. }
  assert (Hpast : ∀ t, (t <= T)%Q → by_rounding t when).
  { intros t Ht. apply by_rounding_exact; [exact Hw|]. lra. }
  split; [rewrite Hcur; now apply is_number_advance|].
  exists (new ++ [SourceStart (fresh w) now when audioBuffer]).
  split; [rewrite Hcalls, Hc; symmetry; apply app_assoc|]. split.
  - apply Forall_app. split.
    + apply (Forall_impl _ _ _ Hset).
      intros [src a when1 b1| | | | | |]; try easy.
      unfold settled. rewrite Hst, Hcur, Hsrc. cbn [fst snd].
      intros [H|[[H1 H2]|[H1 H2]]].
      * now left.
      * right. left. split; [apply elem_of_union; now right|].
        apply ends_by_cursor_advance; auto.
      * destruct (decide (src = fresh w)) as [->|Hne].
        -- right. left.
           split; [apply elem_of_union; left; now apply elem_of_singleton|].
           apply ends_by_cursor_advance; auto.
        -- right. right. split; [|lra].
           intros Hin. apply elem_of_union in Hin as [Hin|Hin];
             [apply elem_of_singleton in Hin; contradiction|contradiction].
    + constructor; [|constructor].
      unfold settled. rewrite Hst, Hcur, Hsrc. cbn [fst snd].
      right. left.
      split; [apply elem_of_union; left; now apply elem_of_singleton|].
      now apply ends_by_cursor_start.
  - rewrite Hst. apply no_overlap_start; [exact Hno|].
    apply (Forall_impl _ _ _ Hset).
    intros [src a when1 b1| | | | | |]; try easy.
    unfold settled. cbn [fst snd].
    intros [H|[[H1 H2]|[H1 H2]]]; [now left|right; auto|right; auto].
Qed.

Lemma playing_later (old : list call) (T T' : Q) (ws : world * state) :
  (T <= T')%Q → playing old T ws → playing old T' ws.
Proof.
  intros HT (Hnum & new & Hc & Hset & Hno). split; [exact Hnum|]. exists new.
  split; [exact Hc|]. split; [|exact Hno].
  apply (Forall_impl _ _ _ Hset).
  intros [src a when d| | | | | |]; try easy. settled_simpl.
  intros [H|[[H1 H2]|[H1 H2]]]; [now left|right; now left|].
  right. right. split; [exact H1|lra].
Qed.

Lemma playing_onmessage (old : list call) (T : Q) (r : readings)
    (m : LiveServerMessage) (ws : world * state) :
  (T <= currentTime r)%Q → binary64 (currentTime r) → playing old T ws →
  playing old (currentTime r) (onmessage r m ws).
Proof.
  intros HT Hnow H. unfold onmessage. cbv zeta.
  assert (H1 : playing old (currentTime r) (handle_audio r m ws)).
  { unfold handle_audio.
    destruct (inlineData_data m) as [b|];
      [|now apply (playing_later old T)].
    destruct (outputContextRef (snd ws));
      [|now apply (playing_later old T)].
    destruct (truthy b); [|now apply (playing_later old T)].
    now apply (playing_play_audio old T). }
  apply (playing_handle_transcriptions _ _ r m) in H1.
  destruct (interrupted m); [now apply playing_interrupt|exact H1].
Qed.

Lemma playing_onended (old : list call) (T t : Q) (source : nat)
    (ws : world * state) :
  (T <= t)%Q →
  source ∈ stopped (fst ws) ∨ Forall (played_by source t) (calls (fst ws)) →
  playing old T ws → playing old t (onended source ws).
Proof.
  intros HT Hend (Hnum & new & Hc & Hset & Hno).
  split; [exact Hnum|]. exists new.
  unfold onended. cbn [fst snd]. split; [exact Hc|]. split; [|exact Hno].
  rewrite Forall_forall in Hset. apply Forall_forall. intros c Hin.
  pose proof (Hset c Hin) as Hs.
  destruct c as [src a when d| | | | | |]; try easy.
  unfold settled in Hs |- *.
  cbn [fst snd sourcesRef nextStartTimeRef set_sourcesRef] in Hs |- *.
  destruct Hs as [H|[[H1 H2]|[H1 H2]]].
  - now left.
  - destruct (decide (src = source)) as [->|Hne].
    + destruct Hend as [Hst|Hpl]; [now left|].
      right. right. split.
      * intros Hx. apply elem_of_difference in Hx as [_ Hx].
        apply Hx. now apply elem_of_singleton.
      * rewrite Forall_forall in Hpl.
        apply (Hpl (SourceStart source a when d)); [|reflexivity].
        rewrite Hc. apply elem_of_app. now right.
    + right. left. split; [|exact H2].
      apply elem_of_difference. split; [exact H1|].
      intros Hx. apply elem_of_singleton in Hx. contradiction.
  - right. right. split; [|lra].
    intros Hx. apply elem_of_difference in Hx as [Hx _]. contradiction.
Qed.

Lemma playing_play (events : list playback_event) :
  ∀ (old : list call) (T : Q) (ws : world * state),
    well_timed T ws events → playing old T ws →
    ∃ T', playing old T' (play events ws).
Proof.
  induction events as [|e events IH]; intros old T ws Hwt H.
  - exists T. exact H.
  - destruct e as [r m|source t]; cbn [well_timed] in Hwt;
      cbn [play fold_left play_step].
    + destruct Hwt as (HT & Hnow & Hwt).
      apply (IH old (currentTime r) _ Hwt).
      now apply (playing_onmessage old T).
    + destruct Hwt as (HT & Hend & Hwt).
      apply (IH old t _ Hwt).
      now apply (playing_onended old T).
Qed.

(** X17.  Across interruptions and failed payloads: take any run of
    messages and [ended] events on one output context, from a state whose
    cursor holds a number of the language, in which the clock never runs
    backwards, the handlers read binary64 values of it, and a source fires
    [ended] only after it was stopped or had played to its end.  Then of
    any two sources started during the run, the earlier one either has been
    stopped or ends, but for the rounding of the cursor, no later than the
    later one starts: with the end [when1 + seconds b1] of the earlier one
    taken exactly and the later one started at [when2],
    [when1 + seconds b1 <= (1 + 2^-51) * when2].  The cursor is advanced by
    a binary64 sum of a binary64 duration, so the exact end of a buffer can
    lie above the start of the next by such a rounding error (and does, see
    [playback_exact_sum_fails]); audio that was not cut off overlaps audio
    scheduled after it by no more than that, even though an interruption
    resets the cursor to 0. *)
Theorem playback_never_overlaps_unstopped_audio
    (events : list playback_event) (T : Q) (ws : world * state) :
  is_number (nextStartTimeRef (snd ws)) →
  well_timed T ws events →
  ∃ new, calls (fst (play events ws)) = calls (fst ws) ++ new
    ∧ no_overlap (stopped (fst (play events ws))) new.
Proof.
  intros Hnum Hwt.
  destruct (playing_play events (calls (fst ws)) T ws Hwt)
    as (T' & _ & new & Hc & _ & Hno).
  - split; [exact Hnum|].
    exists []. split; [now rewrite app_nil_r|]. split; [constructor|].
    intros j k s1 a1 w1 d1 s2 a2 w2 d2 _ H1. discriminate.
  - exists new. split; assumption.
Qed.

Lemma playback_never_overlaps_unstopped_audio_witness :
  ∃ new,
    calls
      (fst (play
              [Arrives (mkReadings 1 (""%string, 0) (""%string, 0))
                 (mkMessage (Some [65; 65; 65; 61]) None None false);
               Ends 0 2;
               Arrives (mkReadings 3 (""%string, 0) (""%string, 0))
                 (mkMessage (Some [65; 65; 65; 61]) None None true);
               Arrives (mkReadings 3 (""%string, 0) (""%string, 0))
                 (mkMessage (Some [65; 65; 65; 61]) None None false)]
              (initial_world,
               set_outputContextRef (Some 0%nat) initial_state)))
    = calls initial_world ++ new
    ∧ no_overlap
        (stopped
           (fst (play
                   [Arrives (mkReadings 1 (""%string, 0) (""%string, 0))
                      (mkMessage (Some [65; 65; 65; 61]) None None false);
                    Ends 0 2;
                    Arrives (mkReadings 3 (""%string, 0) (""%string, 0))
                      (mkMessage (Some [65; 65; 65; 61]) None None true);
                    Arrives (mkReadings 3 (""%string, 0) (""%string, 0))
                      (mkMessage (Some [65; 65; 65; 61]) None None false)]
                   (initial_world,
                    set_outputContextRef (Some 0%nat) initial_state))))
        new.
Proof.
  apply (playback_never_overlaps_unstopped_audio
           [Arrives (mkReadings 1 (""%string, 0) (""%string, 0))
              (mkMessage (Some [65; 65; 65; 61]) None None false);
            Ends 0 2;
            Arrives (mkReadings 3 (""%string, 0) (""%string, 0))
              (mkMessage (Some [65; 65; 65; 61]) None None true);
            Arrives (mkReadings 3 (""%string, 0) (""%string, 0))
              (mkMessage (Some [65; 65; 65; 61]) None None false)]
           0
           (initial_world, set_outputContextRef (Some 0%nat) initial_state)).
  - exists 0%Q. split; reflexivity.
  - cbn [well_timed currentTime].
    split; [vm_compute; discriminate|].
    split; [eexists; split; [vm_compute; reflexivity|reflexivity]|].
    split; [vm_compute; discriminate|].
    split.
    + right. vm_compute. constructor; [|constructor].
      intros _ H. discriminate.
    + split; [vm_compute; discriminate|].
      split; [eexists; split; [vm_compute; reflexivity|reflexivity]|].
      split; [vm_compute; discriminate|].
      split; [eexists; split; [vm_compute; reflexivity|reflexivity]|exact I].
Defined.
